(** * channeldb/migrations.go: the three schema migrations of the channel
      database, embedded over a model of a writable bbolt transaction.

    The file has four parts:
    - byte strings, Go slice operations and [binary.BigEndian.PutUint64];
    - the store: nested buckets, and the [bolt.Tx]/[bolt.Bucket] operations
      the migrations call ([CreateBucketIfNotExists], [Bucket], [ForEach],
      [Put]), in a state-and-error monad. bbolt is a library the package
      imports; its operations follow its documented behaviour on an open,
      writable transaction;
    - the three migration functions, statement by statement, with their
      visitors (the function literals passed to [ForEach]) as definitions
      of their own;
    - the properties of the migrations. *)

From Stdlib Require Import String.
From Stdlib.Strings Require Import Byte.
From Stdlib Require Import List ZArith Lia Bool.
Import ListNotations.

Local Open Scope Z_scope.

(** ** Byte strings *)

Definition bytes := list byte.

(** Go's conversion [byte(v)] of an unsigned integer: the low 8 bits. *)
Definition byte_of_Z (v : Z) : byte :=
  match Byte.of_N (Z.to_N (v mod 256)) with
  | Some b => b
  | None => x00
  end.

Definition Z_of_byte (b : byte) : Z := Z.of_N (Byte.to_N b).

(** Go's conversion [uint64(x)] of an [int64]: the value modulo 2^64. *)
Definition uint64 (x : Z) : Z := x mod 2 ^ 64.

(** [bytes.Compare]: lexicographic order on raw bytes, the key order of a
    bucket. *)
Fixpoint bytes_compare (a b : bytes) : comparison :=
  match a, b with
  | [], [] => Eq
  | [], _ :: _ => Lt
  | _ :: _, [] => Gt
  | x :: a', y :: b' =>
      match Z.compare (Z_of_byte x) (Z_of_byte y) with
      | Eq => bytes_compare a' b'
      | c => c
      end
  end.

Definition bytes_eqb (a b : bytes) : bool :=
  match bytes_compare a b with Eq => true | _ => false end.

(** [binary.BigEndian.PutUint64(b, v)] on an 8-byte destination; [byteOrder]
    of the package is [binary.BigEndian]. *)
Definition PutUint64 (v : Z) : bytes :=
  [ byte_of_Z (Z.shiftr v 56); byte_of_Z (Z.shiftr v 48);
    byte_of_Z (Z.shiftr v 40); byte_of_Z (Z.shiftr v 32);
    byte_of_Z (Z.shiftr v 24); byte_of_Z (Z.shiftr v 16);
    byte_of_Z (Z.shiftr v 8);  byte_of_Z v ].

(** Go's builtin [copy(dst, src)]: the contents of [dst] afterwards. It
    copies [min (len dst) (len src)] bytes. *)
Definition go_copy (dst src : bytes) : bytes :=
  firstn (length dst) src ++ skipn (length src) dst.

(** The value a visitor receives: [None] is Go's nil slice. *)
Definition reader_bytes (v : option bytes) : bytes :=
  match v with Some b => b | None => [] end.

(** ** Errors and outcomes *)

Inductive error : Type :=
| ErrBucketNameRequired
| ErrIncompatibleValue
| ErrKeyRequired
| ErrKeyTooLarge
| ErrValueTooLarge
| ErrCodec (code : Z)
| Errorf (msg : string) (cause : error).

(** A Go call returns normally, returns a non-nil error, or panics. *)
Inductive result (A : Type) : Type :=
| Ok (a : A)
| Err (e : error)
| Panic.
Arguments Ok {A} a.
Arguments Err {A} e.
Arguments Panic {A}.

(** ** The store *)

(** A bucket maps keys to leaf values or nested buckets; entries are kept in
    key order. *)
#[warnings="-register-all"]
Inductive entry : Type :=
| Leaf (v : bytes)
| Nested (b : list (bytes * entry)).

Definition bucket := list (bytes * entry).

(** What [ForEach] hands to the visitor for an entry: nil for a nested
    bucket. *)
Definition entry_value (e : entry) : option bytes :=
  match e with Leaf v => Some v | Nested _ => None end.

Fixpoint lookup (k : bytes) (b : bucket) : option entry :=
  match b with
  | [] => None
  | (k', e) :: b' => if bytes_eqb k k' then Some e else lookup k b'
  end.

(** Insert or overwrite at the position of [k] in key order. *)
Fixpoint insert (k : bytes) (e : entry) (b : bucket) : bucket :=
  match b with
  | [] => [(k, e)]
  | (k', e') :: b' =>
      match bytes_compare k k' with
      | Lt => (k, e) :: (k', e') :: b'
      | Eq => (k, e) :: b'
      | Gt => (k', e') :: insert k e b'
      end
  end.

Fixpoint sorted_keys (ks : list bytes) : bool :=
  match ks with
  | [] => true
  | k :: ks' =>
      match ks' with
      | [] => true
      | k' :: _ =>
          match bytes_compare k k' with Lt => true | _ => false end
      end && sorted_keys ks'
  end.

(** The invariant of one bucket: keys strictly increasing. *)
Definition sorted (b : bucket) : bool := sorted_keys (map fst b).

(** The root bucket of an open, writable transaction. *)
Definition Tx := bucket.

(** A [*bolt.Bucket]: the path of names from the root. *)
Definition handle := list bytes.

Fixpoint get_bucket (h : handle) (b : bucket) : option bucket :=
  match h with
  | [] => Some b
  | n :: h' =>
      match lookup n b with
      | Some (Nested b') => get_bucket h' b'
      | _ => None
      end
  end.

(** Run [f] on the bucket a handle points to and store its result there. *)
Fixpoint update_bucket (h : handle) (f : bucket -> result bucket)
    (b : bucket) : result bucket :=
  match h with
  | [] => f b
  | n :: h' =>
      match lookup n b with
      | Some (Nested b') =>
          match update_bucket h' f b' with
          | Ok b'' => Ok (insert n (Nested b'') b)
          | Err e => Err e
          | Panic => Panic
          end
      | _ => Panic
      end
  end.

Definition MaxKeySize : Z := 32768.
Definition MaxValueSize : Z := 2 ^ 31 - 2.

Definition len (b : bytes) : Z := Z.of_nat (length b).

(** [Bucket.Put] on the contents of one bucket. A nil value is stored as an
    empty one. *)
Definition bucket_put (key : bytes) (value : option bytes) (b : bucket)
    : result bucket :=
  if len key =? 0 then Err ErrKeyRequired
  else if MaxKeySize <? len key then Err ErrKeyTooLarge
  else if MaxValueSize <? len (reader_bytes value) then Err ErrValueTooLarge
  else match lookup key b with
       | Some (Nested _) => Err ErrIncompatibleValue
       | _ => Ok (insert key (Leaf (reader_bytes value)) b)
       end.

(** [Bucket.CreateBucketIfNotExists] on the contents of one bucket. *)
Definition bucket_create (name : bytes) (b : bucket) : result bucket :=
  if len name =? 0 then Err ErrBucketNameRequired
  else match lookup name b with
       | Some (Nested _) => Ok b
       | Some (Leaf _) => Err ErrIncompatibleValue
       | None => Ok (insert name (Nested []) b)
       end.

(** ** The monad of a migration: the transaction is threaded through, and
    stays as it is at the point where an error is returned. *)

Definition M (A : Type) : Type := Tx -> result A * Tx.

Definition ret {A} (a : A) : M A := fun tx => (Ok a, tx).

Definition bind {A B} (m : M A) (f : A -> M B) : M B :=
  fun tx =>
    match m tx with
    | (Ok a, tx') => f a tx'
    | (Err e, tx') => (Err e, tx')
    | (Panic, tx') => (Panic, tx')
    end.

Definition lift {A} (r : result A) : M A := fun tx => (r, tx).

(** [if err != nil { return fmt.Errorf(msg, err) }] around a call. *)
Definition wrap {A} (msg : string) (m : M A) : M A :=
  fun tx =>
    match m tx with
    | (Err e, tx') => (Err (Errorf msg e), tx')
    | r => r
    end.

Declare Scope go_scope.
Delimit Scope go_scope with go.
Notation "x <- m ;; k" := (bind m (fun x => k))
  (at level 100, m at next level, right associativity) : go_scope.
Notation "m ;; k" := (bind m (fun _ => k))
  (at level 100, right associativity) : go_scope.
Local Open Scope go_scope.

Definition modify (h : handle) (f : bucket -> result bucket) : M unit :=
  fun tx =>
    match update_bucket h f tx with
    | Ok tx' => (Ok tt, tx')
    | Err e => (Err e, tx)
    | Panic => (Panic, tx)
    end.

Definition read_bucket (h : handle) : M bucket :=
  fun tx =>
    match get_bucket h tx with
    | Some b => (Ok b, tx)
    | None => (Panic, tx)
    end.

(** [b.Put(key, value)] *)
Definition Put (b : handle) (key : bytes) (value : option bytes) : M unit :=
  modify b (bucket_put key value).

(** [b.CreateBucketIfNotExists(name)]; on the transaction, [b] is the root. *)
Definition CreateBucketIfNotExists (b : handle) (name : bytes) : M handle :=
  modify b (bucket_create name) ;; ret (b ++ [name]).

(** [tx.Bucket(name)]: nil when the name is absent or names a leaf. *)
Definition Bucket (name : bytes) : M (option handle) :=
  fun tx =>
    match lookup name tx with
    | Some (Nested _) => (Ok (Some [name]), tx)
    | _ => (Ok None, tx)
    end.

Fixpoint visit (fn : bytes -> option bytes -> M unit) (es : bucket)
    : M unit :=
  match es with
  | [] => ret tt
  | (k, e) :: es' => fn k (entry_value e) ;; visit fn es'
  end.

(** [b.ForEach(fn)]: the entries of the bucket in key order, stopping at the
    first error. The visitors below write either the key being visited or
    another bucket, so the entries still to come are those present when the
    scan starts. *)
Definition ForEach (b : handle) (fn : bytes -> option bytes -> M unit)
    : M unit :=
  es <- read_bucket b ;; visit fn es.

(** [s[:n]] on a slice whose capacity is its length; nil has capacity 0. *)
Definition slice_to (s : option bytes) (n : nat) : M bytes :=
  if (n <=? length (reader_bytes s))%nat
  then ret (firstn n (reader_bytes s))
  else lift Panic.

(** [s[n:]] *)
Definition slice_from (s : bytes) (n : nat) : M bytes :=
  if (n <=? length s)%nat then ret (skipn n s) else lift Panic.

(** ** What the migrations take from the rest of the package *)

(** Bucket names and database version numbers, declared in other files of
    the package. *)
Class Constants : Type := {
  nodeBucket : bytes;
  nodeUpdateIndexBucket : bytes;
  edgeBucket : bytes;
  edgeUpdateIndexBucket : bytes;
  paymentBucket : bytes;
  invoiceBucket : bytes;
  forwardingLogBucket : bytes;
  nodeAndEdgeUpdateIndexVersion : Z;
  invoiceWithChannelPointVersion : Z;
  forwardEventWithType : Z
}.

(** A [ForwardingEvent]: the fields every version has, and the [Type] field
    the last migration adds. *)
Record ForwardingEvent (Fields ForwardType : Type) : Type := {
  EventFields : Fields;
  EventType : ForwardType
}.
Arguments EventFields {Fields ForwardType} _.
Arguments EventType {Fields ForwardType} _.
Arguments Build_ForwardingEvent {Fields ForwardType} _ _.

(** The record types and their versioned codecs. A reader over a byte
    slice is the slice; a codec that writes to a buffer returns the bytes
    written. [deserializeChanEdgePolicy] also reads the node bucket. *)
Class Codecs : Type := {
  ChannelEdgePolicy : Type;
  LastUpdate_Unix : ChannelEdgePolicy -> Z;
  deserializeChanEdgePolicy : bytes -> bucket -> result ChannelEdgePolicy;
  OutgoingPayment : Type;
  deserializeOutgoingPayment : bytes -> Z -> result OutgoingPayment;
  serializeOutgoingPayment : OutgoingPayment -> Z -> result bytes;
  Invoice : Type;
  deserializeInvoice : bytes -> Z -> result Invoice;
  serializeInvoice : Invoice -> Z -> result bytes;
  EventFieldsT : Type;
  ForwardType : Type;
  SuccessForward : ForwardType;
  decodeForwardingEvent :
    bytes -> Z -> result (ForwardingEvent EventFieldsT ForwardType);
  encodeForwardingEvent :
    ForwardingEvent EventFieldsT ForwardType -> Z -> result bytes
}.

(** ** The migrations *)

Section Migrations.

Context {consts : Constants} {codecs : Codecs}.

(** The visitor of [nodes.ForEach] (lines 35-54). *)
Definition nodeVisitor (nodeUpdateIndex : handle)
    (nodePub : bytes) (nodeInfo : option bytes) : M unit :=
  if negb (length nodePub =? 33)%nat then ret tt
  else
    updateTime <- slice_to nodeInfo 8 ;;
    let indexKey := repeat x00 (8 + 33) in
    let indexKey :=
      go_copy (firstn 8 indexKey) updateTime ++ skipn 8 indexKey in
    let indexKey :=
      firstn 8 indexKey ++ go_copy (skipn 8 indexKey) nodePub in
    Put nodeUpdateIndex indexKey None.

(** The visitor of [edges.ForEach] (lines 76-106). *)
Definition edgeVisitor (nodes edgeUpdateIndex : handle)
    (edgeKey : bytes) (edgePolicyBytes : option bytes) : M unit :=
  if negb (length edgeKey =? 41)%nat then ret tt
  else
    chanID <- slice_from edgeKey 33 ;;
    let edgePolicyReader := reader_bytes edgePolicyBytes in
    nodesContents <- read_bucket nodes ;;
    edgePolicy <-
      lift (deserializeChanEdgePolicy edgePolicyReader nodesContents) ;;
    let indexKey := repeat x00 (8 + 8) in
    let indexKey :=
      PutUint64 (uint64 (LastUpdate_Unix edgePolicy)) ++ skipn 8 indexKey in
    let indexKey :=
      firstn 8 indexKey ++ go_copy (skipn 8 indexKey) chanID in
    Put edgeUpdateIndex indexKey None.

Definition migrateNodeAndEdgeUpdateIndex : M unit :=
  nodes <-
    wrap "unable to create node bucket: %v"
      (CreateBucketIfNotExists [] nodeBucket) ;;
  nodeUpdateIndex <-
    wrap "unable to create node update index: %v"
      (CreateBucketIfNotExists nodes nodeUpdateIndexBucket) ;;
  wrap "unable to update node indexes: %v"
    (ForEach nodes (nodeVisitor nodeUpdateIndex)) ;;
  edges <-
    wrap "unable to create edge bucket: %v"
      (CreateBucketIfNotExists [] edgeBucket) ;;
  edgeUpdateIndex <-
    wrap "unable to create edge update index: %v"
      (CreateBucketIfNotExists edges edgeUpdateIndexBucket) ;;
  wrap "unable to update edge indexes: %v"
    (ForEach edges (edgeVisitor nodes edgeUpdateIndex)) ;;
  ret tt.

(** The visitor of [paymentsBucket.ForEach] (lines 126-150). *)
Definition paymentVisitor (paymentsBucket : handle)
    (paymentKey : bytes) (paymentData : option bytes) : M unit :=
  match paymentData with
  | None => ret tt
  | Some data =>
      payment <-
        lift (deserializeOutgoingPayment data
                nodeAndEdgeUpdateIndexVersion) ;;
      b <-
        lift (serializeOutgoingPayment payment
                invoiceWithChannelPointVersion) ;;
      Put paymentsBucket paymentKey (Some b)
  end.

(** The visitor of [invoiceBucket.ForEach] (lines 163-182). *)
Definition invoiceVisitor (invoiceBucket : handle)
    (invoiceKey : bytes) (invoiceData : option bytes) : M unit :=
  match invoiceData with
  | None => ret tt
  | Some data =>
      invoice <-
        lift (deserializeInvoice data nodeAndEdgeUpdateIndexVersion) ;;
      b <- lift (serializeInvoice invoice invoiceWithChannelPointVersion) ;;
      Put invoiceBucket invoiceKey (Some b)
  end.

Definition migrateAddInvoiceWithChannelPoint : M unit :=
  paymentsBucket <- Bucket paymentBucket ;;
  match paymentsBucket with
  | Some paymentsBucket =>
      ForEach paymentsBucket (paymentVisitor paymentsBucket)
  | None => ret tt
  end ;;
  invoiceBucket' <- Bucket invoiceBucket ;;
  match invoiceBucket' with
  | Some invoiceBucket' =>
      ForEach invoiceBucket' (invoiceVisitor invoiceBucket')
  | None => ret tt
  end ;;
  ret tt.

(** The visitor of [logBucket.ForEach] (lines 197-220). *)
Definition forwardEventVisitor (logBucket : handle)
    (logTime : bytes) (logData : option bytes) : M unit :=
  let r := reader_bytes logData in
  event <- lift (decodeForwardingEvent r (forwardEventWithType - 1)) ;;
  let event :=
    {| EventFields := EventFields event; EventType := SuccessForward |} in
  eventBuf <- lift (encodeForwardingEvent event forwardEventWithType) ;;
  Put logBucket logTime (Some eventBuf) ;;
  ret tt.

Definition migrateAddTypeToForwardEvent : M unit :=
  logBucket <- Bucket forwardingLogBucket ;;
  match logBucket with
  | Some logBucket => ForEach logBucket (forwardEventVisitor logBucket)
  | None => ret tt
  end.

End Migrations.

(** ** Re-encoding a bucket in place, as a function on its entries

    The three visitors of the last two migrations have one shape: transcode
    the value and [Put] it back under its key. [rewrite_entries] is what
    such a scan computes on the entries of the bucket. *)

Definition and_then {A B} (r : result A) (f : A -> result B) : result B :=
  match r with
  | Ok a => f a
  | Err e => Err e
  | Panic => Panic
  end.

Definition rewriteVisitor (skip_nil : bool) (tr : bytes -> result bytes)
    (h : handle) (k : bytes) (v : option bytes) : M unit :=
  match v with
  | None =>
      if skip_nil then ret tt
      else w <- lift (tr []) ;; Put h k (Some w)
  | Some d => w <- lift (tr d) ;; Put h k (Some w)
  end.

(** The size checks of [Put]. *)
Definition put_check (k w : bytes) : result unit :=
  if len k =? 0 then Err ErrKeyRequired
  else if MaxKeySize <? len k then Err ErrKeyTooLarge
  else if MaxValueSize <? len w then Err ErrValueTooLarge
  else Ok tt.

Definition rewrite_entry (skip_nil : bool) (tr : bytes -> result bytes)
    (k : bytes) (e : entry) : result entry :=
  match e with
  | Nested b =>
      if skip_nil then Ok (Nested b)
      else and_then (tr []) (fun w =>
           and_then (put_check k w) (fun _ => Err ErrIncompatibleValue))
  | Leaf v =>
      and_then (tr v) (fun w =>
      and_then (put_check k w) (fun _ => Ok (Leaf w)))
  end.

Fixpoint rewrite_entries (skip_nil : bool) (tr : bytes -> result bytes)
    (es : bucket) : result unit * bucket :=
  match es with
  | [] => (Ok tt, [])
  | (k, e) :: es' =>
      match rewrite_entry skip_nil tr k e with
      | Ok e' =>
          let (r, es'') := rewrite_entries skip_nil tr es' in
          (r, (k, e') :: es'')
      | Err x => (Err x, es)
      | Panic => (Panic, es)
      end
  end.

(** [if b := tx.Bucket(name); b != nil { ... b.ForEach(visitor) ... }] *)
Definition scan_bucket (name : bytes)
    (visitor : handle -> bytes -> option bytes -> M unit) : M unit :=
  fun tx =>
    match lookup name tx with
    | Some (Nested _) => ForEach [name] (visitor [name]) tx
    | _ => (Ok tt, tx)
    end.

(** One entry and its image under [rewrite_entry]. *)
Definition rewritten (skip_nil : bool) (tr : bytes -> result bytes)
    (x y : bytes * entry) : Prop :=
  fst y = fst x /\ rewrite_entry skip_nil tr (fst x) (snd x) = Ok (snd y).

(** An entry and its re-encoding: a nested bucket is left as it is, a leaf
    is decoded at version [old] and encoded at version [new], and the new
    value passes the size checks of [Put]. *)
Definition reencoded {R : Type} (dec : bytes -> Z -> result R)
    (enc : R -> Z -> result bytes) (old new : Z)
    (x y : bytes * entry) : Prop :=
  fst y = fst x /\
  match snd x with
  | Nested b => snd y = Nested b
  | Leaf v =>
      exists r w, dec v old = Ok r /\ enc r new = Ok w /\
                  put_check (fst x) w = Ok tt /\ snd y = Leaf w
  end.

(** Re-encoding the value [v] fails with [err]: at the decoder, or at the
    encoder on what the decoder returned. *)
Definition reencode_fails {R : Type} (dec : bytes -> Z -> result R)
    (enc : R -> Z -> result bytes) (old new : Z) (v : bytes) (err : error)
    : Prop :=
  dec v old = Err err \/ exists r, dec v old = Ok r /\ enc r new = Err err.

(** [name] is not a bucket of the root: [tx.Bucket(name)] is nil. *)
Definition no_bucket (name : bytes) (tx : Tx) : Prop :=
  forall b, lookup name tx <> Some (Nested b).

(** A bucket that holds no nested bucket, as the two indexes do. *)
Definition no_nested (b : bucket) : Prop :=
  forall key x, lookup key b <> Some (Nested x).

Section Transcoders.

Context {consts : Constants} {codecs : Codecs}.

Definition transcode_payment (data : bytes) : result bytes :=
  and_then (deserializeOutgoingPayment data nodeAndEdgeUpdateIndexVersion)
    (fun p => serializeOutgoingPayment p invoiceWithChannelPointVersion).

Definition transcode_invoice (data : bytes) : result bytes :=
  and_then (deserializeInvoice data nodeAndEdgeUpdateIndexVersion)
    (fun i => serializeInvoice i invoiceWithChannelPointVersion).

Definition transcode_event (data : bytes) : result bytes :=
  and_then (decodeForwardingEvent data (forwardEventWithType - 1))
    (fun ev =>
       encodeForwardingEvent
         {| EventFields := EventFields ev; EventType := SuccessForward |}
         forwardEventWithType).

(** A forwarding event and its re-encoding with the type set. *)
Definition retyped (x y : bytes * entry) : Prop :=
  fst y = fst x /\
  exists v ev w,
    snd x = Leaf v /\
    decodeForwardingEvent v (forwardEventWithType - 1) = Ok ev /\
    encodeForwardingEvent
      {| EventFields := EventFields ev; EventType := SuccessForward |}
      forwardEventWithType = Ok w /\
    put_check (fst x) w = Ok tt /\
    snd y = Leaf w.


(** The store holds the four buckets, sorted, and its two indexes hold the
    key of every eligible node and edge entry. *)
Definition indexed (tx : Tx) : Prop :=
  exists N I E EI,
    sorted tx = true /\
    lookup nodeBucket tx = Some (Nested N) /\ sorted N = true /\
    lookup nodeUpdateIndexBucket N = Some (Nested I) /\ sorted I = true /\
    lookup edgeBucket tx = Some (Nested E) /\ sorted E = true /\
    lookup edgeUpdateIndexBucket E = Some (Nested EI) /\
    sorted EI = true /\
    (forall k e, In (k, e) N -> length k = 33%nat ->
       exists v, e = Leaf v /\ (8 <= length v)%nat /\
                 lookup (firstn 8 v ++ k) I = Some (Leaf [])) /\
    (forall k e, In (k, e) E -> length k = 41%nat ->
       exists p,
         deserializeChanEdgePolicy (reader_bytes (entry_value e)) N
           = Ok p /\
         lookup (PutUint64 (uint64 (LastUpdate_Unix p)) ++ skipn 33 k) EI
           = Some (Leaf [])).

(** The stages of [migrateNodeAndEdgeUpdateIndex] before the edge scan
    pass on [tx]: the two names of the node stage are not empty and not
    held by leaf values, the index name is not taken for a node key, every
    node entry with a 33-byte key is a leaf of at least 8 bytes, and the
    node index, if there, holds no nested bucket. *)
Definition node_stages_pass (tx : Tx) : Prop :=
  len nodeBucket <> 0 /\ len nodeUpdateIndexBucket <> 0 /\
  length nodeUpdateIndexBucket <> 33%nat /\
  (forall v, lookup nodeBucket tx <> Some (Leaf v)) /\
  (forall N, get_bucket [nodeBucket] tx = Some N ->
     (forall v, lookup nodeUpdateIndexBucket N <> Some (Leaf v)) /\
     (forall k e, In (k, e) N -> length k = 33%nat ->
        exists v, e = Leaf v /\ (8 <= length v)%nat)) /\
  (forall I, get_bucket [nodeBucket; nodeUpdateIndexBucket] tx = Some I ->
     no_nested I).

(** The edge scan starts on the edge bucket [E] of [tx]: the two names of
    the edge stage are not empty, the index name is neither held by a leaf
    value nor taken for an edge key, and the edge index, if there, holds no
    nested bucket. *)
Definition edge_scan_starts (tx : Tx) (E : bucket) : Prop :=
  len edgeBucket <> 0 /\ len edgeUpdateIndexBucket <> 0 /\
  length edgeUpdateIndexBucket <> 41%nat /\
  get_bucket [edgeBucket] tx = Some E /\
  (forall v, lookup edgeUpdateIndexBucket E <> Some (Leaf v)) /\
  (forall I, get_bucket [edgeBucket; edgeUpdateIndexBucket] tx = Some I ->
     no_nested I).

End Transcoders.

(** ** A concrete instance, to run the migrations on *)

Module Example.

Definition name (s : string) : bytes := list_byte_of_string s.

(** Bucket names and version numbers for the example. *)
#[export] Instance consts : Constants := {|
  nodeBucket := name "graph-node";
  nodeUpdateIndexBucket := name "graph-node-update-index";
  edgeBucket := name "graph-edge";
  edgeUpdateIndexBucket := name "graph-edge-update-index";
  paymentBucket := name "payments";
  invoiceBucket := name "invoices";
  forwardingLogBucket := name "circuit-fwd-log";
  nodeAndEdgeUpdateIndexVersion := 1;
  invoiceWithChannelPointVersion := 2;
  forwardEventWithType := 3
|}.

(** Small codecs: an edge policy is its one-byte update time; payments and
    invoices gain one zero byte in the new version; a forwarding event gains
    its type as last byte. Each decoder rejects the empty input. *)
#[export] Instance codecs : Codecs := {|
  ChannelEdgePolicy := Z;
  LastUpdate_Unix := fun p => p;
  deserializeChanEdgePolicy := fun r _ =>
    match r with
    | [t] => Ok (Z_of_byte t)
    | _ => Err (ErrCodec 1)
    end;
  OutgoingPayment := bytes;
  deserializeOutgoingPayment := fun r _ =>
    match r with [] => Err (ErrCodec 2) | _ => Ok r end;
  serializeOutgoingPayment := fun p _ => Ok (p ++ [x00]);
  Invoice := bytes;
  deserializeInvoice := fun r _ =>
    match r with [] => Err (ErrCodec 3) | _ => Ok r end;
  serializeInvoice := fun i _ => Ok (i ++ [x00]);
  EventFieldsT := bytes;
  ForwardType := byte;
  SuccessForward := x00;
  decodeForwardingEvent := fun r _ =>
    match r with
    | [] => Err (ErrCodec 4)
    | _ => Ok {| EventFields := r; EventType := xff |}
    end;
  encodeForwardingEvent := fun ev _ => Ok (EventFields ev ++ [EventType ev])
|}.

(** A node key: 33 bytes. *)
Definition pub (b : byte) : bytes := repeat b 33.

(** An edge key: a node key followed by an 8-byte channel id. *)
Definition edge_key (b c : byte) : bytes := pub b ++ repeat c 8.

(** A store with two nodes, a source marker and an alias bucket in the node
    bucket, two edges, one payment, one invoice and two forwarding events. *)
Definition store : Tx :=
  [ (name "circuit-fwd-log",
     Nested [ ([x01], Leaf [x0a]); ([x02], Leaf [x0b; x0c]) ]);
    (name "graph-edge",
     Nested [ (edge_key x02 x07, Leaf [x05]);
              (edge_key x03 x08, Leaf [x06]) ]);
    (name "graph-node",
     Nested [ (pub x02, Leaf [x00; x00; x00; x00; x00; x00; x03; xe8; x11]);
              (pub x03, Leaf [x00; x00; x00; x00; x00; x00; x03; xe9]);
              (name "alias", Nested []);
              (name "source", Leaf (pub x02)) ]);
    (name "invoices", Nested [ ([x01], Leaf [x21]) ]);
    (name "payments", Nested [ ([x01], Leaf [x31]); ([x09], Nested []) ]) ].

(** [store] with an edge whose policy does not decode. *)
Definition store_bad_edge : Tx :=
  [ (name "graph-edge",
     Nested [ (edge_key x02 x07, Leaf [x05]);
              (edge_key x03 x08, Leaf []) ]);
    (name "graph-node",
     Nested [ (pub x02, Leaf [x00; x00; x00; x00; x00; x00; x03; xe8]) ]) ].

(** A store whose second payment does not decode. *)
Definition store_bad_payment : Tx :=
  [ (name "invoices", Nested [ ([x01], Leaf [x21]) ]);
    (name "payments",
     Nested [ ([x01], Leaf [x31]); ([x02], Leaf []); ([x03], Leaf [x33]) ]) ].

(** A store whose second invoice does not decode. *)
Definition store_bad_invoice : Tx :=
  [ (name "invoices",
     Nested [ ([x01], Leaf [x21]); ([x02], Leaf []); ([x03], Leaf [x23]) ]);
    (name "payments", Nested [ ([x01], Leaf [x31]) ]) ].

(** A node bucket with a nested bucket under a 33-byte key. *)
Definition store_nested_node : Tx :=
  [ (name "graph-node", Nested [ (pub x00, Nested []) ]) ].

(** A forwarding log with a nested bucket. *)
Definition store_nested_log : Tx :=
  [ (name "circuit-fwd-log", Nested [ ([x01], Nested []) ]) ].

(** The node bucket name held by a leaf value. *)
Definition store_leaf_node : Tx :=
  [ (name "graph-node", Leaf [x01]) ].

(** The node index name held by a leaf value of the node bucket. *)
Definition store_leaf_index : Tx :=
  [ (name "graph-node",
     Nested [ (name "graph-node-update-index", Leaf []) ]) ].

(** A store with payments and no invoice bucket. *)
Definition store_payments_only : Tx :=
  [ (name "payments", Nested [ ([x01], Leaf [x31]) ]) ].

(** A store with one node and one edge, both in their indexes. *)
Definition store_indexed : Tx :=
  [ (name "graph-edge",
     Nested [ (edge_key x02 x07, Leaf [x05]);
              (name "graph-edge-update-index",
               Nested [ ([x00; x00; x00; x00; x00; x00; x00; x05]
                           ++ repeat x07 8, Leaf []) ]) ]);
    (name "graph-node",
     Nested [ (pub x02, Leaf [x00; x00; x00; x00; x00; x00; x03; xe8]);
              (name "graph-node-update-index",
               Nested [ ([x00; x00; x00; x00; x00; x00; x03; xe8]
                           ++ pub x02, Leaf []) ]) ]) ].

(** A forwarding log whose second event does not decode. *)
Definition store_bad_event : Tx :=
  [ (name "circuit-fwd-log",
     Nested [ ([x01], Leaf [x0a]); ([x02], Leaf []); ([x03], Leaf [x0c]) ]);
    (name "payments", Nested [ ([x01], Leaf [x31]) ]) ].

End Example.

(** ** Predicates on buckets and transactions *)

(** The keys below [k] in key order. *)
Definition all_below (k : bytes) (ks : list bytes) : Prop :=
  Forall (fun k' => bytes_compare k' k = Lt) ks.

(** The keys above [k] in key order. *)
Definition all_above (k : bytes) (ks : list bytes) : Prop :=
  Forall (fun k' => bytes_compare k k' = Lt) ks.

(** The entries stored under one key. *)
Definition entries_with_key (k : bytes) (b : bucket) : bucket :=
  filter (fun p => bytes_eqb (fst p) k) b.

(** An operation on one bucket that keeps every nested bucket of it. *)
Definition keeps_nested (f : bucket -> result bucket) : Prop :=
  forall c c' n x,
    f c = Ok c' -> lookup n c = Some (Nested x) ->
    lookup n c' = Some (Nested x).


(** The unsigned integer a byte string denotes in big-endian order. *)
Fixpoint be_value (bs : bytes) : Z :=
  match bs with
  | [] => 0
  | x :: bs' => Z_of_byte x * 256 ^ Z.of_nat (length bs') + be_value bs'
  end.

(** A computation keeps a property of the transaction, whatever its
    outcome. *)
Definition preserves {A} (P : Tx -> Prop) (m : M A) : Prop :=
  forall tx r tx', m tx = (r, tx') -> P tx -> P tx'.

(** ** Predicates for the further properties *)

(** The messages [migrateNodeAndEdgeUpdateIndex] wraps its errors in. *)
Definition index_migration_messages : list string :=
  [ "unable to create node bucket: %v";
    "unable to create node update index: %v";
    "unable to update node indexes: %v";
    "unable to create edge bucket: %v";
    "unable to create edge update index: %v";
    "unable to update edge indexes: %v" ]%string.

(** An entry and what a re-encoding scan may leave in its place, whether
    the scan ends well or not: the key is kept, a nested bucket is kept as
    it is, a leaf stays a leaf. *)
Definition same_shape (x y : bytes * entry) : Prop :=
  fst y = fst x /\
  match snd x with
  | Nested b => snd y = Nested b
  | Leaf _ => exists w, snd y = Leaf w
  end.

(** Every bucket of the transaction, the root included, has its keys in
    strictly increasing order. *)
Definition all_sorted (tx : Tx) : Prop :=
  forall h c, get_bucket h tx = Some c -> sorted c = true.

(** An operation on one bucket that keeps it sorted and adds no nested
    bucket but an empty one. *)
Definition keeps_sorted (f : bucket -> result bucket) : Prop :=
  forall c c',
    f c = Ok c' -> sorted c = true ->
    sorted c' = true /\
    forall n x, lookup n c' = Some (Nested x) ->
                lookup n c = Some (Nested x) \/ x = [].

(** The bucket [n] of the root still holds, under every key but [i], what
    [X] holds. *)
Definition records_kept (n i : bytes) (X : bucket) (tx : Tx) : Prop :=
  exists X',
    get_bucket [n] tx = Some X' /\
    forall k, k <> i -> lookup k X' = lookup k X.

(** The keys of a bucket, and of every bucket nested in it, are strictly
    increasing: [all_sorted] as a check. *)
Fixpoint entry_sorted (e : entry) : bool :=
  match e with
  | Leaf _ => true
  | Nested b => sorted b && forallb (fun p => entry_sorted (snd p)) b
  end.

(** * Properties *)

(** ** Key order *)

Lemma Z_of_byte_inj (x y : byte) : Z_of_byte x = Z_of_byte y -> x = y.
Proof.
  unfold Z_of_byte. intros H. apply N2Z.inj in H.
  assert (E : Some x = Some y)
    by (rewrite <- (Byte.of_to_N x), <- (Byte.of_to_N y), H; reflexivity).
  now inversion E.
Qed.

Lemma Z_of_byte_range (x : byte) : 0 <= Z_of_byte x < 256.
Proof.
  unfold Z_of_byte. pose proof (Byte.to_N_bounded x). lia.
Qed.

Lemma bytes_compare_refl (a : bytes) : bytes_compare a a = Eq.
Proof.
  induction a as [|x a IH]; simpl; [reflexivity|].
  now rewrite Z.compare_refl.
Qed.

Lemma bytes_compare_eq (a b : bytes) : bytes_compare a b = Eq -> a = b.
Proof.
  revert b. induction a as [|x a IH]; intros [|y b]; simpl;
    try discriminate; [reflexivity|].
  destruct (Z.compare_spec (Z_of_byte x) (Z_of_byte y)) as [E| |];
    try discriminate.
  intros H. apply Z_of_byte_inj in E. apply IH in H. now subst.
Qed.

Lemma bytes_compare_antisym (a b : bytes) :
  bytes_compare b a = CompOpp (bytes_compare a b).
Proof.
  revert b. induction a as [|x a IH]; intros [|y b]; simpl; try reflexivity.
  rewrite (Z.compare_antisym (Z_of_byte x) (Z_of_byte y)).
  destruct (Z_of_byte x ?= Z_of_byte y); simpl; auto.
Qed.

Lemma bytes_compare_lt_trans (a b c : bytes) :
  bytes_compare a b = Lt -> bytes_compare b c = Lt -> bytes_compare a c = Lt.
Proof.
  revert b c. induction a as [|x a IH]; intros [|y b] [|z c]; simpl;
    try discriminate; try reflexivity.
  destruct (Z.compare_spec (Z_of_byte x) (Z_of_byte y)) as [E|L|G];
    try discriminate.
  - rewrite E. destruct (Z_of_byte y ?= Z_of_byte z); try discriminate; eauto.
  - intros _.
    destruct (Z.compare_spec (Z_of_byte y) (Z_of_byte z)) as [E'|L'|G'];
      try discriminate; intros _.
    + rewrite <- E'. now apply Z.compare_lt_iff in L; rewrite L.
    + assert (T : Z_of_byte x < Z_of_byte z) by lia.
      now apply Z.compare_lt_iff in T; rewrite T.
Qed.

Lemma bytes_eqb_eq (a b : bytes) : bytes_eqb a b = true <-> a = b.
Proof.
  unfold bytes_eqb. split.
  - destruct (bytes_compare a b) eqn:E; try discriminate.
    intros _. now apply bytes_compare_eq.
  - intros ->. now rewrite bytes_compare_refl.
Qed.

Lemma bytes_eqb_refl (a : bytes) : bytes_eqb a a = true.
Proof. now apply bytes_eqb_eq. Qed.

Lemma bytes_eqb_neq (a b : bytes) : bytes_eqb a b = false <-> a <> b.
Proof.
  split.
  - intros H E. apply bytes_eqb_eq in E. congruence.
  - intros H. destruct (bytes_eqb a b) eqn:E; [|reflexivity].
    apply bytes_eqb_eq in E. contradiction.
Qed.

Lemma bytes_eq_dec (a b : bytes) : {a = b} + {a <> b}.
Proof.
  destruct (bytes_eqb a b) eqn:E.
  - left. now apply bytes_eqb_eq.
  - right. now apply bytes_eqb_neq.
Defined.

(** ** Buckets as ordered association lists *)

Lemma lookup_insert_eq (k : bytes) (e : entry) (b : bucket) :
  lookup k (insert k e b) = Some e.
Proof.
  induction b as [|[k' e'] b IH]; simpl.
  - now rewrite bytes_eqb_refl.
  - destruct (bytes_compare k k') eqn:C; simpl.
    + now rewrite bytes_eqb_refl.
    + now rewrite bytes_eqb_refl.
    + unfold bytes_eqb. now rewrite C.
Qed.

Lemma lookup_insert_ne (k k' : bytes) (e : entry) (b : bucket) :
  k <> k' -> lookup k (insert k' e b) = lookup k b.
Proof.
  intros N. apply bytes_eqb_neq in N.
  induction b as [|[k0 e0] b IH]; simpl.
  - now rewrite N.
  - destruct (bytes_compare k' k0) eqn:C; simpl.
    + apply bytes_compare_eq in C. subst k0. now rewrite N.
    + now rewrite N.
    + now rewrite IH.
Qed.


Lemma lookup_In (k : bytes) (e : entry) (b : bucket) :
  lookup k b = Some e -> In (k, e) b.
Proof.
  induction b as [|[k' e'] b IH]; simpl; [discriminate|].
  destruct (bytes_eqb k k') eqn:E.
  - apply bytes_eqb_eq in E. intros [= ->]. left. now subst.
  - auto.
Qed.

Lemma In_lookup (k : bytes) (e : entry) (b : bucket) :
  In (k, e) b -> lookup k b <> None.
Proof.
  induction b as [|[k' e'] b IH]; simpl; [tauto|].
  intros [[= -> ->]|H].
  - now rewrite bytes_eqb_refl.
  - destruct (bytes_eqb k k'); [discriminate|auto].
Qed.

Lemma In_insert_other (k k' : bytes) (e e' : entry) (b : bucket) :
  k <> k' -> In (k, e) b -> In (k, e) (insert k' e' b).
Proof.
  intros N. induction b as [|[k0 e0] b IH]; simpl; [tauto|].
  intros H. destruct (bytes_compare k' k0) eqn:C; simpl.
  - apply bytes_compare_eq in C. subst k0.
    destruct H as [[= -> ->]|H]; [congruence|auto].
  - auto.
  - destruct H as [H|H]; auto.
Qed.

Lemma sorted_keys_tail (k : bytes) (ks : list bytes) :
  sorted_keys (k :: ks) = true -> sorted_keys ks = true.
Proof.
  simpl. intros H. apply andb_true_iff in H. tauto.
Qed.

Lemma sorted_keys_above (k : bytes) (ks : list bytes) :
  sorted_keys (k :: ks) = true -> all_above k ks.
Proof.
  revert k. induction ks as [|k' ks IH]; intros k H; [constructor|].
  pose proof (sorted_keys_tail _ _ H) as T.
  simpl in H. apply andb_true_iff in H. destruct H as [H _].
  destruct (bytes_compare k k') eqn:C; try discriminate.
  constructor; [assumption|].
  specialize (IH _ T). unfold all_above in *.
  eapply Forall_impl; [|exact IH].
  intros a Ha. simpl in Ha. eapply bytes_compare_lt_trans; eauto.
Qed.

Lemma sorted_keys_app (ks1 ks2 : list bytes) :
  sorted_keys (ks1 ++ ks2) = true ->
  sorted_keys ks1 = true /\ sorted_keys ks2 = true.
Proof.
  induction ks1 as [|k ks1 IH]; intros H; [now split|].
  pose proof (sorted_keys_tail _ _ H) as T. destruct (IH T) as [S1 S2].
  split; [|assumption].
  simpl in H |- *. apply andb_true_iff in H. destruct H as [H _].
  apply andb_true_iff. split; [|assumption].
  destruct ks1; [reflexivity|exact H].
Qed.

Lemma sorted_keys_middle (ks1 ks2 : list bytes) (k : bytes) :
  sorted_keys (ks1 ++ k :: ks2) = true -> all_below k ks1 /\ all_above k ks2.
Proof.
  induction ks1 as [|k1 ks1 IH]; intros H.
  - split; [constructor|]. now apply sorted_keys_above.
  - pose proof (sorted_keys_tail _ _ H) as T. destruct (IH T) as [B A].
    split; [|assumption]. constructor; [|assumption].
    apply sorted_keys_above in H. unfold all_above in H.
    rewrite Forall_forall in H. apply H. apply in_or_app. right. now left.
Qed.

Lemma bytes_compare_gt (a b : bytes) :
  bytes_compare a b = Lt -> bytes_compare b a = Gt.
Proof. intros H. now rewrite bytes_compare_antisym, H. Qed.

Lemma bytes_compare_lt (a b : bytes) :
  bytes_compare a b = Gt -> bytes_compare b a = Lt.
Proof. intros H. now rewrite bytes_compare_antisym, H. Qed.

(** Overwriting a key of a sorted bucket changes that entry and nothing
    else. *)
Lemma insert_middle (k : bytes) (e e0 : entry) (pre post : bucket) :
  all_below k (map fst pre) ->
  insert k e (pre ++ (k, e0) :: post) = pre ++ (k, e) :: post.
Proof.
  induction pre as [|[k' e'] pre IH]; simpl; intros B.
  - now rewrite bytes_compare_refl.
  - inversion B as [|? ? L B']; subst.
    rewrite (bytes_compare_gt _ _ L). now rewrite IH.
Qed.

Lemma sorted_insert (k : bytes) (e : entry) (b : bucket) :
  sorted b = true -> sorted (insert k e b) = true.
Proof.
  unfold sorted. induction b as [|[k' e'] b IH]; intros S; [reflexivity|].
  simpl. destruct (bytes_compare k k') eqn:C.
  - apply bytes_compare_eq in C. now subst.
  - simpl in *. now rewrite C.
  - pose proof (sorted_keys_tail _ _ S) as T. specialize (IH T).
    change (sorted_keys (k' :: map fst (insert k e b)) = true).
    simpl. rewrite IH, andb_true_r.
    destruct b as [|[k2 e2] b]; simpl.
    + now rewrite (bytes_compare_lt _ _ C).
    + destruct (bytes_compare k k2) eqn:C2; simpl.
      * now rewrite (bytes_compare_lt _ _ C).
      * now rewrite (bytes_compare_lt _ _ C).
      * simpl in S. apply andb_true_iff in S. tauto.
Qed.

Lemma entries_with_key_above (k : bytes) (b : bucket) :
  all_above k (map fst b) -> entries_with_key k b = [].
Proof.
  induction b as [|[k' e'] b IH]; simpl; intros A; [reflexivity|].
  inversion A as [|? ? L A']; subst.
  unfold bytes_eqb. rewrite (bytes_compare_gt _ _ L). auto.
Qed.

Lemma sorted_lookup_unique (k : bytes) (e : entry) (b : bucket) :
  sorted b = true -> lookup k b = Some e -> entries_with_key k b = [(k, e)].
Proof.
  unfold sorted. induction b as [|[k' e'] b IH]; simpl; [discriminate|].
  intros S. destruct (bytes_eqb k k') eqn:E.
  - apply bytes_eqb_eq in E. subst k'. intros [= ->].
    rewrite bytes_eqb_refl. f_equal.
    apply entries_with_key_above. now apply sorted_keys_above.
  - intros L. assert (E' : bytes_eqb k' k = false).
    { apply bytes_eqb_neq. apply bytes_eqb_neq in E. congruence. }
    rewrite E'. apply IH; [|assumption].
    exact (sorted_keys_tail _ _ S).
Qed.

(** ** Handles *)

Lemma update_bucket_get (h : handle) (f : bucket -> result bucket)
    (b b' : bucket) :
  update_bucket h f b = Ok b' ->
  exists c c', get_bucket h b = Some c /\ f c = Ok c' /\
               get_bucket h b' = Some c'.
Proof.
  revert b b'. induction h as [|n h IH]; simpl; intros b b' H.
  - eauto.
  - destruct (lookup n b) as [[v|c]|] eqn:L; try discriminate.
    destruct (update_bucket h f c) as [c''| |] eqn:U; try discriminate.
    injection H as <-. destruct (IH _ _ U) as (d & d' & G & F & G').
    exists d, d'. rewrite lookup_insert_eq. auto.
Qed.

(** An update below the root name [n] leaves every other root entry as it
    is. *)
Lemma update_bucket_frame (n : bytes) (h : handle)
    (f : bucket -> result bucket) (b b' : bucket) (m : bytes) :
  update_bucket (n :: h) f b = Ok b' -> m <> n -> lookup m b' = lookup m b.
Proof.
  simpl. intros H N.
  destruct (lookup n b) as [[v|c]|]; try discriminate.
  destruct (update_bucket h f c); try discriminate.
  injection H as <-. now apply lookup_insert_ne.
Qed.

Lemma bucket_put_keeps_nested (key : bytes) (value : option bytes) :
  keeps_nested (bucket_put key value).
Proof.
  intros c c' n x. unfold bucket_put.
  destruct (len key =? 0); [discriminate|].
  destruct (MaxKeySize <? len key); [discriminate|].
  destruct (MaxValueSize <? len (reader_bytes value)); [discriminate|].
  destruct (bytes_eq_dec n key) as [->|N].
  - intros H L. rewrite L in H. discriminate.
  - intros H L.
    assert (c' = insert key (Leaf (reader_bytes value)) c)
      by (destruct (lookup key c) as [[?|?]|]; congruence).
    subst c'. now rewrite lookup_insert_ne.
Qed.



(** ** Reasoning in the monad *)

Lemma bind_inv {A B} (m : M A) (f : A -> M B) (tx tx' : Tx) (r : result B) :
  bind m f tx = (r, tx') ->
  (exists a tx1, m tx = (Ok a, tx1) /\ f a tx1 = (r, tx')) \/
  (exists e, m tx = (Err e, tx') /\ r = Err e) \/
  (m tx = (Panic, tx') /\ r = Panic).
Proof.
  unfold bind. destruct (m tx) as [[a|e|] tx1]; intros H.
  - left. eauto.
  - injection H as <- <-. right. left. eauto.
  - injection H as <- <-. right. right. auto.
Qed.

Lemma bind_ok {A B} (m : M A) (f : A -> M B) (tx tx' : Tx) (b : B) :
  bind m f tx = (Ok b, tx') ->
  exists a tx1, m tx = (Ok a, tx1) /\ f a tx1 = (Ok b, tx').
Proof.
  intros H. destruct (bind_inv _ _ _ _ _ H) as [?|[(e & _ & ?)|(_ & ?)]];
    [assumption|discriminate|discriminate].
Qed.

Lemma wrap_ok {A} (msg : string) (m : M A) (tx tx' : Tx) (a : A) :
  wrap msg m tx = (Ok a, tx') -> m tx = (Ok a, tx').
Proof.
  unfold wrap. destruct (m tx) as [[a'|e|] tx1]; intros H;
    try discriminate; assumption.
Qed.

Lemma wrap_inv {A} (msg : string) (m : M A) (tx tx' : Tx) (r : result A) :
  wrap msg m tx = (r, tx') ->
  exists r0, m tx = (r0, tx') /\
    match r0 with Err e => r = Err (Errorf msg e) | _ => r = r0 end.
Proof.
  unfold wrap. destruct (m tx) as [[a'|e|] tx1]; intros [= <- <-];
    eexists; split; reflexivity.
Qed.

Lemma modify_inv (h : handle) (f : bucket -> result bucket) (tx tx' : Tx)
    (r : result unit) :
  modify h f tx = (r, tx') ->
  (r = Ok tt /\ update_bucket h f tx = Ok tx') \/ (r <> Ok tt /\ tx' = tx).
Proof.
  unfold modify. destruct (update_bucket h f tx); intros [= <- <-];
    [left; auto | right; split; [discriminate|reflexivity] ..].
Qed.


Lemma read_bucket_inv (h : handle) (tx tx' : Tx) (r : result bucket) :
  read_bucket h tx = (r, tx') ->
  tx' = tx /\
  match get_bucket h tx with Some b => r = Ok b | None => r = Panic end.
Proof.
  unfold read_bucket. destruct (get_bucket h tx); intros [= <- <-]; auto.
Qed.

(** A property of the transaction that every call of the visitor keeps is
    kept by the scan, whatever its outcome. *)
Lemma visit_preserves (P : Tx -> Prop)
    (fn : bytes -> option bytes -> M unit) :
  (forall k v tx r tx', fn k v tx = (r, tx') -> P tx -> P tx') ->
  forall es tx r tx', visit fn es tx = (r, tx') -> P tx -> P tx'.
Proof.
  intros Hfn. induction es as [|[k e] es IH]; simpl; intros tx r tx' H HP.
  - now injection H as _ <-.
  - destruct (bind_inv _ _ _ _ _ H) as
      [(a & tx1 & H1 & H2)|[(e' & H1 & _)|(H1 & _)]]; eauto.
Qed.

(** The scan stops at the first entry whose visit fails: the entries after
    it are not visited. *)
Lemma visit_stops (fn : bytes -> option bytes -> M unit)
    (pre post : bucket) (k : bytes) (e : entry) (tx tx1 tx2 : Tx)
    (err : error) :
  visit fn pre tx = (Ok tt, tx1) ->
  fn k (entry_value e) tx1 = (Err err, tx2) ->
  visit fn (pre ++ (k, e) :: post) tx = (Err err, tx2).
Proof.
  revert tx. induction pre as [|[k' e'] pre IH]; simpl; intros tx H1 H2.
  - injection H1 as <-. unfold bind. now rewrite H2.
  - apply bind_ok in H1. destruct H1 as ([] & tx0 & Ha & Hb).
    unfold bind at 1. rewrite Ha. now apply IH.
Qed.

(** ** Big-endian timestamps *)

Lemma Z_of_byte_of_Z (v : Z) : Z_of_byte (byte_of_Z v) = v mod 256.
Proof.
  unfold Z_of_byte, byte_of_Z.
  assert (R : 0 <= v mod 256 < 256) by (apply Z.mod_pos_bound; lia).
  destruct (Byte.of_N (Z.to_N (v mod 256))) as [b|] eqn:E.
  - apply Byte.to_of_N in E. rewrite E. lia.
  - apply Byte.of_N_None_iff in E. lia.
Qed.

Lemma be_value_range (bs : bytes) :
  0 <= be_value bs < 256 ^ Z.of_nat (length bs).
Proof.
  induction bs as [|x bs IH]; simpl be_value; simpl length.
  - simpl. lia.
  - pose proof (Z_of_byte_range x).
    rewrite Nat2Z.inj_succ, Z.pow_succ_r by lia. nia.
Qed.

(** On byte strings of one length, [bytes.Compare] is the order of the
    big-endian values. *)
Lemma bytes_compare_be_value (a b : bytes) :
  length a = length b ->
  bytes_compare a b = (be_value a ?= be_value b).
Proof.
  revert b. induction a as [|x a IH]; intros [|y b]; simpl length;
    try discriminate; intros L; [reflexivity|].
  injection L as L. simpl. rewrite (IH _ L), L.
  pose proof (be_value_range a) as Ra. pose proof (be_value_range b) as Rb.
  rewrite L in Ra. set (p := 256 ^ Z.of_nat (length b)) in *.
  destruct (Z.compare_spec (Z_of_byte x) (Z_of_byte y)) as [E|Lt|Gt].
  - rewrite E. symmetry.
    destruct (Z.compare_spec (be_value a) (be_value b)).
    + apply Z.compare_eq_iff. lia.
    + apply Z.compare_lt_iff. lia.
    + apply Z.compare_gt_iff. lia.
  - symmetry. apply Z.compare_lt_iff. nia.
  - symmetry. apply Z.compare_gt_iff. nia.
Qed.

Lemma be_value_PutUint64 (v : Z) :
  0 <= v < 2 ^ 64 -> be_value (PutUint64 v) = v.
Proof.
  intros R. unfold PutUint64, be_value. rewrite !Z_of_byte_of_Z.
  rewrite !Z.shiftr_div_pow2 by lia. simpl length.
  change (Z.of_nat 7) with 7. change (Z.of_nat 6) with 6.
  change (Z.of_nat 5) with 5. change (Z.of_nat 4) with 4.
  change (Z.of_nat 3) with 3. change (Z.of_nat 2) with 2.
  change (Z.of_nat 1) with 1. change (Z.of_nat 0) with 0.
  change (2 ^ 64) with 18446744073709551616 in R.
  change (2 ^ 56) with 72057594037927936.
  change (2 ^ 48) with 281474976710656.
  change (2 ^ 40) with 1099511627776.
  change (2 ^ 32) with 4294967296.
  change (2 ^ 24) with 16777216.
  change (2 ^ 16) with 65536.
  change (2 ^ 8) with 256.
  change (256 ^ 7) with 72057594037927936.
  change (256 ^ 6) with 281474976710656.
  change (256 ^ 5) with 1099511627776.
  change (256 ^ 4) with 4294967296.
  change (256 ^ 3) with 16777216.
  change (256 ^ 2) with 65536.
  change (256 ^ 1) with 256.
  change (256 ^ 0) with 1.
  Z.div_mod_to_equations. lia.
Qed.

Lemma PutUint64_compare (t1 t2 : Z) :
  0 <= t1 < 2 ^ 64 -> 0 <= t2 < 2 ^ 64 ->
  bytes_compare (PutUint64 t1) (PutUint64 t2) = (t1 ?= t2).
Proof.
  intros R1 R2. rewrite bytes_compare_be_value by reflexivity.
  now rewrite !be_value_PutUint64.
Qed.

Lemma bytes_compare_app (p q a b : bytes) :
  length p = length q ->
  bytes_compare (p ++ a) (q ++ b) =
  match bytes_compare p q with Eq => bytes_compare a b | c => c end.
Proof.
  revert q. induction p as [|x p IH]; intros [|y q]; simpl length;
    try discriminate; intros L; [reflexivity|].
  injection L as L. simpl.
  destruct (Z_of_byte x ?= Z_of_byte y); auto.
Qed.

(** ** Properties kept by a computation *)

Section Preserves.

Variable P : Tx -> Prop.

Lemma preserves_ret {A} (a : A) : preserves P (ret a).
Proof. intros tx r tx' [= <- <-]. auto. Qed.

Lemma preserves_lift {A} (x : result A) : preserves P (lift x).
Proof. intros tx r tx' [= <- <-]. auto. Qed.

Lemma preserves_bind {A B} (m : M A) (f : A -> M B) :
  preserves P m -> (forall a, preserves P (f a)) -> preserves P (bind m f).
Proof.
  intros Hm Hf tx r tx' H HP.
  destruct (bind_inv _ _ _ _ _ H) as
    [(a & tx1 & H1 & H2)|[(e & H1 & _)|(H1 & _)]].
  - eapply Hf; eauto.
  - eapply Hm; eauto.
  - eapply Hm; eauto.
Qed.

Lemma preserves_wrap {A} (msg : string) (m : M A) :
  preserves P m -> preserves P (wrap msg m).
Proof.
  intros Hm tx r tx' H HP.
  destruct (wrap_inv _ _ _ _ _ H) as (r0 & H0 & _). eapply Hm; eauto.
Qed.

Lemma preserves_read_bucket (h : handle) : preserves P (read_bucket h).
Proof.
  intros tx r tx' H HP. now destruct (read_bucket_inv _ _ _ _ H) as [-> _].
Qed.

Lemma preserves_slice_to (s : option bytes) (n : nat) :
  preserves P (slice_to s n).
Proof.
  unfold slice_to. destruct (n <=? length (reader_bytes s))%nat;
    [apply preserves_ret|apply preserves_lift].
Qed.

Lemma preserves_slice_from (s : bytes) (n : nat) :
  preserves P (slice_from s n).
Proof.
  unfold slice_from. destruct (n <=? length s)%nat;
    [apply preserves_ret|apply preserves_lift].
Qed.

Lemma preserves_modify (h : handle) (f : bucket -> result bucket) :
  (forall tx tx', update_bucket h f tx = Ok tx' -> P tx -> P tx') ->
  preserves P (modify h f).
Proof.
  intros Hu tx r tx' H HP.
  destruct (modify_inv _ _ _ _ _ H) as [[_ U]|[_ ->]]; eauto.
Qed.

Lemma preserves_visit (fn : bytes -> option bytes -> M unit) (es : bucket) :
  (forall k v, preserves P (fn k v)) -> preserves P (visit fn es).
Proof.
  intros Hfn tx r tx' H. eapply visit_preserves; eauto.
Qed.

Lemma preserves_ForEach (h : handle) (fn : bytes -> option bytes -> M unit) :
  (forall k v, preserves P (fn k v)) -> preserves P (ForEach h fn).
Proof.
  intros Hfn. unfold ForEach. apply preserves_bind.
  - apply preserves_read_bucket.
  - intros es. now apply preserves_visit.
Qed.

End Preserves.

(** ** The visitors, case by case *)

Lemma go_copy_full (dst src : bytes) :
  length dst = length src -> go_copy dst src = src.
Proof.
  intros L. unfold go_copy.
  rewrite L, firstn_all, skipn_all2 by lia. apply app_nil_r.
Qed.

Lemma nodeVisitor_skip (h : handle) (k : bytes) (v : option bytes) (tx : Tx) :
  length k <> 33%nat -> nodeVisitor h k v tx = (Ok tt, tx).
Proof.
  intros L. unfold nodeVisitor.
  apply Nat.eqb_neq in L. now rewrite L.
Qed.

Lemma nodeVisitor_panic (h : handle) (k : bytes) (v : option bytes)
    (tx : Tx) :
  length k = 33%nat -> (length (reader_bytes v) < 8)%nat ->
  nodeVisitor h k v tx = (Panic, tx).
Proof.
  intros L S. unfold nodeVisitor, slice_to. rewrite L. simpl negb. cbv iota.
  apply Nat.leb_gt in S. now rewrite S.
Qed.

Lemma node_index_key (t k : bytes) :
  length t = 8%nat -> length k = 33%nat ->
  let indexKey := repeat x00 (8 + 33) in
  let indexKey :=
    go_copy (firstn 8 indexKey) t ++ skipn 8 indexKey in
  firstn 8 indexKey ++ go_copy (skipn 8 indexKey) k = t ++ k.
Proof.
  intros Lt Lk. cbv zeta.
  change (firstn 8 (repeat x00 (8 + 33))) with (repeat x00 8).
  change (skipn 8 (repeat x00 (8 + 33))) with (repeat x00 33).
  rewrite (go_copy_full (repeat x00 8)) by (now rewrite Lt).
  rewrite firstn_app, Lt, Nat.sub_diag, firstn_O, app_nil_r.
  rewrite firstn_all2 by lia.
  rewrite skipn_app, Lt, Nat.sub_diag, skipn_O.
  rewrite skipn_all2 by lia. simpl app.
  rewrite go_copy_full by (now rewrite Lk). reflexivity.
Qed.

Lemma nodeVisitor_put (h : handle) (k : bytes) (v : option bytes)
    (tx : Tx) :
  length k = 33%nat -> (8 <= length (reader_bytes v))%nat ->
  nodeVisitor h k v tx = Put h (firstn 8 (reader_bytes v) ++ k) None tx.
Proof.
  intros L S. unfold nodeVisitor, slice_to. rewrite L. simpl negb. cbv iota.
  pose proof S as S'. apply Nat.leb_le in S'. rewrite S'.
  unfold bind, ret.
  assert (L8 : length (firstn 8 (reader_bytes v)) = 8%nat)
    by (rewrite length_firstn; lia).
  pose proof (node_index_key _ _ L8 L) as E. cbv zeta in E.
  now rewrite E.
Qed.

Lemma bucket_put_ok (key : bytes) (value : option bytes) (c c' : bucket) :
  bucket_put key value c = Ok c' ->
  c' = insert key (Leaf (reader_bytes value)) c.
Proof.
  unfold bucket_put.
  destruct (len key =? 0); [discriminate|].
  destruct (MaxKeySize <? len key); [discriminate|].
  destruct (MaxValueSize <? len (reader_bytes value)); [discriminate|].
  destruct (lookup key c) as [[?|?]|]; congruence.
Qed.

Lemma Put_ok (h : handle) (key : bytes) (value : option bytes)
    (tx tx' : Tx) :
  Put h key value tx = (Ok tt, tx') ->
  update_bucket h (bucket_put key value) tx = Ok tx' /\
  exists c, get_bucket h tx = Some c /\
    get_bucket h tx' = Some (insert key (Leaf (reader_bytes value)) c).
Proof.
  unfold Put. intros H.
  destruct (modify_inv _ _ _ _ _ H) as [[_ U]|[N _]]; [|congruence].
  split; [assumption|].
  destruct (update_bucket_get _ _ _ _ U) as (c & c' & G & F & G').
  apply bucket_put_ok in F. subst c'. eauto.
Qed.

Lemma get_bucket_frame (n m : bytes) (h q : handle)
    (f : bucket -> result bucket) (tx tx' : Tx) :
  update_bucket (n :: h) f tx = Ok tx' -> m <> n ->
  get_bucket (m :: q) tx' = get_bucket (m :: q) tx.
Proof.
  intros U N. simpl get_bucket.
  now rewrite (update_bucket_frame _ _ _ _ _ _ U N).
Qed.

(** The node scan: every eligible entry visited has its key in the index
    afterwards, and keys already there stay. *)
Lemma visit_nodeVisitor (h : handle) (es : bucket) :
  forall (tx tx' : Tx) (I : bucket),
    visit (nodeVisitor h) es tx = (Ok tt, tx') ->
    get_bucket h tx = Some I ->
    exists I',
      get_bucket h tx' = Some I' /\
      (sorted I = true -> sorted I' = true) /\
      (forall key, lookup key I = Some (Leaf []) ->
                   lookup key I' = Some (Leaf [])) /\
      (forall k e, In (k, e) es -> length k = 33%nat ->
         exists v, e = Leaf v /\ (8 <= length v)%nat /\
                   lookup (firstn 8 v ++ k) I' = Some (Leaf [])).
Proof.
  induction es as [|[k e] es IH]; simpl; intros tx tx' I H G.
  - injection H as <-. exists I. repeat split; auto. intros ? ? [].
  - apply bind_ok in H. destruct H as ([] & tx1 & H1 & H2).
    destruct (Nat.eq_dec (length k) 33) as [L|L].
    + destruct (le_lt_dec 8 (length (reader_bytes (entry_value e))))
        as [S|S].
      * rewrite nodeVisitor_put in H1 by assumption.
        apply Put_ok in H1. destruct H1 as (_ & c & Gc & G1).
        rewrite G in Gc. injection Gc as <-.
        destruct (IH _ _ _ H2 G1) as (I' & G' & S' & K' & E').
        exists I'. split; [assumption|]. split; [|split].
        -- intros SI. apply S'. now apply sorted_insert.
        -- intros key Lk. apply K'.
           destruct (bytes_eq_dec key
             (firstn 8 (reader_bytes (entry_value e)) ++ k)) as [->|N].
           ++ apply lookup_insert_eq.
           ++ now rewrite lookup_insert_ne.
        -- intros k0 e0 [[= -> ->]|Hin] L0; [|eauto].
           destruct e0 as [v|b]; simpl in S; [|lia].
           exists v. repeat split; [assumption|].
           apply K'. apply lookup_insert_eq.
      * rewrite nodeVisitor_panic in H1 by assumption. discriminate.
    + rewrite nodeVisitor_skip in H1 by assumption. injection H1 as <-.
      destruct (IH _ _ _ H2 G) as (I' & G' & S' & K' & E').
      exists I'. repeat split; auto.
      intros k0 e0 [[= -> ->]|Hin] L0; [contradiction|eauto].
Qed.

Lemma preserves_Put_frame (n m : bytes) (h : handle) (key : bytes)
    (v : option bytes) (L : option entry) :
  m <> n -> preserves (fun t => lookup m t = L) (Put (n :: h) key v).
Proof.
  intros N. apply preserves_modify. intros tx tx' U <-.
  eapply update_bucket_frame; eauto.
Qed.


Lemma preserves_nodeVisitor (P : Tx -> Prop) (h : handle) :
  (forall key val, preserves P (Put h key val)) ->
  forall k v, preserves P (nodeVisitor h k v).
Proof.
  intros HP k v. unfold nodeVisitor.
  destruct (negb (length k =? 33)%nat); [apply preserves_ret|].
  apply preserves_bind; [apply preserves_slice_to|]. intros t. apply HP.
Qed.

Section Visitors.

Context {consts : Constants} {codecs : Codecs}.

Lemma edgeVisitor_skip (n h : handle) (k : bytes) (v : option bytes)
    (tx : Tx) :
  length k <> 41%nat -> edgeVisitor n h k v tx = (Ok tt, tx).
Proof.
  intros L. unfold edgeVisitor.
  apply Nat.eqb_neq in L. now rewrite L.
Qed.

Lemma edge_index_key (t c : bytes) :
  length t = 8%nat -> length c = 8%nat ->
  let indexKey := repeat x00 (8 + 8) in
  let indexKey := t ++ skipn 8 indexKey in
  firstn 8 indexKey ++ go_copy (skipn 8 indexKey) c = t ++ c.
Proof.
  intros Lt Lc. cbv zeta.
  change (skipn 8 (repeat x00 (8 + 8))) with (repeat x00 8).
  rewrite firstn_app, Lt, Nat.sub_diag, firstn_O, app_nil_r.
  rewrite firstn_all2 by lia.
  rewrite skipn_app, Lt, Nat.sub_diag, skipn_O.
  rewrite skipn_all2 by lia. simpl app.
  rewrite go_copy_full by (now rewrite Lc). reflexivity.
Qed.

Lemma edgeVisitor_eq (n h : handle) (k : bytes) (v : option bytes)
    (tx : Tx) :
  length k = 41%nat ->
  edgeVisitor n h k v tx =
  match get_bucket n tx with
  | Some N =>
      match deserializeChanEdgePolicy (reader_bytes v) N with
      | Ok p =>
          Put h (PutUint64 (uint64 (LastUpdate_Unix p)) ++ skipn 33 k)
            None tx
      | Err e => (Err e, tx)
      | Panic => (Panic, tx)
      end
  | None => (Panic, tx)
  end.
Proof.
  intros L. unfold edgeVisitor, slice_from, read_bucket, bind, ret, lift.
  rewrite L.
  change (negb (41 =? 41)%nat) with false.
  change (33 <=? 41)%nat with true. cbv beta iota.
  destruct (get_bucket n tx) as [N|]; [|reflexivity].
  destruct (deserializeChanEdgePolicy (reader_bytes v) N) as [p|e|];
    try reflexivity.
  assert (Lc : length (skipn 33 k) = 8%nat) by (rewrite length_skipn; lia).
  pose proof (edge_index_key (PutUint64 (uint64 (LastUpdate_Unix p))) _
                eq_refl Lc) as E.
  cbv zeta in E. now rewrite E.
Qed.

(** The edge scan: every eligible entry visited decoded, and its key is in
    the index afterwards; the node bucket is not written. *)
Lemma visit_edgeVisitor (nb eb : bytes) (q' q : handle) (es : bucket) :
  nb <> eb ->
  forall (tx tx' : Tx) (I : bucket),
    visit (edgeVisitor (nb :: q') (eb :: q)) es tx = (Ok tt, tx') ->
    get_bucket (eb :: q) tx = Some I ->
    get_bucket (nb :: q') tx' = get_bucket (nb :: q') tx /\
    exists I',
      get_bucket (eb :: q) tx' = Some I' /\
      (forall key, lookup key I = Some (Leaf []) ->
                   lookup key I' = Some (Leaf [])) /\
      (forall k e, In (k, e) es -> length k = 41%nat ->
         exists N p,
           get_bucket (nb :: q') tx = Some N /\
           deserializeChanEdgePolicy (reader_bytes (entry_value e)) N
             = Ok p /\
           lookup (PutUint64 (uint64 (LastUpdate_Unix p)) ++ skipn 33 k) I'
             = Some (Leaf [])).
Proof.
  intros D. induction es as [|[k e] es IH]; simpl visit; intros tx tx' I H G.
  - injection H as <-. split; [reflexivity|].
    exists I. repeat split; auto. intros ? ? [].
  - apply bind_ok in H. destruct H as ([] & tx1 & H1 & H2).
    destruct (Nat.eq_dec (length k) 41) as [L|L].
    + rewrite edgeVisitor_eq in H1 by assumption.
      destruct (get_bucket (nb :: q') tx) as [N|] eqn:GN; [|discriminate].
      destruct (deserializeChanEdgePolicy (reader_bytes (entry_value e)) N)
        as [p|err|] eqn:Dec; try discriminate.
      apply Put_ok in H1. destruct H1 as (U & c & Gc & G1).
      rewrite G in Gc. injection Gc as <-.
      pose proof (get_bucket_frame _ _ _ q' _ _ _ U D) as F.
      destruct (IH _ _ _ H2 G1) as (F' & I' & G' & K' & E').
      split; [congruence|].
      exists I'. split; [assumption|]. split.
      * intros key Lk. apply K'.
        destruct (bytes_eq_dec key
          (PutUint64 (uint64 (LastUpdate_Unix p)) ++ skipn 33 k)) as [->|N'].
        -- apply lookup_insert_eq.
        -- now rewrite lookup_insert_ne.
      * intros k0 e0 [[= -> ->]|Hin] L0.
        -- exists N, p. repeat split; [assumption|].
           apply K'. apply lookup_insert_eq.
        -- destruct (E' _ _ Hin L0) as (N0 & p0 & A & B & C).
           exists N0, p0. repeat split; congruence.
    + rewrite edgeVisitor_skip in H1 by assumption. injection H1 as <-.
      destruct (IH _ _ _ H2 G) as (F' & I' & G' & K' & E').
      split; [assumption|].
      exists I'. repeat split; auto.
      intros k0 e0 [[= -> ->]|Hin] L0; [contradiction|eauto].
Qed.

Lemma preserves_edgeVisitor (P : Tx -> Prop) (n h : handle) :
  (forall key val, preserves P (Put h key val)) ->
  forall k v, preserves P (edgeVisitor n h k v).
Proof.
  intros HP k v. unfold edgeVisitor.
  destruct (negb (length k =? 41)%nat); [apply preserves_ret|].
  apply preserves_bind; [apply preserves_slice_from|]. intros c.
  apply preserves_bind; [apply preserves_read_bucket|]. intros N.
  apply preserves_bind; [apply preserves_lift|]. intros p. apply HP.
Qed.

Lemma bucket_create_exists (name : bytes) (c c' x : bucket) :
  lookup name c = Some (Nested x) -> bucket_create name c = Ok c' -> c' = c.
Proof.
  unfold bucket_create. intros ->.
  destruct (len name =? 0); congruence.
Qed.

Lemma bucket_create_spec (name : bytes) (c c' : bucket) :
  bucket_create name c = Ok c' ->
  (exists x, lookup name c' = Some (Nested x) /\
     (lookup name c = Some (Nested x) \/ (lookup name c = None /\ x = []))) /\
  (forall m, m <> name -> lookup m c' = lookup m c) /\
  (forall k e, In (k, e) c -> In (k, e) c').
Proof.
  unfold bucket_create.
  destruct (len name =? 0); [discriminate|].
  destruct (lookup name c) as [[v|d]|] eqn:L; try discriminate;
    intros [= <-].
  - split; [eauto|]. split; auto.
  - split; [|split].
    + exists []. rewrite lookup_insert_eq. auto.
    + intros m N. now apply lookup_insert_ne.
    + intros k e Hin. apply In_insert_other; [|assumption].
      intros ->. apply In_lookup in Hin. contradiction.
Qed.

Lemma CreateBucketIfNotExists_ok (b : handle) (name : bytes) (tx tx' : Tx)
    (h : handle) :
  CreateBucketIfNotExists b name tx = (Ok h, tx') ->
  h = b ++ [name] /\ update_bucket b (bucket_create name) tx = Ok tx'.
Proof.
  unfold CreateBucketIfNotExists. intros H.
  apply bind_ok in H. destruct H as ([] & tx1 & H1 & H2).
  injection H2 as <- <-.
  destruct (modify_inv _ _ _ _ _ H1) as [[_ U]|[N _]]; [auto|congruence].
Qed.

Lemma ForEach_ok (h : handle) (fn : bytes -> option bytes -> M unit)
    (tx tx' : Tx) :
  ForEach h fn tx = (Ok tt, tx') ->
  exists es, get_bucket h tx = Some es /\ visit fn es tx = (Ok tt, tx').
Proof.
  unfold ForEach. intros H.
  apply bind_ok in H. destruct H as (es & tx1 & H1 & H2).
  destruct (read_bucket_inv _ _ _ _ H1) as [-> R].
  destruct (get_bucket h tx) as [es'|]; [|discriminate].
  injection R as <-. eauto.
Qed.

Lemma get_bucket_cons (n : bytes) (h : handle) (tx c : bucket) :
  get_bucket [n] tx = Some c -> get_bucket (n :: h) tx = get_bucket h c.
Proof.
  simpl. destruct (lookup n tx) as [[v|d]|]; try discriminate.
  now intros [= ->].
Qed.

Lemma get_bucket_lookup (n : bytes) (h : handle) (tx tx' : bucket) :
  lookup n tx' = lookup n tx ->
  get_bucket (n :: h) tx' = get_bucket (n :: h) tx.
Proof. simpl. now intros ->. Qed.

(** The stages of a successful run of [migrateNodeAndEdgeUpdateIndex]. *)
Lemma migrateNodeAndEdgeUpdateIndex_ok (tx tx' : Tx) :
  migrateNodeAndEdgeUpdateIndex tx = (Ok tt, tx') ->
  exists tx1 tx2 tx3 tx4 tx5 N2 E5,
    bucket_create nodeBucket tx = Ok tx1 /\
    update_bucket [nodeBucket] (bucket_create nodeUpdateIndexBucket) tx1
      = Ok tx2 /\
    get_bucket [nodeBucket] tx2 = Some N2 /\
    visit (nodeVisitor [nodeBucket; nodeUpdateIndexBucket]) N2 tx2
      = (Ok tt, tx3) /\
    bucket_create edgeBucket tx3 = Ok tx4 /\
    update_bucket [edgeBucket] (bucket_create edgeUpdateIndexBucket) tx4
      = Ok tx5 /\
    get_bucket [edgeBucket] tx5 = Some E5 /\
    visit (edgeVisitor [nodeBucket] [edgeBucket; edgeUpdateIndexBucket])
      E5 tx5 = (Ok tt, tx').
Proof.
  unfold migrateNodeAndEdgeUpdateIndex. intros H.
  apply bind_ok in H. destruct H as (nodes & tx1 & H1 & H).
  apply wrap_ok, CreateBucketIfNotExists_ok in H1. destruct H1 as [-> U1].
  apply bind_ok in H. destruct H as (idx & tx2 & H2 & H).
  apply wrap_ok, CreateBucketIfNotExists_ok in H2. destruct H2 as [-> U2].
  apply bind_ok in H. destruct H as ([] & tx3 & H3 & H).
  apply wrap_ok, ForEach_ok in H3. destruct H3 as (N2 & G2 & V3).
  apply bind_ok in H. destruct H as (edges & tx4 & H4 & H).
  apply wrap_ok, CreateBucketIfNotExists_ok in H4. destruct H4 as [-> U4].
  apply bind_ok in H. destruct H as (eidx & tx5 & H5 & H).
  apply wrap_ok, CreateBucketIfNotExists_ok in H5. destruct H5 as [-> U5].
  apply bind_ok in H. destruct H as ([] & tx6 & H6 & H).
  apply wrap_ok, ForEach_ok in H6. destruct H6 as (E5 & G5 & V6).
  injection H as <-.
  exists tx1, tx2, tx3, tx4, tx5, N2, E5. simpl in U1, U4.
  repeat split; assumption.
Qed.

(** The edge stages leave the root entries other than the edge bucket as
    they are. *)
Lemma edge_stages_frame (tx3 tx4 tx5 tx' E5 : bucket) (m : bytes) :
  bucket_create edgeBucket tx3 = Ok tx4 ->
  update_bucket [edgeBucket] (bucket_create edgeUpdateIndexBucket) tx4
    = Ok tx5 ->
  visit (edgeVisitor [nodeBucket] [edgeBucket; edgeUpdateIndexBucket])
    E5 tx5 = (Ok tt, tx') ->
  m <> edgeBucket -> lookup m tx' = lookup m tx3.
Proof.
  intros U4 U5 V6 N.
  destruct (bucket_create_spec _ _ _ U4) as (_ & F4 & _).
  pose proof (update_bucket_frame _ _ _ _ _ _ U5 N) as F5.
  assert (F6 : lookup m tx' = lookup m tx5).
  { eapply (preserves_visit (fun t => lookup m t = lookup m tx5));
      [|exact V6|reflexivity].
    apply preserves_edgeVisitor. intros key val.
    now apply preserves_Put_frame. }
  rewrite F6, F5. now apply F4.
Qed.

(** The node stages leave the root entries other than the node bucket as
    they are. *)
Lemma node_stages_frame (tx tx1 tx2 tx3 N2 : bucket) (m : bytes) :
  bucket_create nodeBucket tx = Ok tx1 ->
  update_bucket [nodeBucket] (bucket_create nodeUpdateIndexBucket) tx1
    = Ok tx2 ->
  visit (nodeVisitor [nodeBucket; nodeUpdateIndexBucket]) N2 tx2
    = (Ok tt, tx3) ->
  m <> nodeBucket -> lookup m tx3 = lookup m tx.
Proof.
  intros U1 U2 V3 N.
  destruct (bucket_create_spec _ _ _ U1) as (_ & F1 & _).
  pose proof (update_bucket_frame _ _ _ _ _ _ U2 N) as F2.
  assert (F3 : lookup m tx3 = lookup m tx2).
  { eapply (preserves_visit (fun t => lookup m t = lookup m tx2));
      [|exact V3|reflexivity].
    apply preserves_nodeVisitor. intros key val.
    now apply preserves_Put_frame. }
  rewrite F3, F2. now apply F1.
Qed.

(** Creating a nested bucket in the bucket [n] of the root. *)
Lemma create_nested_spec (n name : bytes) (tx tx' c : bucket) :
  update_bucket [n] (bucket_create name) tx = Ok tx' ->
  get_bucket [n] tx = Some c ->
  exists c' x,
    get_bucket [n] tx' = Some c' /\
    get_bucket [n; name] tx' = Some x /\
    (get_bucket [n; name] tx = Some x \/
     (get_bucket [n; name] tx = None /\ x = [])) /\
    (forall k e, In (k, e) c -> In (k, e) c').
Proof.
  intros U G.
  destruct (update_bucket_get _ _ _ _ U) as (d & c' & Gd & F & G').
  rewrite G in Gd. injection Gd as <-.
  destruct (bucket_create_spec _ _ _ F) as ((x & Lx & Old) & _ & Hin).
  exists c', x. split; [assumption|].
  rewrite (get_bucket_cons _ [name] _ _ G').
  rewrite (get_bucket_cons _ [name] _ _ G). simpl get_bucket.
  rewrite Lx. split; [reflexivity|]. split; [|assumption].
  destruct Old as [->|[-> ->]]; auto.
Qed.

(** After a successful run, every node entry with a 33-byte key has its
    index key in the node update index, once. *)
Lemma node_index_after (tx tx' N : bucket) (k : bytes) (e : entry) :
  nodeBucket <> edgeBucket ->
  migrateNodeAndEdgeUpdateIndex tx = (Ok tt, tx') ->
  get_bucket [nodeBucket] tx = Some N ->
  In (k, e) N -> length k = 33%nat ->
  exists v I',
    e = Leaf v /\ (8 <= length v)%nat /\
    get_bucket [nodeBucket; nodeUpdateIndexBucket] tx' = Some I' /\
    lookup (firstn 8 v ++ k) I' = Some (Leaf []) /\
    ((forall I, get_bucket [nodeBucket; nodeUpdateIndexBucket] tx = Some I ->
                sorted I = true) -> sorted I' = true).
Proof.
  intros D H G Hin L.
  destruct (migrateNodeAndEdgeUpdateIndex_ok _ _ H) as
    (tx1 & tx2 & tx3 & tx4 & tx5 & N2 & E5 &
     U1 & U2 & G2 & V3 & U4 & U5 & G5 & V6).
  assert (tx1 = tx).
  { simpl in G. destruct (lookup nodeBucket tx) as [[?|x]|] eqn:Lx;
      try discriminate.
    eapply bucket_create_exists; eauto. }
  subst tx1.
  destruct (create_nested_spec _ _ _ _ _ U2 G) as
    (N2' & I2 & G2' & GI2 & Old & Hin2).
  rewrite G2 in G2'. injection G2' as <-.
  destruct (visit_nodeVisitor _ _ _ _ _ V3 GI2) as (I3 & GI3 & S3 & K3 & E3).
  destruct (E3 _ _ (Hin2 _ _ Hin) L) as (v & -> & Lv & Lk).
  exists v, I3. repeat split; try assumption.
  - rewrite <- GI3. apply get_bucket_lookup.
    eapply edge_stages_frame; eauto.
  - intros HS. apply S3. destruct Old as [Old|[_ ->]]; auto.
Qed.

(** After a successful run, every edge entry with a 41-byte key decoded
    against the node bucket, and its index key is in the edge update
    index. *)
Lemma edge_index_after (tx tx' E : bucket) (k : bytes) (e : entry) :
  nodeBucket <> edgeBucket ->
  migrateNodeAndEdgeUpdateIndex tx = (Ok tt, tx') ->
  get_bucket [edgeBucket] tx = Some E ->
  In (k, e) E -> length k = 41%nat ->
  exists N p I',
    get_bucket [nodeBucket] tx' = Some N /\
    deserializeChanEdgePolicy (reader_bytes (entry_value e)) N = Ok p /\
    get_bucket [edgeBucket; edgeUpdateIndexBucket] tx' = Some I' /\
    lookup (PutUint64 (uint64 (LastUpdate_Unix p)) ++ skipn 33 k) I'
      = Some (Leaf []).
Proof.
  intros D H G Hin L.
  destruct (migrateNodeAndEdgeUpdateIndex_ok _ _ H) as
    (tx1 & tx2 & tx3 & tx4 & tx5 & N2 & E5 &
     U1 & U2 & G2 & V3 & U4 & U5 & G5 & V6).
  assert (D' : edgeBucket <> nodeBucket) by congruence.
  pose proof (node_stages_frame _ _ _ _ _ _ U1 U2 V3 D') as F3.
  assert (G3 : get_bucket [edgeBucket] tx3 = Some E).
  { rewrite <- G. now apply get_bucket_lookup. }
  assert (tx4 = tx3).
  { simpl in G3. destruct (lookup edgeBucket tx3) as [[?|x]|] eqn:Lx;
      try discriminate.
    eapply bucket_create_exists; eauto. }
  subst tx4.
  destruct (create_nested_spec _ _ _ _ _ U5 G3) as
    (E5' & I5 & G5' & GI5 & _ & Hin5).
  rewrite G5 in G5'. injection G5' as <-.
  destruct (visit_edgeVisitor _ _ _ _ _ D _ _ _ V6 GI5) as
    (FN & I6 & GI6 & _ & E6).
  destruct (E6 _ _ (Hin5 _ _ Hin) L) as (N & p & GN & Dec & Lk).
  exists N, p, I6. repeat split; try assumption. congruence.
Qed.

End Visitors.

(** ** Re-encoding scans *)

Lemma lookup_middle (k : bytes) (e : entry) (pre post : bucket) :
  all_below k (map fst pre) -> lookup k (pre ++ (k, e) :: post) = Some e.
Proof.
  induction pre as [|[k' e'] pre IH]; simpl; intros B.
  - now rewrite bytes_eqb_refl.
  - inversion B as [|? ? L B']; subst.
    unfold bytes_eqb at 1. rewrite (bytes_compare_gt _ _ L). auto.
Qed.

Lemma visit_ext (fn gn : bytes -> option bytes -> M unit) (es : bucket) :
  (forall k v tx, fn k v tx = gn k v tx) ->
  forall tx, visit fn es tx = visit gn es tx.
Proof.
  intros E. induction es as [|[k e] es IH]; intros tx; simpl; [reflexivity|].
  unfold bind. rewrite E. destruct (gn k (entry_value e) tx) as [[[]| |] tx1];
    auto.
Qed.

Lemma bind_ret_tt (m : M unit) (tx : Tx) :
  bind m (fun _ => ret tt) tx = m tx.
Proof.
  unfold bind, ret. now destruct (m tx) as [[[]| |] tx1].
Qed.

Lemma bucket_put_checked (k w : bytes) (c : bucket) :
  bucket_put k (Some w) c =
  and_then (put_check k w) (fun _ =>
    match lookup k c with
    | Some (Nested _) => Err ErrIncompatibleValue
    | _ => Ok (insert k (Leaf w) c)
    end).
Proof.
  unfold bucket_put, put_check. simpl reader_bytes.
  destruct (len k =? 0); [reflexivity|].
  destruct (MaxKeySize <? len k); [reflexivity|].
  destruct (MaxValueSize <? len w); reflexivity.
Qed.

(** One step of a re-encoding scan of the root bucket [n], at the entry
    [(k, e)] of a sorted bucket. *)
Lemma rewriteVisitor_step (skip_nil : bool) (tr : bytes -> result bytes)
    (n k : bytes) (e : entry) (pre post : bucket) (tx : Tx) :
  lookup n tx = Some (Nested (pre ++ (k, e) :: post)) ->
  all_below k (map fst pre) ->
  exists r tx',
    rewriteVisitor skip_nil tr [n] k (entry_value e) tx = (r, tx') /\
    (forall m, m <> n -> lookup m tx' = lookup m tx) /\
    match rewrite_entry skip_nil tr k e with
    | Ok e' =>
        r = Ok tt /\ lookup n tx' = Some (Nested (pre ++ (k, e') :: post))
    | Err x => r = Err x /\ tx' = tx
    | Panic => r = Panic /\ tx' = tx
    end.
Proof.
  intros L B.
  assert (W : forall w d, tr d = Ok w ->
    exists r tx',
      (x <- lift (tr d) ;; Put [n] k (Some x)) tx = (r, tx') /\
      (forall m, m <> n -> lookup m tx' = lookup m tx) /\
      match and_then (put_check k w) (fun _ =>
              match e with
              | Nested _ => Err ErrIncompatibleValue
              | Leaf _ => Ok (Leaf w)
              end) with
      | Ok e' =>
          r = Ok tt /\ lookup n tx' = Some (Nested (pre ++ (k, e') :: post))
      | Err x => r = Err x /\ tx' = tx
      | Panic => r = Panic /\ tx' = tx
      end).
  { intros w d Hw. unfold bind, lift. rewrite Hw.
    unfold Put, modify. simpl update_bucket. rewrite L.
    rewrite bucket_put_checked, (lookup_middle _ _ _ _ B).
    destruct (put_check k w) as [[]|x|]; simpl and_then.
    - destruct e as [v|b].
      + rewrite (insert_middle _ _ _ _ _ B).
        eexists; eexists. split; [reflexivity|]. split.
        * intros m N. now apply lookup_insert_ne.
        * split; [reflexivity|]. apply lookup_insert_eq.
      + eexists; eexists. split; [reflexivity|]. auto.
    - eexists; eexists. split; [reflexivity|]. auto.
    - eexists; eexists. split; [reflexivity|]. auto. }
  destruct e as [v|b]; simpl entry_value; simpl rewriteVisitor;
    simpl rewrite_entry.
  - destruct (tr v) as [w|x|] eqn:T.
    + pose proof (W w v T) as W'. rewrite T in W'. exact W'.
    + eexists; eexists. split; [reflexivity|]. simpl. auto.
    + eexists; eexists. split; [reflexivity|]. simpl. auto.
  - destruct skip_nil.
    + eexists; eexists. split; [reflexivity|]. split; [auto|].
      split; [reflexivity|assumption].
    + destruct (tr []) as [w|x|] eqn:T.
      * pose proof (W w [] T) as W'. rewrite T in W'. exact W'.
      * eexists; eexists. split; [reflexivity|]. simpl. auto.
      * eexists; eexists. split; [reflexivity|]. simpl. auto.
Qed.

(** A re-encoding scan of the sorted root bucket [n] computes
    [rewrite_entries] on the entries still to visit. *)
Lemma visit_rewrite (skip_nil : bool) (tr : bytes -> result bytes)
    (n : bytes) (es : bucket) :
  forall (done : bucket) (tx : Tx),
    lookup n tx = Some (Nested (done ++ es)) ->
    sorted (done ++ es) = true ->
    exists tx',
      visit (rewriteVisitor skip_nil tr [n]) es tx
        = (fst (rewrite_entries skip_nil tr es), tx') /\
      lookup n tx'
        = Some (Nested (done ++ snd (rewrite_entries skip_nil tr es))) /\
      (forall m, m <> n -> lookup m tx' = lookup m tx).
Proof.
  induction es as [|[k e] es IH]; intros done tx L S.
  - exists tx. simpl. auto.
  - assert (B : all_below k (map fst done)).
    { unfold sorted in S. rewrite map_app in S. simpl map in S.
      now apply sorted_keys_middle in S. }
    destruct (rewriteVisitor_step skip_nil tr _ _ _ _ _ _ L B) as
      (r & tx1 & V & F & R).
    simpl visit. unfold bind at 1. rewrite V. simpl rewrite_entries.
    destruct (rewrite_entry skip_nil tr k e) as [e'|x|].
    + destruct R as [-> L1].
      assert (S1 : sorted ((done ++ [(k, e')]) ++ es) = true).
      { unfold sorted in *. rewrite <- app_assoc. simpl app.
        rewrite map_app in *. exact S. }
      replace (done ++ (k, e') :: es) with ((done ++ [(k, e')]) ++ es) in L1
        by (now rewrite <- app_assoc).
      destruct (IH _ _ L1 S1) as (tx' & V' & L' & F').
      destruct (rewrite_entries skip_nil tr es) as [r2 es2].
      exists tx'. simpl fst in *. simpl snd in *.
      split; [assumption|]. split.
      * rewrite L'. now rewrite <- app_assoc.
      * intros m N. rewrite F' by assumption. now apply F.
    + destruct R as [-> ->]. exists tx. simpl. auto.
    + destruct R as [-> ->]. exists tx. simpl. auto.
Qed.

Lemma ForEach_rewrite (skip_nil : bool) (tr : bytes -> result bytes)
    (n : bytes) (es : bucket) (tx : Tx) :
  lookup n tx = Some (Nested es) -> sorted es = true ->
  exists tx',
    ForEach [n] (rewriteVisitor skip_nil tr [n]) tx
      = (fst (rewrite_entries skip_nil tr es), tx') /\
    lookup n tx' = Some (Nested (snd (rewrite_entries skip_nil tr es))) /\
    (forall m, m <> n -> lookup m tx' = lookup m tx).
Proof.
  intros L S. unfold ForEach, read_bucket, bind at 1. simpl get_bucket.
  rewrite L. exact (visit_rewrite skip_nil tr n es [] tx L S).
Qed.

Lemma rewrite_entries_ok (skip_nil : bool) (tr : bytes -> result bytes)
    (es : bucket) :
  fst (rewrite_entries skip_nil tr es) = Ok tt ->
  Forall2 (rewritten skip_nil tr) es (snd (rewrite_entries skip_nil tr es)).
Proof.
  induction es as [|[k e] es IH]; simpl; [constructor|].
  destruct (rewrite_entry skip_nil tr k e) as [e'|x|] eqn:R;
    try discriminate.
  destruct (rewrite_entries skip_nil tr es) as [r2 es2]. simpl in *.
  intros ->. constructor; [|auto]. split; [reflexivity|exact R].
Qed.

Lemma rewrite_entries_all (skip_nil : bool) (tr : bytes -> result bytes)
    (es es' : bucket) :
  Forall2 (rewritten skip_nil tr) es es' ->
  rewrite_entries skip_nil tr es = (Ok tt, es').
Proof.
  induction 1 as [|[k e] [k' e'] es es' [Hk He] _ IH]; [reflexivity|].
  simpl in *. subst k'. now rewrite He, IH.
Qed.

(** The scan stops at the first entry that fails: the entries before it are
    rewritten, that entry and those after it are as they were. *)
Lemma rewrite_entries_stop (skip_nil : bool) (tr : bytes -> result bytes)
    (pre pre' post : bucket) (k : bytes) (e : entry) (x : error) :
  Forall2 (rewritten skip_nil tr) pre pre' ->
  rewrite_entry skip_nil tr k e = Err x ->
  rewrite_entries skip_nil tr (pre ++ (k, e) :: post)
    = (Err x, pre' ++ (k, e) :: post).
Proof.
  intros H R. induction H as [|[k1 e1] [k1' e1'] pre pre' [Hk He] _ IH].
  - simpl. now rewrite R.
  - simpl in *. subst k1'. now rewrite He, IH.
Qed.

Lemma preserves_rewriteVisitor (P : Tx -> Prop) (skip_nil : bool)
    (tr : bytes -> result bytes) (h : handle) :
  (forall key val, preserves P (Put h key val)) ->
  forall k v, preserves P (rewriteVisitor skip_nil tr h k v).
Proof.
  intros HP k v. unfold rewriteVisitor.
  assert (W : forall d,
    preserves P (w <- lift (tr d) ;; Put h k (Some w))).
  { intros d. apply preserves_bind; [apply preserves_lift|].
    intros w. apply HP. }
  destruct v as [d|]; [apply W|].
  destruct skip_nil; [apply preserves_ret|apply W].
Qed.

(** A scan of the root bucket [n] by a re-encoding visitor. *)
Lemma scan_bucket_rewrite (skip_nil : bool) (tr : bytes -> result bytes)
    (visitor : handle -> bytes -> option bytes -> M unit) (n : bytes)
    (tx : Tx) :
  (forall h k v t, visitor h k v t = rewriteVisitor skip_nil tr h k v t) ->
  exists r tx',
    scan_bucket n visitor tx = (r, tx') /\
    (forall m, m <> n -> lookup m tx' = lookup m tx) /\
    ((forall b, lookup n tx <> Some (Nested b)) -> r = Ok tt /\ tx' = tx) /\
    (forall es, lookup n tx = Some (Nested es) -> sorted es = true ->
       r = fst (rewrite_entries skip_nil tr es) /\
       lookup n tx' = Some (Nested (snd (rewrite_entries skip_nil tr es)))).
Proof.
  intros E. unfold scan_bucket.
  destruct (lookup n tx) as [[v|es]|] eqn:L.
  - exists (Ok tt), tx. repeat split; auto; intros; discriminate.
  - destruct (ForEach [n] (visitor [n]) tx) as [r tx'] eqn:H.
    exists r, tx'. split; [reflexivity|].
    assert (H' : ForEach [n] (rewriteVisitor skip_nil tr [n]) tx = (r, tx')).
    { rewrite <- H. unfold ForEach, bind.
      destruct (read_bucket [n] tx) as [[b| |] t]; try reflexivity.
      symmetry. apply visit_ext. intros. apply E. }
    split; [|split].
    + intros m N.
      eapply (preserves_ForEach (fun t => lookup m t = lookup m tx));
        [|exact H'|reflexivity].
      apply preserves_rewriteVisitor. intros key val.
      now apply preserves_Put_frame.
    + intros Hn. now elim (Hn es).
    + intros es' [= <-] S.
      destruct (ForEach_rewrite skip_nil tr n es tx L S) as (t & V & L' & _).
      rewrite V in H'. injection H' as <- <-. auto.
  - exists (Ok tt), tx. repeat split; auto; intros; discriminate.
Qed.

Section Reencoding.

Context {consts : Constants} {codecs : Codecs}.

Lemma paymentVisitor_rewrite (h : handle) (k : bytes) (v : option bytes)
    (tx : Tx) :
  paymentVisitor h k v tx = rewriteVisitor true transcode_payment h k v tx.
Proof.
  destruct v as [d|]; [|reflexivity].
  unfold paymentVisitor, rewriteVisitor, transcode_payment, bind, lift.
  destruct (deserializeOutgoingPayment d nodeAndEdgeUpdateIndexVersion);
    reflexivity.
Qed.

Lemma invoiceVisitor_rewrite (h : handle) (k : bytes) (v : option bytes)
    (tx : Tx) :
  invoiceVisitor h k v tx = rewriteVisitor true transcode_invoice h k v tx.
Proof.
  destruct v as [d|]; [|reflexivity].
  unfold invoiceVisitor, rewriteVisitor, transcode_invoice, bind, lift.
  destruct (deserializeInvoice d nodeAndEdgeUpdateIndexVersion);
    reflexivity.
Qed.

Lemma forwardEventVisitor_rewrite (h : handle) (k : bytes)
    (v : option bytes) (tx : Tx) :
  forwardEventVisitor h k v tx
  = rewriteVisitor false transcode_event h k v tx.
Proof.
  assert (W : forall d,
    forwardEventVisitor h k d tx
    = (w <- lift (transcode_event (reader_bytes d)) ;; Put h k (Some w)) tx).
  { intros d. unfold forwardEventVisitor, transcode_event, bind at 1, lift.
    unfold bind at 3.
    destruct (decodeForwardingEvent (reader_bytes d)
                (forwardEventWithType - 1)) as [ev|e|]; try reflexivity.
    simpl and_then. unfold bind at 1.
    destruct (encodeForwardingEvent _ forwardEventWithType) as [w|e|];
      try reflexivity.
    apply bind_ret_tt. }
  rewrite W. now destruct v.
Qed.

Lemma rewritten_payment (x y : bytes * entry) :
  rewritten true transcode_payment x y <->
  reencoded deserializeOutgoingPayment serializeOutgoingPayment
    nodeAndEdgeUpdateIndexVersion invoiceWithChannelPointVersion x y.
Proof.
  destruct x as [k e], y as [k' e']. unfold rewritten, reencoded.
  simpl fst. simpl snd. unfold transcode_payment.
  split; intros [Hk H]; (split; [assumption|]); destruct e as [v|b];
    simpl in *.
  - destruct (deserializeOutgoingPayment v _) as [r| |] eqn:De;
      try discriminate.
    simpl in H.
    destruct (serializeOutgoingPayment r _) as [w| |] eqn:En; try discriminate.
    simpl in H. destruct (put_check k w) as [[]| |] eqn:C; try discriminate.
    injection H as <-. exists r, w. auto.
  - congruence.
  - destruct H as (r & w & -> & H2 & H3 & ->). simpl.
    rewrite H2. simpl. now rewrite H3.
  - congruence.
Qed.

Lemma rewritten_invoice (x y : bytes * entry) :
  rewritten true transcode_invoice x y <->
  reencoded deserializeInvoice serializeInvoice
    nodeAndEdgeUpdateIndexVersion invoiceWithChannelPointVersion x y.
Proof.
  destruct x as [k e], y as [k' e']. unfold rewritten, reencoded.
  simpl fst. simpl snd. unfold transcode_invoice.
  split; intros [Hk H]; (split; [assumption|]); destruct e as [v|b];
    simpl in *.
  - destruct (deserializeInvoice v _) as [r| |] eqn:De; try discriminate.
    simpl in H.
    destruct (serializeInvoice r _) as [w| |] eqn:En; try discriminate.
    simpl in H. destruct (put_check k w) as [[]| |] eqn:C; try discriminate.
    injection H as <-. exists r, w. auto.
  - congruence.
  - destruct H as (r & w & -> & H2 & H3 & ->). simpl.
    rewrite H2. simpl. now rewrite H3.
  - congruence.
Qed.

Lemma rewritten_event (x y : bytes * entry) :
  rewritten false transcode_event x y <-> retyped x y.
Proof.
  destruct x as [k e], y as [k' e']. unfold rewritten, retyped.
  simpl fst. simpl snd. unfold transcode_event.
  split; intros [Hk H]; (split; [assumption|]).
  - destruct e as [v|b]; simpl in H.
    + destruct (decodeForwardingEvent v _) as [ev| |] eqn:De;
        try discriminate.
      simpl in H.
      destruct (encodeForwardingEvent _ _) as [w| |] eqn:En;
        try discriminate.
      simpl in H. destruct (put_check k w) as [[]| |] eqn:C;
        try discriminate.
      injection H as <-. exists v, ev, w. auto.
    + destruct (decodeForwardingEvent [] _) as [ev| |]; try discriminate.
      simpl in H.
      destruct (encodeForwardingEvent _ _) as [w| |]; try discriminate.
      simpl in H. destruct (put_check k w) as [[]| |]; discriminate.
  - destruct H as (v & ev & w & -> & H1 & H2 & H3 & ->). simpl.
    rewrite H1. simpl. rewrite H2. simpl. now rewrite H3.
Qed.

Lemma Forall2_iff {A B} (R S : A -> B -> Prop) (l : list A) (l' : list B) :
  (forall a b, R a b <-> S a b) -> Forall2 R l l' -> Forall2 S l l'.
Proof.
  intros E H. induction H; constructor; auto. now apply E.
Qed.

Lemma migrateAddInvoiceWithChannelPoint_eq (tx : Tx) :
  migrateAddInvoiceWithChannelPoint tx =
  (scan_bucket paymentBucket paymentVisitor ;;
   scan_bucket invoiceBucket invoiceVisitor ;;
   ret tt) tx.
Proof.
  unfold migrateAddInvoiceWithChannelPoint, scan_bucket, Bucket, bind, ret.
  destruct (lookup paymentBucket tx) as [[v|b]|].
  - destruct (lookup invoiceBucket tx) as [[v'|b']|]; reflexivity.
  - destruct (ForEach [paymentBucket] (paymentVisitor [paymentBucket]) tx)
      as [[[]|e|] tx1]; try reflexivity.
    destruct (lookup invoiceBucket tx1) as [[v'|b']|]; reflexivity.
  - destruct (lookup invoiceBucket tx) as [[v'|b']|]; reflexivity.
Qed.

Lemma migrateAddTypeToForwardEvent_eq (tx : Tx) :
  migrateAddTypeToForwardEvent tx =
  scan_bucket forwardingLogBucket forwardEventVisitor tx.
Proof.
  unfold migrateAddTypeToForwardEvent, scan_bucket, Bucket, bind.
  destruct (lookup forwardingLogBucket tx) as [[v|b]|]; reflexivity.
Qed.

End Reencoding.

(** ** The migrations on an empty store *)

Lemma bind_Ok {A B} (m : M A) (f : A -> M B) (tx tx1 : Tx) (a : A) :
  m tx = (Ok a, tx1) -> bind m f tx = f a tx1.
Proof. unfold bind. now intros ->. Qed.

Lemma wrap_Ok {A} (msg : string) (m : M A) (tx tx1 : Tx) (a : A) :
  m tx = (Ok a, tx1) -> wrap msg m tx = (Ok a, tx1).
Proof. unfold wrap. now intros ->. Qed.

Lemma CreateBucketIfNotExists_run (b : handle) (name : bytes) (tx tx' : Tx) :
  update_bucket b (bucket_create name) tx = Ok tx' ->
  CreateBucketIfNotExists b name tx = (Ok (b ++ [name]), tx').
Proof.
  intros U. unfold CreateBucketIfNotExists, bind, modify. now rewrite U.
Qed.


Section EmptyStore.

Context {consts : Constants} {codecs : Codecs}.




End EmptyStore.

(** * The migrations meet their specification *)

Section Claims.

Context {consts : Constants} {codecs : Codecs}.

(** C5. An entry whose key length is not the width the scan expects (33
    bytes in the node bucket, 41 bytes in the edge bucket) makes the visitor
    return nil with the transaction as it was: nothing is read, decoded or
    written for it. *)
Theorem skip_on_foreign_keys (nodes index : handle) (k : bytes)
    (v : option bytes) (tx : Tx) :
  (length k <> 33%nat -> nodeVisitor index k v tx = (Ok tt, tx)) /\
  (length k <> 41%nat -> edgeVisitor nodes index k v tx = (Ok tt, tx)).
Proof.
  split; intros L.
  - now apply nodeVisitor_skip.
  - now apply edgeVisitor_skip.
Qed.

(** C1, as the code has it. The payment and the invoice visitor return nil
    on a nil value and leave the transaction as it was. The node and the
    edge visitor filter on the key length only: a nil value under a key of
    another length is skipped. The forwarding-log visitor has no filter: a
    nil value is handed to the decoder as an empty record, and the
    decoder's error is the visitor's. *)
Theorem nil_value_handling (nodes h : handle) (k : bytes) (tx : Tx) :
  paymentVisitor h k None tx = (Ok tt, tx) /\
  invoiceVisitor h k None tx = (Ok tt, tx) /\
  (length k <> 33%nat -> nodeVisitor h k None tx = (Ok tt, tx)) /\
  (length k <> 41%nat -> edgeVisitor nodes h k None tx = (Ok tt, tx)) /\
  forwardEventVisitor h k None tx = forwardEventVisitor h k (Some []) tx /\
  (forall e,
     decodeForwardingEvent [] (forwardEventWithType - 1) = Err e ->
     forwardEventVisitor h k None tx = (Err e, tx)).
Proof.
  repeat split.
  - now apply nodeVisitor_skip.
  - now apply edgeVisitor_skip.
  - intros e De. unfold forwardEventVisitor, bind, lift. simpl reader_bytes.
    now rewrite De.
Qed.

(** C9. On timestamps in the range of [uint64], the byte order of the
    8-byte big-endian encodings is the order of the timestamps; so two
    index keys in key order have their timestamps in order. *)
Theorem index_key_order (t1 t2 : Z) :
  0 <= t1 < 2 ^ 64 -> 0 <= t2 < 2 ^ 64 ->
  (t1 <= t2 -> bytes_compare (PutUint64 t1) (PutUint64 t2) <> Gt) /\
  (forall id1 id2,
     bytes_compare (PutUint64 t1 ++ id1) (PutUint64 t2 ++ id2) <> Gt ->
     t1 <= t2).
Proof.
  intros R1 R2. split.
  - intros L. rewrite PutUint64_compare by assumption.
    now apply Z.compare_le_iff.
  - intros id1 id2 H. rewrite bytes_compare_app in H by reflexivity.
    rewrite PutUint64_compare in H by assumption.
    destruct (Z.compare_spec t1 t2); [lia|lia|congruence].
Qed.

(** C2. After a successful run, every entry of the node bucket with a
    33-byte key is a leaf whose value has at least 8 bytes, and the node
    update index holds exactly one entry under the 41-byte key made of the
    first 8 bytes of that value and the node key; its value is empty. *)
Theorem node_update_index_complete (tx tx' N : bucket) (k : bytes)
    (e : entry) :
  nodeBucket <> edgeBucket ->
  (forall I, get_bucket [nodeBucket; nodeUpdateIndexBucket] tx = Some I ->
             sorted I = true) ->
  migrateNodeAndEdgeUpdateIndex tx = (Ok tt, tx') ->
  get_bucket [nodeBucket] tx = Some N ->
  In (k, e) N -> length k = 33%nat ->
  exists v I',
    e = Leaf v /\
    (8 <= length v)%nat /\
    length (firstn 8 v ++ k) = 41%nat /\
    get_bucket [nodeBucket; nodeUpdateIndexBucket] tx' = Some I' /\
    entries_with_key (firstn 8 v ++ k) I' = [(firstn 8 v ++ k, Leaf [])].
Proof.
  intros D S H G Hin L.
  destruct (node_index_after _ _ _ _ _ D H G Hin L) as
    (v & I' & -> & Lv & GI & Lk & SI).
  exists v, I'. split; [reflexivity|]. split; [assumption|]. split.
  - rewrite length_app, length_firstn, L. lia.
  - split; [assumption|]. apply sorted_lookup_unique; auto.
Qed.

(** C3. After a successful run, for every entry of the edge bucket with a
    41-byte key whose value decodes as an edge policy, the edge update
    index holds, with an empty value, the 16-byte key made of the policy's
    update time as 8 big-endian bytes and the last 8 bytes of the edge
    key. *)
Theorem edge_update_index_complete (tx tx' E N : bucket) (k : bytes)
    (e : entry) (p : ChannelEdgePolicy) :
  nodeBucket <> edgeBucket ->
  migrateNodeAndEdgeUpdateIndex tx = (Ok tt, tx') ->
  get_bucket [edgeBucket] tx = Some E ->
  In (k, e) E -> length k = 41%nat ->
  get_bucket [nodeBucket] tx' = Some N ->
  deserializeChanEdgePolicy (reader_bytes (entry_value e)) N = Ok p ->
  length (PutUint64 (uint64 (LastUpdate_Unix p)) ++ skipn 33 k) = 16%nat /\
  be_value (PutUint64 (uint64 (LastUpdate_Unix p)))
    = uint64 (LastUpdate_Unix p) /\
  length (skipn 33 k) = 8%nat /\
  exists I',
    get_bucket [edgeBucket; edgeUpdateIndexBucket] tx' = Some I' /\
    lookup (PutUint64 (uint64 (LastUpdate_Unix p)) ++ skipn 33 k) I'
      = Some (Leaf []).
Proof.
  intros D H G Hin L GN Dec.
  destruct (edge_index_after _ _ _ _ _ D H G Hin L) as
    (N0 & p0 & I' & GN0 & Dec0 & GI & Lk).
  rewrite GN in GN0. injection GN0 as <-.
  rewrite Dec in Dec0. injection Dec0 as <-.
  split; [|split; [|split]].
  - rewrite length_app, length_skipn, L. reflexivity.
  - apply be_value_PutUint64. unfold uint64.
    apply Z.mod_pos_bound. reflexivity.
  - rewrite length_skipn, L. reflexivity.
  - eauto.
Qed.

(** The edge visitor returns the decoder's error for an entry with a
    41-byte key, writing nothing; and a run over a store with such an
    entry in its edge bucket never returns nil. *)
Lemma edge_decode_failure_never_succeeds (k : bytes) (err : error) :
  length k = 41%nat ->
  (forall nodes index v tx0 N0,
     get_bucket nodes tx0 = Some N0 ->
     deserializeChanEdgePolicy (reader_bytes v) N0 = Err err ->
     edgeVisitor nodes index k v tx0 = (Err err, tx0)) /\
  (forall tx tx' E N r e,
     nodeBucket <> edgeBucket ->
     migrateNodeAndEdgeUpdateIndex tx = (r, tx') ->
     get_bucket [edgeBucket] tx = Some E ->
     In (k, e) E ->
     get_bucket [nodeBucket] tx' = Some N ->
     deserializeChanEdgePolicy (reader_bytes (entry_value e)) N = Err err ->
     r <> Ok tt).
Proof.
  intros L. split.
  - intros nodes index v tx0 N0 G Dec.
    rewrite edgeVisitor_eq by assumption. now rewrite G, Dec.
  - intros tx tx' E N r e D H G Hin GN Dec. intros ->.
    destruct (edge_index_after _ _ _ _ _ D H G Hin L) as
      (N0 & p0 & I' & GN0 & Dec0 & _).
    congruence.
Qed.

Lemma two_scans (v1 v2 : handle -> bytes -> option bytes -> M unit)
    (n1 n2 : bytes) (tx tx1 tx2 : Tx) (r2 : result unit) :
  scan_bucket n1 v1 tx = (Ok tt, tx1) ->
  scan_bucket n2 v2 tx1 = (r2, tx2) ->
  (scan_bucket n1 v1 ;; scan_bucket n2 v2 ;; ret tt) tx = (r2, tx2).
Proof.
  intros S1 S2. unfold bind. rewrite S1, S2. now destruct r2 as [[]| |].
Qed.

Lemma reencode_fails_payment (k v : bytes) (err : error) :
  reencode_fails deserializeOutgoingPayment serializeOutgoingPayment
    nodeAndEdgeUpdateIndexVersion invoiceWithChannelPointVersion v err ->
  rewrite_entry true transcode_payment k (Leaf v) = Err err.
Proof.
  unfold transcode_payment. simpl.
  intros [->|(r & -> & H)]; [reflexivity|]. simpl. now rewrite H.
Qed.

Lemma reencode_fails_invoice (k v : bytes) (err : error) :
  reencode_fails deserializeInvoice serializeInvoice
    nodeAndEdgeUpdateIndexVersion invoiceWithChannelPointVersion v err ->
  rewrite_entry true transcode_invoice k (Leaf v) = Err err.
Proof.
  unfold transcode_invoice. simpl.
  intros [->|(r & -> & H)]; [reflexivity|]. simpl. now rewrite H.
Qed.

(** C6. In a successful run, the payment bucket and the invoice bucket are
    each rewritten entry by entry under the same keys: a leaf holds the
    encoding at the new version of what its old value decodes to at the
    prior version, and an entry with a nil value (a nested bucket) is as it
    was, its visitor returning nil without a write. Neither scan depends on
    the other bucket. When every leaf of both buckets re-encodes, the run
    succeeds. *)
Theorem reencode_payments_and_invoices (tx : Tx) :
  paymentBucket <> invoiceBucket ->
  (forall tx', migrateAddInvoiceWithChannelPoint tx = (Ok tt, tx') ->
     (forall P, lookup paymentBucket tx = Some (Nested P) ->
        sorted P = true ->
        exists P',
          lookup paymentBucket tx' = Some (Nested P') /\
          Forall2
            (reencoded deserializeOutgoingPayment serializeOutgoingPayment
               nodeAndEdgeUpdateIndexVersion invoiceWithChannelPointVersion)
            P P') /\
     (forall I, lookup invoiceBucket tx = Some (Nested I) ->
        sorted I = true ->
        exists I',
          lookup invoiceBucket tx' = Some (Nested I') /\
          Forall2
            (reencoded deserializeInvoice serializeInvoice
               nodeAndEdgeUpdateIndexVersion invoiceWithChannelPointVersion)
            I I')) /\
  (forall h k t,
     paymentVisitor h k None t = (Ok tt, t) /\
     invoiceVisitor h k None t = (Ok tt, t)) /\
  (forall P P' I I',
     lookup paymentBucket tx = Some (Nested P) -> sorted P = true ->
     lookup invoiceBucket tx = Some (Nested I) -> sorted I = true ->
     Forall2
       (reencoded deserializeOutgoingPayment serializeOutgoingPayment
          nodeAndEdgeUpdateIndexVersion invoiceWithChannelPointVersion)
       P P' ->
     Forall2
       (reencoded deserializeInvoice serializeInvoice
          nodeAndEdgeUpdateIndexVersion invoiceWithChannelPointVersion)
       I I' ->
     exists tx',
       migrateAddInvoiceWithChannelPoint tx = (Ok tt, tx') /\
       lookup paymentBucket tx' = Some (Nested P') /\
       lookup invoiceBucket tx' = Some (Nested I')).
Proof.
  intros D.
  destruct (scan_bucket_rewrite true transcode_payment paymentVisitor
              paymentBucket tx paymentVisitor_rewrite) as
    (r1 & tx1 & S1 & F1 & _ & R1).
  destruct (scan_bucket_rewrite true transcode_invoice invoiceVisitor
              invoiceBucket tx1 invoiceVisitor_rewrite) as
    (r2 & tx2 & S2 & F2 & _ & R2).
  assert (D' : invoiceBucket <> paymentBucket) by congruence.
  split; [|split].
  - intros tx' H. rewrite migrateAddInvoiceWithChannelPoint_eq in H.
    unfold bind in H. rewrite S1 in H.
    destruct r1 as [[]|e1|]; try discriminate. rewrite S2 in H.
    destruct r2 as [[]|e2|]; try discriminate. injection H as <-.
    split.
    + intros P LP SP. destruct (R1 _ LP SP) as [E1 L1].
      exists (snd (rewrite_entries true transcode_payment P)). split.
      * rewrite <- L1. now apply F2.
      * eapply Forall2_iff; [apply rewritten_payment|].
        apply rewrite_entries_ok. now rewrite <- E1.
    + intros I LI SI. rewrite <- (F1 _ D') in LI.
      destruct (R2 _ LI SI) as [E2 L2].
      exists (snd (rewrite_entries true transcode_invoice I)). split.
      * assumption.
      * eapply Forall2_iff; [apply rewritten_invoice|].
        apply rewrite_entries_ok. now rewrite <- E2.
  - intros h k t. split; reflexivity.
  - intros P P' I I' LP SP LI SI HP HI.
    destruct (R1 _ LP SP) as [E1 L1].
    rewrite <- (F1 _ D') in LI. destruct (R2 _ LI SI) as [E2 L2].
    eapply Forall2_iff in HP; [|intros a b; symmetry; apply rewritten_payment].
    eapply Forall2_iff in HI; [|intros a b; symmetry; apply rewritten_invoice].
    apply rewrite_entries_all in HP, HI.
    rewrite HP in E1, L1. rewrite HI in E2, L2. simpl in E1, L1, E2, L2.
    subst r1 r2. exists tx2. split; [|split].
    + rewrite migrateAddInvoiceWithChannelPoint_eq.
      now apply two_scans with (tx1 := tx1).
    + rewrite <- L1. now apply F2.
    + assumption.
Qed.

(** C7. When the re-encoding of a payment fails, at the decoder or at the
    encoder, and the entries before it re-encode, the run returns that very
    error; the entries before are rewritten, the failing entry and all
    entries after it are as they were, and so is the rest of the store. The
    same holds for an invoice once the payment scan has passed. *)
Theorem reencode_aborts_on_failure (tx : Tx) (pre pre' post : bucket)
    (k v : bytes) (err : error) :
  (lookup paymentBucket tx = Some (Nested (pre ++ (k, Leaf v) :: post)) ->
   sorted (pre ++ (k, Leaf v) :: post) = true ->
   Forall2
     (reencoded deserializeOutgoingPayment serializeOutgoingPayment
        nodeAndEdgeUpdateIndexVersion invoiceWithChannelPointVersion)
     pre pre' ->
   reencode_fails deserializeOutgoingPayment serializeOutgoingPayment
     nodeAndEdgeUpdateIndexVersion invoiceWithChannelPointVersion v err ->
   exists tx',
     migrateAddInvoiceWithChannelPoint tx = (Err err, tx') /\
     lookup paymentBucket tx' = Some (Nested (pre' ++ (k, Leaf v) :: post)) /\
     (forall m, m <> paymentBucket -> lookup m tx' = lookup m tx)) /\
  (paymentBucket <> invoiceBucket ->
   (no_bucket paymentBucket tx \/
    exists P P',
      lookup paymentBucket tx = Some (Nested P) /\ sorted P = true /\
      Forall2
        (reencoded deserializeOutgoingPayment serializeOutgoingPayment
           nodeAndEdgeUpdateIndexVersion invoiceWithChannelPointVersion)
        P P') ->
   lookup invoiceBucket tx = Some (Nested (pre ++ (k, Leaf v) :: post)) ->
   sorted (pre ++ (k, Leaf v) :: post) = true ->
   Forall2
     (reencoded deserializeInvoice serializeInvoice
        nodeAndEdgeUpdateIndexVersion invoiceWithChannelPointVersion)
     pre pre' ->
   reencode_fails deserializeInvoice serializeInvoice
     nodeAndEdgeUpdateIndexVersion invoiceWithChannelPointVersion v err ->
   exists tx',
     migrateAddInvoiceWithChannelPoint tx = (Err err, tx') /\
     lookup invoiceBucket tx' = Some (Nested (pre' ++ (k, Leaf v) :: post))).
Proof.
  destruct (scan_bucket_rewrite true transcode_payment paymentVisitor
              paymentBucket tx paymentVisitor_rewrite) as
    (r1 & tx1 & S1 & F1 & N1 & R1).
  destruct (scan_bucket_rewrite true transcode_invoice invoiceVisitor
              invoiceBucket tx1 invoiceVisitor_rewrite) as
    (r2 & tx2 & S2 & F2 & _ & R2).
  split.
  - intros L S HP Hf.
    destruct (R1 _ L S) as [E1 L1].
    eapply Forall2_iff in HP; [|intros a b; symmetry; apply rewritten_payment].
    rewrite (rewrite_entries_stop _ _ _ _ post _ _ _ HP
               (reencode_fails_payment k v err Hf)) in E1, L1.
    simpl in E1, L1. subst r1. exists tx1. split; [|auto].
    rewrite migrateAddInvoiceWithChannelPoint_eq. unfold bind.
    now rewrite S1.
  - intros D Pay L S HI Hf.
    assert (D' : invoiceBucket <> paymentBucket) by congruence.
    assert (r1 = Ok tt) as ->.
    { destruct Pay as [Hn|(P & P' & LP & SP & HP)].
      - now destruct (N1 Hn).
      - destruct (R1 _ LP SP) as [E1 _].
        eapply Forall2_iff in HP;
          [|intros a b; symmetry; apply rewritten_payment].
        apply rewrite_entries_all in HP. now rewrite HP in E1. }
    rewrite <- (F1 _ D') in L. destruct (R2 _ L S) as [E2 L2].
    eapply Forall2_iff in HI; [|intros a b; symmetry; apply rewritten_invoice].
    rewrite (rewrite_entries_stop _ _ _ _ post _ _ _ HI
               (reencode_fails_invoice k v err Hf)) in E2, L2.
    simpl in E2, L2. subst r2. exists tx2. split; [|assumption].
    rewrite migrateAddInvoiceWithChannelPoint_eq.
    now apply two_scans with (tx1 := tx1).
Qed.

(** C8. When the forwarding log bucket does not exist, the run returns nil
    and the transaction is as it was. When it exists, a successful run has
    visited every entry and skipped none: each entry is a leaf whose value
    decodes at the prior version, and the bucket holds under the same key
    the encoding at the new version of that event with its type set to
    [SuccessForward]; the rest of the store is as it was. When every entry
    re-encodes so, the run succeeds. *)
Theorem forward_events_retyped (tx : Tx) :
  (no_bucket forwardingLogBucket tx ->
   migrateAddTypeToForwardEvent tx = (Ok tt, tx)) /\
  (forall L tx',
     lookup forwardingLogBucket tx = Some (Nested L) -> sorted L = true ->
     migrateAddTypeToForwardEvent tx = (Ok tt, tx') ->
     exists L',
       lookup forwardingLogBucket tx' = Some (Nested L') /\
       Forall2 retyped L L' /\
       (forall m, m <> forwardingLogBucket -> lookup m tx' = lookup m tx)) /\
  (forall L L',
     lookup forwardingLogBucket tx = Some (Nested L) -> sorted L = true ->
     Forall2 retyped L L' ->
     exists tx',
       migrateAddTypeToForwardEvent tx = (Ok tt, tx') /\
       lookup forwardingLogBucket tx' = Some (Nested L')).
Proof.
  destruct (scan_bucket_rewrite false transcode_event forwardEventVisitor
              forwardingLogBucket tx forwardEventVisitor_rewrite) as
    (r & tx1 & S & F & N & R).
  rewrite migrateAddTypeToForwardEvent_eq, S.
  split; [|split].
  - intros Hn. destruct (N Hn) as [-> ->]. reflexivity.
  - intros L tx' LL SL [= -> <-].
    destruct (R _ LL SL) as [E L1].
    exists (snd (rewrite_entries false transcode_event L)).
    split; [assumption|]. split; [|assumption].
    eapply Forall2_iff; [apply rewritten_event|].
    apply rewrite_entries_ok. now rewrite <- E.
  - intros L L' LL SL HL.
    destruct (R _ LL SL) as [E L1].
    eapply Forall2_iff in HL; [|intros a b; symmetry; apply rewritten_event].
    apply rewrite_entries_all in HL. rewrite HL in E, L1. simpl in E, L1.
    subst r. eauto.
Qed.


End Claims.

(** * Further properties of the migrations *)

Lemma preserves_bind_val {A B} (P : Tx -> Prop) (Q : A -> Prop)
    (m : M A) (f : A -> M B) :
  (forall tx a tx', m tx = (Ok a, tx') -> Q a) ->
  preserves P m -> (forall a, Q a -> preserves P (f a)) ->
  preserves P (bind m f).
Proof.
  intros HQ Hm Hf tx r tx' H HP.
  destruct (bind_inv _ _ _ _ _ H) as
    [(a & tx1 & H1 & H2)|[(e & H1 & _)|(H1 & _)]].
  - eapply Hf; eauto.
  - eapply Hm; eauto.
  - eapply Hm; eauto.
Qed.

Lemma preserves_Create (P : Tx -> Prop) (b : handle) (name : bytes) :
  (forall tx tx', update_bucket b (bucket_create name) tx = Ok tx' ->
                  P tx -> P tx') ->
  preserves P (CreateBucketIfNotExists b name).
Proof.
  intros H. unfold CreateBucketIfNotExists. apply preserves_bind.
  - now apply preserves_modify.
  - intros _. apply preserves_ret.
Qed.

Lemma wrap_Create_value (msg : string) (b : handle) (name : bytes)
    (tx tx' : Tx) (h : handle) :
  wrap msg (CreateBucketIfNotExists b name) tx = (Ok h, tx') ->
  h = b ++ [name].
Proof.
  intros H. apply wrap_ok, CreateBucketIfNotExists_ok in H. tauto.
Qed.

Lemma update_bucket_cons (n : bytes) (h : handle)
    (f : bucket -> result bucket) (tx tx' : bucket) :
  update_bucket (n :: h) f tx = Ok tx' ->
  exists c c',
    lookup n tx = Some (Nested c) /\ update_bucket h f c = Ok c' /\
    tx' = insert n (Nested c') tx.
Proof.
  simpl. destruct (lookup n tx) as [[?|c]|]; try discriminate.
  destruct (update_bucket h f c) as [c'| |] eqn:U; try discriminate.
  intros [= <-]. exists c, c'. auto.
Qed.

Section IndexMigration.

Context {consts : Constants} {codecs : Codecs}.

(** Whatever each primitive step of [migrateNodeAndEdgeUpdateIndex] keeps,
    the migration keeps. *)
Lemma preserves_migrateNodeAndEdgeUpdateIndex (P : Tx -> Prop) :
  (forall name tx tx',
     name = nodeBucket \/ name = edgeBucket ->
     bucket_create name tx = Ok tx' -> P tx -> P tx') ->
  (forall n name tx tx',
     (n = nodeBucket /\ name = nodeUpdateIndexBucket) \/
     (n = edgeBucket /\ name = edgeUpdateIndexBucket) ->
     update_bucket [n] (bucket_create name) tx = Ok tx' -> P tx -> P tx') ->
  (forall n name key val tx tx',
     (n = nodeBucket /\ name = nodeUpdateIndexBucket) \/
     (n = edgeBucket /\ name = edgeUpdateIndexBucket) ->
     update_bucket [n; name] (bucket_put key val) tx = Ok tx' ->
     P tx -> P tx') ->
  preserves P migrateNodeAndEdgeUpdateIndex.
Proof.
  intros Hroot Hsub Hput. unfold migrateNodeAndEdgeUpdateIndex.
  apply preserves_bind_val with (Q := fun a => a = [nodeBucket]).
  { intros tx a tx' H. now apply wrap_Create_value in H. }
  { apply preserves_wrap, preserves_Create. simpl. eauto. }
  intros nodes ->.
  apply preserves_bind_val
    with (Q := fun a => a = [nodeBucket; nodeUpdateIndexBucket]).
  { intros tx a tx' H. now apply wrap_Create_value in H. }
  { apply preserves_wrap, preserves_Create. eauto. }
  intros index ->.
  apply preserves_bind.
  { apply preserves_wrap, preserves_ForEach, preserves_nodeVisitor.
    intros key val. apply preserves_modify. intros tx tx' U. eauto. }
  intros _.
  apply preserves_bind_val with (Q := fun a => a = [edgeBucket]).
  { intros tx a tx' H. now apply wrap_Create_value in H. }
  { apply preserves_wrap, preserves_Create. simpl. eauto. }
  intros edges ->.
  apply preserves_bind_val
    with (Q := fun a => a = [edgeBucket; edgeUpdateIndexBucket]).
  { intros tx a tx' H. now apply wrap_Create_value in H. }
  { apply preserves_wrap, preserves_Create. eauto. }
  intros eindex ->.
  apply preserves_bind.
  { apply preserves_wrap, preserves_ForEach, preserves_edgeVisitor.
    intros key val. apply preserves_modify. intros tx tx' U. eauto. }
  intros _. apply preserves_ret.
Qed.

(** X1. Whatever its outcome, the run leaves every entry of the root other
    than the node bucket and the edge bucket as it was. *)
Theorem index_migration_frame (tx tx' : Tx) (r : result unit) (m : bytes) :
  migrateNodeAndEdgeUpdateIndex tx = (r, tx') ->
  m <> nodeBucket -> m <> edgeBucket ->
  lookup m tx' = lookup m tx.
Proof.
  intros H Nn Ne.
  apply (preserves_migrateNodeAndEdgeUpdateIndex
           (fun t => lookup m t = lookup m tx)) with (r := r) (tx := tx);
    try assumption; try reflexivity.
  - intros name t t' Hn U <-.
    destruct (bucket_create_spec _ _ _ U) as (_ & F & _).
    apply F. destruct Hn; congruence.
  - intros n name t t' Hn U <-.
    eapply update_bucket_frame; eauto. destruct Hn as [[-> _]|[-> _]]; auto.
  - intros n name key val t t' Hn U <-.
    eapply update_bucket_frame; eauto. destruct Hn as [[-> _]|[-> _]]; auto.
Qed.

Lemma records_kept_root (n i name : bytes) (X tx tx' : bucket) :
  bucket_create name tx = Ok tx' ->
  records_kept n i X tx -> records_kept n i X tx'.
Proof.
  intros U (X' & G & K). exists X'. split; [|assumption].
  destruct (bytes_eq_dec name n) as [->|N].
  - simpl in G. destruct (lookup n tx) as [[?|x]|] eqn:L; try discriminate.
    rewrite (bucket_create_exists _ _ _ _ L U). simpl. now rewrite L.
  - destruct (bucket_create_spec _ _ _ U) as (_ & F & _).
    rewrite <- G. apply get_bucket_lookup. apply F. congruence.
Qed.

Lemma records_kept_other (n i n' : bytes) (h : handle)
    (f : bucket -> result bucket) (X tx tx' : bucket) :
  update_bucket (n' :: h) f tx = Ok tx' -> n <> n' ->
  records_kept n i X tx -> records_kept n i X tx'.
Proof.
  intros U N (X' & G & K). exists X'. split; [|assumption].
  rewrite <- G. apply get_bucket_lookup.
  eapply update_bucket_frame; eauto.
Qed.

Lemma records_kept_below (n i : bytes) (h : handle)
    (f : bucket -> result bucket) (X tx tx' : bucket) :
  update_bucket (n :: i :: h) f tx = Ok tx' ->
  records_kept n i X tx -> records_kept n i X tx'.
Proof.
  intros U (X' & G & K).
  destruct (update_bucket_cons _ _ _ _ _ U) as (c & c' & L & U' & ->).
  simpl in G. rewrite L in G. injection G as <-.
  exists c'. split.
  - simpl. now rewrite lookup_insert_eq.
  - intros k Nk. rewrite <- (K k Nk).
    eapply update_bucket_frame; eauto.
Qed.

Lemma records_kept_create (n i : bytes) (X tx tx' : bucket) :
  update_bucket [n] (bucket_create i) tx = Ok tx' ->
  records_kept n i X tx -> records_kept n i X tx'.
Proof.
  intros U (X' & G & K).
  destruct (update_bucket_get _ _ _ _ U) as (c & c' & Gc & F & G').
  rewrite G in Gc. injection Gc as <-.
  destruct (bucket_create_spec _ _ _ F) as (_ & Fr & _).
  exists c'. split; [assumption|].
  intros k Nk. rewrite <- (K k Nk). now apply Fr.
Qed.

(** X2. Whatever its outcome, the run writes no node record and no edge
    record: the node bucket keeps every entry but the one of its index, and
    so does the edge bucket. *)
Theorem index_migration_keeps_records (tx tx' : Tx) (r : result unit) :
  nodeBucket <> edgeBucket ->
  migrateNodeAndEdgeUpdateIndex tx = (r, tx') ->
  (forall N, get_bucket [nodeBucket] tx = Some N ->
     exists N',
       get_bucket [nodeBucket] tx' = Some N' /\
       forall k, k <> nodeUpdateIndexBucket -> lookup k N' = lookup k N) /\
  (forall E, get_bucket [edgeBucket] tx = Some E ->
     exists E',
       get_bucket [edgeBucket] tx' = Some E' /\
       forall k, k <> edgeUpdateIndexBucket -> lookup k E' = lookup k E).
Proof.
  intros D H.
  assert (D' : edgeBucket <> nodeBucket) by congruence.
  split.
  - intros N G.
    apply (preserves_migrateNodeAndEdgeUpdateIndex
             (records_kept nodeBucket nodeUpdateIndexBucket N))
      with (r := r) (tx := tx); try assumption.
    + intros name t t' _. apply records_kept_root.
    + intros n name t t' [[-> ->]|[-> ->]] U.
      * now apply records_kept_create.
      * now apply (records_kept_other _ _ _ _ _ _ _ _ U).
    + intros n name key val t t' [[-> ->]|[-> ->]] U.
      * now apply (records_kept_below _ _ _ _ _ _ _ U).
      * now apply (records_kept_other _ _ _ _ _ _ _ _ U).
    + exists N. auto.
  - intros E G.
    apply (preserves_migrateNodeAndEdgeUpdateIndex
             (records_kept edgeBucket edgeUpdateIndexBucket E))
      with (r := r) (tx := tx); try assumption.
    + intros name t t' _. apply records_kept_root.
    + intros n name t t' [[-> ->]|[-> ->]] U.
      * now apply (records_kept_other _ _ _ _ _ _ _ _ U).
      * now apply records_kept_create.
    + intros n name key val t t' [[-> ->]|[-> ->]] U.
      * now apply (records_kept_other _ _ _ _ _ _ _ _ U).
      * now apply (records_kept_below _ _ _ _ _ _ _ U).
    + exists E. auto.
Qed.

Lemma bind_err {A B} (m : M A) (f : A -> M B) (tx tx' : Tx) (e : error) :
  bind m f tx = (Err e, tx') ->
  m tx = (Err e, tx') \/
  exists a tx1, m tx = (Ok a, tx1) /\ f a tx1 = (Err e, tx').
Proof.
  intros H. destruct (bind_inv _ _ _ _ _ H) as
    [(a & tx1 & H1 & H2)|[(e' & H1 & [= ->])|(_ & ?)]];
    [right; eauto|left; assumption|discriminate].
Qed.

Lemma wrap_err {A} (msg : string) (m : M A) (tx tx' : Tx) (e : error) :
  wrap msg m tx = (Err e, tx') -> exists cause, e = Errorf msg cause.
Proof.
  intros H. destruct (wrap_inv _ _ _ _ _ H) as ([a|c|] & _ & R);
    [discriminate|injection R as ->; eauto|discriminate].
Qed.

(** X3. Every error the run returns is wrapped in one of the six messages
    of the function: no error of the store or of the edge-policy decoder
    comes out bare. *)
Theorem index_migration_errors_wrapped (tx tx' : Tx) (e : error) :
  migrateNodeAndEdgeUpdateIndex tx = (Err e, tx') ->
  exists msg cause,
    e = Errorf msg cause /\ In msg index_migration_messages.
Proof.
  unfold migrateNodeAndEdgeUpdateIndex, index_migration_messages. intros H.
  repeat
    (apply bind_err in H;
     destruct H as [H|(? & ? & _ & H)];
     [apply wrap_err in H; destruct H as [c ->];
      eexists; exists c; split; [reflexivity|simpl; tauto]|]).
  discriminate.
Qed.

(** X4. When the name of the node bucket holds a leaf value, or the node
    bucket holds a leaf value under the name of its index, the run returns
    bbolt's incompatible-value error under the message of that step, and
    has written nothing. *)
Theorem index_migration_create_errors (tx : Tx) :
  len nodeBucket <> 0 ->
  (forall v,
     lookup nodeBucket tx = Some (Leaf v) ->
     migrateNodeAndEdgeUpdateIndex tx
     = (Err (Errorf "unable to create node bucket: %v"
               ErrIncompatibleValue), tx)) /\
  (forall N v,
     len nodeUpdateIndexBucket <> 0 ->
     lookup nodeBucket tx = Some (Nested N) ->
     lookup nodeUpdateIndexBucket N = Some (Leaf v) ->
     migrateNodeAndEdgeUpdateIndex tx
     = (Err (Errorf "unable to create node update index: %v"
               ErrIncompatibleValue), tx)).
Proof.
  intros Ln. apply Z.eqb_neq in Ln. split.
  - intros v L.
    unfold migrateNodeAndEdgeUpdateIndex, bind at 1, wrap at 1.
    unfold CreateBucketIfNotExists, bind at 1, modify.
    simpl update_bucket. unfold bucket_create. now rewrite Ln, L.
  - intros N v Li L LN. apply Z.eqb_neq in Li.
    assert (S1 : CreateBucketIfNotExists [] nodeBucket tx
                 = (Ok [nodeBucket], tx)).
    { apply (CreateBucketIfNotExists_run [] nodeBucket).
      simpl. unfold bucket_create. now rewrite Ln, L. }
    unfold migrateNodeAndEdgeUpdateIndex.
    rewrite (bind_Ok _ _ _ _ _ (wrap_Ok _ _ _ _ _ S1)).
    unfold bind at 1, wrap at 1.
    unfold CreateBucketIfNotExists, bind at 1, modify.
    simpl update_bucket. rewrite L. unfold bucket_create.
    now rewrite Li, LN.
Qed.

Lemma In_insert_inv (x : bytes * entry) (k : bytes) (e : entry)
    (b : bucket) :
  In x (insert k e b) -> x = (k, e) \/ In x b.
Proof.
  induction b as [|[k' e'] b IH]; simpl.
  - intros [<-|[]]. auto.
  - destruct (bytes_compare k k'); simpl.
    + intros [<-|H]; auto.
    + intros [<-|[<-|H]]; auto.
    + intros [<-|H]; auto. destruct (IH H); auto.
Qed.

Lemma bucket_create_leaves (name : bytes) (c c' : bucket) (k v : bytes) :
  bucket_create name c = Ok c' -> In (k, Leaf v) c' -> In (k, Leaf v) c.
Proof.
  unfold bucket_create. destruct (len name =? 0); [discriminate|].
  destruct (lookup name c) as [[?|?]|]; try discriminate; intros [= <-];
    [auto|].
  intros H. apply In_insert_inv in H. destruct H as [[=]|H]; assumption.
Qed.

Lemma bucket_create_entries (name : bytes) (c c' : bucket) (k : bytes)
    (e : entry) :
  bucket_create name c = Ok c' -> In (k, e) c' ->
  In (k, e) c \/ (k = name /\ e = Nested []).
Proof.
  unfold bucket_create. destruct (len name =? 0); [discriminate|].
  destruct (lookup name c) as [[?|?]|]; try discriminate; intros [= <-];
    [auto|].
  intros H. apply In_insert_inv in H. destruct H as [[= -> ->]|H]; auto.
Qed.

(** The node scan adds to the index only keys of eligible entries. *)
Lemma visit_nodeVisitor_sound (h : handle) (es : bucket) :
  forall (tx tx' : Tx) (I : bucket),
    visit (nodeVisitor h) es tx = (Ok tt, tx') ->
    get_bucket h tx = Some I ->
    exists I',
      get_bucket h tx' = Some I' /\
      forall key e, lookup key I' = Some e ->
        lookup key I = Some e \/
        (e = Leaf [] /\
         exists k v, In (k, Leaf v) es /\ length k = 33%nat /\
                     (8 <= length v)%nat /\ key = firstn 8 v ++ k).
Proof.
  induction es as [|[k e] es IH]; simpl; intros tx tx' I H G.
  - injection H as <-. exists I. auto.
  - apply bind_ok in H. destruct H as ([] & tx1 & H1 & H2).
    destruct (Nat.eq_dec (length k) 33) as [L|L].
    + destruct (le_lt_dec 8 (length (reader_bytes (entry_value e))))
        as [S|S].
      * rewrite nodeVisitor_put in H1 by assumption.
        apply Put_ok in H1. destruct H1 as (_ & c & Gc & G1).
        rewrite G in Gc. injection Gc as <-.
        destruct (IH _ _ _ H2 G1) as (I' & G' & K').
        exists I'. split; [assumption|].
        intros key e0 Lk. destruct (K' _ _ Lk) as [Old|(-> & k0 & v & A)].
        -- destruct (bytes_eq_dec key
             (firstn 8 (reader_bytes (entry_value e)) ++ k)) as [->|N].
           ++ rewrite lookup_insert_eq in Old. injection Old as <-.
              right. split; [reflexivity|].
              destruct e as [v|b]; simpl in S; [|lia].
              exists k, v. simpl. auto.
           ++ rewrite lookup_insert_ne in Old by assumption. auto.
        -- right. split; [reflexivity|]. exists k0, v. tauto.
      * rewrite nodeVisitor_panic in H1 by assumption. discriminate.
    + rewrite nodeVisitor_skip in H1 by assumption. injection H1 as <-.
      destruct (IH _ _ _ H2 G) as (I' & G' & K').
      exists I'. split; [assumption|].
      intros key e0 Lk. destruct (K' _ _ Lk) as [Old|(-> & k0 & v & A)];
        [auto|].
      right. split; [reflexivity|]. exists k0, v. tauto.
Qed.

(** The edge scan adds to the index only keys of eligible entries. *)
Lemma visit_edgeVisitor_sound (nb eb : bytes) (q' q : handle)
    (es : bucket) :
  nb <> eb ->
  forall (tx tx' : Tx) (I : bucket),
    visit (edgeVisitor (nb :: q') (eb :: q)) es tx = (Ok tt, tx') ->
    get_bucket (eb :: q) tx = Some I ->
    exists I',
      get_bucket (eb :: q) tx' = Some I' /\
      forall key e, lookup key I' = Some e ->
        lookup key I = Some e \/
        (e = Leaf [] /\
         exists k e0 N p,
           In (k, e0) es /\ length k = 41%nat /\
           get_bucket (nb :: q') tx = Some N /\
           deserializeChanEdgePolicy (reader_bytes (entry_value e0)) N
             = Ok p /\
           key = PutUint64 (uint64 (LastUpdate_Unix p)) ++ skipn 33 k).
Proof.
  intros D. induction es as [|[k e] es IH]; simpl visit;
    intros tx tx' I H G.
  - injection H as <-. exists I. auto.
  - apply bind_ok in H. destruct H as ([] & tx1 & H1 & H2).
    destruct (Nat.eq_dec (length k) 41) as [L|L].
    + rewrite edgeVisitor_eq in H1 by assumption.
      destruct (get_bucket (nb :: q') tx) as [N|] eqn:GN; [|discriminate].
      destruct (deserializeChanEdgePolicy (reader_bytes (entry_value e)) N)
        as [p|err|] eqn:Dec; try discriminate.
      apply Put_ok in H1. destruct H1 as (U & c & Gc & G1).
      rewrite G in Gc. injection Gc as <-.
      pose proof (get_bucket_frame _ _ _ q' _ _ _ U D) as F.
      destruct (IH _ _ _ H2 G1) as (I' & G' & K').
      exists I'. split; [assumption|].
      intros key e0 Lk.
      destruct (K' _ _ Lk) as
        [Old|(-> & k0 & e1 & N0 & p0 & A1 & A2 & A3 & A4 & A5)].
      * destruct (bytes_eq_dec key
          (PutUint64 (uint64 (LastUpdate_Unix p)) ++ skipn 33 k))
          as [->|Nk].
        -- rewrite lookup_insert_eq in Old. injection Old as <-.
           right. split; [reflexivity|].
           exists k, e, N, p. simpl. auto.
        -- rewrite lookup_insert_ne in Old by assumption. auto.
      * right. split; [reflexivity|].
        exists k0, e1, N0, p0. simpl. repeat split; auto. congruence.
    + rewrite edgeVisitor_skip in H1 by assumption. injection H1 as <-.
      destruct (IH _ _ _ H2 G) as (I' & G' & K').
      exists I'. split; [assumption|].
      intros key e0 Lk.
      destruct (K' _ _ Lk) as
        [Old|(-> & k0 & e1 & N0 & p0 & A1 & A2 & A3 & A4 & A5)]; [auto|].
      right. split; [reflexivity|].
      exists k0, e1, N0, p0. simpl. auto.
Qed.

(** X5. After a successful run, the node update index holds nothing but
    what it held before and, with an empty value, the index keys of the
    node entries with a 33-byte key: an entry with a key of another length
    adds nothing to it. *)
Theorem node_update_index_sound (tx tx' I' : bucket) (key : bytes)
    (e : entry) :
  nodeBucket <> edgeBucket ->
  migrateNodeAndEdgeUpdateIndex tx = (Ok tt, tx') ->
  get_bucket [nodeBucket; nodeUpdateIndexBucket] tx' = Some I' ->
  lookup key I' = Some e ->
  (exists I,
     get_bucket [nodeBucket; nodeUpdateIndexBucket] tx = Some I /\
     lookup key I = Some e) \/
  (e = Leaf [] /\
   exists N k v,
     get_bucket [nodeBucket] tx = Some N /\ In (k, Leaf v) N /\
     length k = 33%nat /\ (8 <= length v)%nat /\ key = firstn 8 v ++ k).
Proof.
  intros D H GI' Lk.
  destruct (migrateNodeAndEdgeUpdateIndex_ok _ _ H) as
    (tx1 & tx2 & tx3 & tx4 & tx5 & N2 & E5 &
     U1 & U2 & G2 & V3 & U4 & U5 & G5 & V6).
  destruct (bucket_create_spec _ _ _ U1) as ((x & Lx & Old1) & _).
  assert (G1 : get_bucket [nodeBucket] tx1 = Some x)
    by (simpl; now rewrite Lx).
  destruct (update_bucket_get _ _ _ _ U2) as (c & N2' & Gc & F2 & G2').
  rewrite G1 in Gc. injection Gc as <-.
  rewrite G2 in G2'. injection G2' as <-.
  destruct (create_nested_spec _ _ _ _ _ U2 G1) as
    (c' & I2 & _ & GI2 & Old2 & _).
  destruct (visit_nodeVisitor_sound _ _ _ _ _ V3 GI2) as (I3 & GI3 & K3).
  assert (E3 : get_bucket [nodeBucket; nodeUpdateIndexBucket] tx'
               = get_bucket [nodeBucket; nodeUpdateIndexBucket] tx3).
  { apply get_bucket_lookup. eapply edge_stages_frame; eauto. }
  rewrite E3, GI3 in GI'. injection GI' as <-.
  destruct (K3 _ _ Lk) as [Old|(-> & k & v & Hin & L & Lv & ->)].
  - left. destruct Old2 as [GI1|[_ ->]]; [|discriminate].
    exists I2. split; [|assumption].
    destruct Old1 as [L0|[_ ->]].
    + rewrite <- GI1. simpl. now rewrite L0, Lx.
    + simpl in GI1. rewrite Lx in GI1. discriminate.
  - right. split; [reflexivity|].
    apply (bucket_create_leaves _ _ _ _ _ F2) in Hin.
    destruct Old1 as [L0|[_ ->]]; [|destruct Hin].
    exists x, k, v. simpl. rewrite L0. auto.
Qed.

(** X6. After a successful run, the edge update index holds nothing but
    what it held before and, with an empty value, the index keys of the
    edge entries with a 41-byte key, each made of the update time of the
    policy the entry decodes to and of the last 8 bytes of its key. *)
Theorem edge_update_index_sound (tx tx' I' : bucket) (key : bytes)
    (e : entry) :
  nodeBucket <> edgeBucket ->
  length edgeUpdateIndexBucket <> 41%nat ->
  migrateNodeAndEdgeUpdateIndex tx = (Ok tt, tx') ->
  get_bucket [edgeBucket; edgeUpdateIndexBucket] tx' = Some I' ->
  lookup key I' = Some e ->
  (exists I,
     get_bucket [edgeBucket; edgeUpdateIndexBucket] tx = Some I /\
     lookup key I = Some e) \/
  (e = Leaf [] /\
   exists E N k e0 p,
     get_bucket [edgeBucket] tx = Some E /\
     get_bucket [nodeBucket] tx' = Some N /\
     In (k, e0) E /\ length k = 41%nat /\
     deserializeChanEdgePolicy (reader_bytes (entry_value e0)) N = Ok p /\
     key = PutUint64 (uint64 (LastUpdate_Unix p)) ++ skipn 33 k).
Proof.
  intros D W H GI' Lk.
  destruct (migrateNodeAndEdgeUpdateIndex_ok _ _ H) as
    (tx1 & tx2 & tx3 & tx4 & tx5 & N2 & E5 &
     U1 & U2 & G2 & V3 & U4 & U5 & G5 & V6).
  assert (D' : edgeBucket <> nodeBucket) by congruence.
  pose proof (node_stages_frame _ _ _ _ _ _ U1 U2 V3 D') as F3.
  destruct (bucket_create_spec _ _ _ U4) as ((x & Lx & Old4) & _).
  assert (G4 : get_bucket [edgeBucket] tx4 = Some x)
    by (simpl; now rewrite Lx).
  destruct (update_bucket_get _ _ _ _ U5) as (c & E5' & Gc & F5 & G5').
  rewrite G4 in Gc. injection Gc as <-.
  rewrite G5 in G5'. injection G5' as <-.
  destruct (create_nested_spec _ _ _ _ _ U5 G4) as
    (c' & I5 & _ & GI5 & Old5 & _).
  destruct (visit_edgeVisitor_sound _ _ [] _ _ D _ _ _ V6 GI5) as
    (I6 & GI6 & K6).
  destruct (visit_edgeVisitor _ _ [] _ _ D _ _ _ V6 GI5) as (FN & _).
  rewrite GI6 in GI'. injection GI' as <-.
  destruct (K6 _ _ Lk) as
    [Old|(-> & k & e0 & N & p & Hin & L & GN & Dec & ->)].
  - left. destruct Old5 as [GI4|[_ ->]]; [|discriminate].
    exists I5. split; [|assumption].
    destruct Old4 as [L3|[_ ->]].
    + rewrite <- GI4. simpl. now rewrite <- F3, L3, Lx.
    + simpl in GI4. rewrite Lx in GI4. discriminate.
  - right. split; [reflexivity|].
    destruct (bucket_create_entries _ _ _ _ _ F5 Hin) as [Hin'|[-> ->]].
    + destruct Old4 as [L3|[_ ->]]; [|destruct Hin'].
      exists x, N, k, e0, p.
      split; [cbn [get_bucket]; now rewrite <- F3, L3|].
      split; [now rewrite FN|]. auto.
    + contradiction.
Qed.

End IndexMigration.

(** ** Index order and the conversion of the update time *)

Lemma uint64_range (x : Z) : 0 <= uint64 x < 2 ^ 64.
Proof. unfold uint64. apply Z.mod_pos_bound. reflexivity. Qed.

Lemma uint64_nonneg (x : Z) : 0 <= x < 2 ^ 63 -> uint64 x = x.
Proof.
  intros R. unfold uint64. apply Z.mod_small.
  change (2 ^ 63) with 9223372036854775808 in R.
  change (2 ^ 64) with 18446744073709551616. lia.
Qed.

Lemma uint64_neg (x : Z) : - 2 ^ 63 <= x < 0 -> uint64 x = x + 2 ^ 64.
Proof.
  intros R. unfold uint64. symmetry.
  apply Z.mod_unique with (q := -1).
  - left. change (2 ^ 63) with 9223372036854775808 in R.
    change (2 ^ 64) with 18446744073709551616. lia.
  - lia.
Qed.

(** X7. The edge index key starts with [uint64] of the signed update time,
    so key order is the order of the times only among times of one sign: a
    time before the epoch (negative) is filed after every time from the
    epoch on. *)
Theorem index_order_of_signed_times (t1 t2 : Z) :
  - 2 ^ 63 <= t1 < 2 ^ 63 -> - 2 ^ 63 <= t2 < 2 ^ 63 ->
  bytes_compare (PutUint64 (uint64 t1)) (PutUint64 (uint64 t2)) =
  if Bool.eqb (t1 <? 0) (t2 <? 0) then (t1 ?= t2) else (t2 ?= t1).
Proof.
  intros R1 R2.
  rewrite PutUint64_compare by apply uint64_range.
  change (2 ^ 63) with 9223372036854775808 in R1, R2.
  destruct (Z.ltb_spec t1 0) as [N1|P1], (Z.ltb_spec t2 0) as [N2|P2];
    simpl Bool.eqb; cbv iota.
  - rewrite !uint64_neg
      by (change (2 ^ 63) with 9223372036854775808; lia).
    destruct (Z.compare_spec t1 t2);
      [apply Z.compare_eq_iff|apply Z.compare_lt_iff|apply Z.compare_gt_iff];
      lia.
  - rewrite uint64_neg, uint64_nonneg
      by (change (2 ^ 63) with 9223372036854775808; lia).
    change (2 ^ 64) with 18446744073709551616.
    assert (G : (t2 ?= t1) = Gt) by (apply Z.compare_gt_iff; lia).
    rewrite G. apply Z.compare_gt_iff. lia.
  - rewrite uint64_nonneg, uint64_neg
      by (change (2 ^ 63) with 9223372036854775808; lia).
    change (2 ^ 64) with 18446744073709551616.
    assert (G : (t2 ?= t1) = Lt) by (apply Z.compare_lt_iff; lia).
    rewrite G. apply Z.compare_lt_iff. lia.
  - rewrite !uint64_nonneg
      by (change (2 ^ 63) with 9223372036854775808; lia).
    reflexivity.
Qed.

(** ** What the re-encoding scans keep *)

Lemma Forall2_same_shape_refl (es : bucket) : Forall2 same_shape es es.
Proof.
  induction es as [|[k e] es IH]; constructor; [|assumption].
  split; [reflexivity|]. destruct e; simpl; eauto.
Qed.

Lemma rewrite_entry_shape (skip_nil : bool) (tr : bytes -> result bytes)
    (k : bytes) (e e' : entry) :
  rewrite_entry skip_nil tr k e = Ok e' -> same_shape (k, e) (k, e').
Proof.
  intros H. split; [reflexivity|]. destruct e as [v|b]; simpl in *.
  - destruct (tr v) as [w| |]; try discriminate. simpl in H.
    destruct (put_check k w) as [[]| |]; try discriminate.
    injection H as <-. eauto.
  - destruct skip_nil; [congruence|].
    destruct (tr []) as [w| |]; try discriminate. simpl in H.
    destruct (put_check k w) as [[]| |]; discriminate.
Qed.

Lemma rewrite_entries_shape (skip_nil : bool) (tr : bytes -> result bytes)
    (es : bucket) :
  Forall2 same_shape es (snd (rewrite_entries skip_nil tr es)).
Proof.
  induction es as [|[k e] es IH]; simpl; [constructor|].
  destruct (rewrite_entry skip_nil tr k e) as [e'|x|] eqn:R.
  - destruct (rewrite_entries skip_nil tr es) as [r2 es2]. simpl in *.
    constructor; [|assumption]. eapply rewrite_entry_shape; eauto.
  - apply Forall2_same_shape_refl.
  - apply Forall2_same_shape_refl.
Qed.

Lemma Forall2_In_l {A B} (R : A -> B -> Prop) (l : list A) (l' : list B)
    (x : A) :
  Forall2 R l l' -> In x l -> exists y, In y l' /\ R x y.
Proof.
  induction 1 as [|a b l l' Hab _ IH]; simpl; [tauto|].
  intros [<-|H]; [eauto|]. destruct (IH H) as (y & ? & ?). eauto.
Qed.

Section ScanShape.

Context {consts : Constants} {codecs : Codecs}.

(** X8. Whatever its outcome, [migrateAddInvoiceWithChannelPoint] writes
    only values of leaves of the payment and invoice buckets: the other
    root entries are as they were, and in both buckets the keys, their
    order and the nested buckets are as they were. *)
Theorem invoice_migration_keeps_shape (tx tx' : Tx) (r : result unit) :
  migrateAddInvoiceWithChannelPoint tx = (r, tx') ->
  (forall m, m <> paymentBucket -> m <> invoiceBucket ->
             lookup m tx' = lookup m tx) /\
  (paymentBucket <> invoiceBucket ->
   (forall P, lookup paymentBucket tx = Some (Nested P) ->
      sorted P = true ->
      exists P',
        lookup paymentBucket tx' = Some (Nested P') /\
        Forall2 same_shape P P') /\
   (forall I, lookup invoiceBucket tx = Some (Nested I) ->
      sorted I = true ->
      exists I',
        lookup invoiceBucket tx' = Some (Nested I') /\
        Forall2 same_shape I I')).
Proof.
  intros H.
  destruct (scan_bucket_rewrite true transcode_payment paymentVisitor
              paymentBucket tx paymentVisitor_rewrite) as
    (r1 & tx1 & S1 & F1 & _ & R1).
  destruct (scan_bucket_rewrite true transcode_invoice invoiceVisitor
              invoiceBucket tx1 invoiceVisitor_rewrite) as
    (r2 & tx2 & S2 & F2 & _ & R2).
  rewrite migrateAddInvoiceWithChannelPoint_eq in H.
  unfold bind in H. rewrite S1 in H.
  assert (Cases : (r1 = Ok tt /\ tx' = tx2) \/ (r1 <> Ok tt /\ tx' = tx1)).
  { destruct r1 as [[]|e1|].
    - left. rewrite S2 in H. split; [reflexivity|].
      destruct r2 as [[]|e2|]; now injection H.
    - right. split; [discriminate|now injection H].
    - right. split; [discriminate|now injection H]. }
  split; [|intros D; split].
  - intros m Np Ni. destruct Cases as [[_ ->]|[_ ->]].
    + rewrite F2 by assumption. now apply F1.
    + now apply F1.
  - intros P LP SP. destruct (R1 _ LP SP) as [_ L1].
    exists (snd (rewrite_entries true transcode_payment P)).
    split; [|apply rewrite_entries_shape].
    destruct Cases as [[_ ->]|[_ ->]]; [|assumption].
    rewrite <- L1. now apply F2.
  - intros I LI SI.
    assert (D' : invoiceBucket <> paymentBucket) by congruence.
    rewrite <- (F1 _ D') in LI.
    destruct Cases as [[_ ->]|[_ ->]].
    + destruct (R2 _ LI SI) as [_ L2].
      exists (snd (rewrite_entries true transcode_invoice I)).
      split; [assumption|apply rewrite_entries_shape].
    + exists I. split; [assumption|apply Forall2_same_shape_refl].
Qed.

(** X9. Whatever its outcome, [migrateAddTypeToForwardEvent] writes only
    values of leaves of the forwarding log: the other root entries are as
    they were, and in the log the keys, their order and the nested buckets
    are as they were. *)
Theorem forward_migration_keeps_shape (tx tx' : Tx) (r : result unit) :
  migrateAddTypeToForwardEvent tx = (r, tx') ->
  (forall m, m <> forwardingLogBucket -> lookup m tx' = lookup m tx) /\
  (forall L, lookup forwardingLogBucket tx = Some (Nested L) ->
     sorted L = true ->
     exists L',
       lookup forwardingLogBucket tx' = Some (Nested L') /\
       Forall2 same_shape L L').
Proof.
  intros H.
  destruct (scan_bucket_rewrite false transcode_event forwardEventVisitor
              forwardingLogBucket tx forwardEventVisitor_rewrite) as
    (r1 & tx1 & S1 & F1 & _ & R1).
  rewrite migrateAddTypeToForwardEvent_eq, S1 in H. injection H as <- <-.
  split; [assumption|].
  intros L LL SL. destruct (R1 _ LL SL) as [_ L1].
  exists (snd (rewrite_entries false transcode_event L)).
  split; [assumption|apply rewrite_entries_shape].
Qed.

(** X10. The forwarding-log scan has no filter for nested buckets: a log
    that holds one never migrates successfully, and the run ends with the
    log's entry for it as it was. *)
Theorem forward_migration_rejects_nested (tx tx' : Tx) (r : result unit)
    (L b : bucket) (k : bytes) :
  lookup forwardingLogBucket tx = Some (Nested L) -> sorted L = true ->
  In (k, Nested b) L ->
  migrateAddTypeToForwardEvent tx = (r, tx') ->
  r <> Ok tt /\
  exists L',
    lookup forwardingLogBucket tx' = Some (Nested L') /\
    In (k, Nested b) L'.
Proof.
  intros LL SL Hin H.
  destruct (scan_bucket_rewrite false transcode_event forwardEventVisitor
              forwardingLogBucket tx forwardEventVisitor_rewrite) as
    (r1 & tx1 & S1 & _ & _ & R1).
  rewrite migrateAddTypeToForwardEvent_eq, S1 in H. injection H as <- <-.
  destruct (R1 _ LL SL) as [E L1]. split.
  - intros ->. symmetry in E. apply rewrite_entries_ok in E.
    destruct (Forall2_In_l _ _ _ _ E Hin) as ([k' e'] & _ & _ & Hr).
    simpl in Hr.
    destruct (transcode_event []) as [w| |]; try discriminate. simpl in Hr.
    destruct (put_check k w) as [[]| |]; discriminate.
  - exists (snd (rewrite_entries false transcode_event L)).
    split; [assumption|].
    destruct (Forall2_In_l _ _ _ _
                (rewrite_entries_shape false transcode_event L) Hin)
      as ([k' e'] & Hin' & Hk & He).
    simpl in Hk, He. now subst.
Qed.

End ScanShape.

(** ** Running the index migration on an indexed store *)

Lemma lookup_above (k : bytes) (b : bucket) :
  all_above k (map fst b) -> lookup k b = None.
Proof.
  induction b as [|[k' e'] b IH]; simpl; intros A; [reflexivity|].
  inversion A as [|? ? L A']; subst.
  unfold bytes_eqb. rewrite L. auto.
Qed.

(** Writing to a sorted bucket what it holds leaves it as it is. *)
Lemma insert_same (k : bytes) (e : entry) (b : bucket) :
  sorted b = true -> lookup k b = Some e -> insert k e b = b.
Proof.
  unfold sorted. induction b as [|[k' e'] b IH]; simpl; [discriminate|].
  intros S. unfold bytes_eqb. destruct (bytes_compare k k') eqn:C.
  - apply bytes_compare_eq in C. subst k'. now intros [= ->].
  - intros L. exfalso.
    pose proof (sorted_keys_above _ _ S) as A.
    assert (A' : all_above k (map fst b)).
    { unfold all_above in *. eapply Forall_impl; [|exact A].
      intros a Ha. simpl in Ha. eapply bytes_compare_lt_trans; eauto. }
    rewrite (lookup_above _ _ A') in L. discriminate.
  - intros L. now rewrite (IH (sorted_keys_tail _ _ S) L).
Qed.

Lemma sorted_In_lookup (k : bytes) (e : entry) (b : bucket) :
  sorted b = true -> In (k, e) b -> lookup k b = Some e.
Proof.
  unfold sorted. induction b as [|[k' e'] b IH]; simpl; [tauto|].
  intros S [[= -> ->]|Hin].
  - now rewrite bytes_eqb_refl.
  - destruct (bytes_eqb k k') eqn:E.
    + apply bytes_eqb_eq in E. subst k'. exfalso.
      pose proof (sorted_keys_above _ _ S) as A.
      apply In_lookup in Hin. now rewrite (lookup_above _ _ A) in Hin.
    + apply IH; [exact (sorted_keys_tail _ _ S)|assumption].
Qed.

Lemma put_check_small (k : bytes) :
  (0 < length k <= 100)%nat -> put_check k [] = Ok tt.
Proof.
  intros R. unfold put_check, len, MaxKeySize.
  destruct (Z.eqb_spec (Z.of_nat (length k)) 0) as [E|_]; [lia|].
  destruct (Z.ltb_spec 32768 (Z.of_nat (length k))) as [E|_]; [lia|].
  reflexivity.
Qed.

(** A [Put] of an empty value under a key the index holds with an empty
    value changes nothing in a sorted store. *)
Lemma Put_index_noop (n i key : bytes) (tx N I : bucket) :
  sorted tx = true -> lookup n tx = Some (Nested N) ->
  sorted N = true -> lookup i N = Some (Nested I) ->
  sorted I = true -> lookup key I = Some (Leaf []) ->
  (0 < length key <= 100)%nat ->
  Put [n; i] key None tx = (Ok tt, tx).
Proof.
  intros St Ln SN Li SI Lk R. unfold Put, modify.
  cbn [update_bucket]. rewrite Ln, Li.
  change (bucket_put key None) with (bucket_put key (Some [])).
  rewrite bucket_put_checked, (put_check_small _ R), Lk.
  cbn [and_then]. rewrite (insert_same _ _ _ SI Lk).
  rewrite (insert_same _ _ _ SN Li). now rewrite (insert_same _ _ _ St Ln).
Qed.



Lemma visit_nodeVisitor_noop (n i : bytes) (tx N I : bucket) :
  sorted tx = true -> lookup n tx = Some (Nested N) ->
  sorted N = true -> lookup i N = Some (Nested I) ->
  sorted I = true ->
  forall es,
    (forall k e, In (k, e) es -> length k = 33%nat ->
       exists v, e = Leaf v /\ (8 <= length v)%nat /\
                 lookup (firstn 8 v ++ k) I = Some (Leaf [])) ->
    visit (nodeVisitor [n; i]) es tx = (Ok tt, tx).
Proof.
  intros St Ln SN Li SI.
  induction es as [|[k e] es IH]; intros H; [reflexivity|].
  simpl visit. unfold bind.
  assert (V : nodeVisitor [n; i] k (entry_value e) tx = (Ok tt, tx)).
  { destruct (Nat.eq_dec (length k) 33) as [L|L].
    - destruct (H k e (or_introl eq_refl) L) as (v & -> & Lv & Lk).
      rewrite nodeVisitor_put by assumption.
      eapply Put_index_noop; eauto.
      simpl reader_bytes. rewrite length_app, length_firstn, L. lia.
    - now apply nodeVisitor_skip. }
  rewrite V. apply IH. intros k0 e0 Hin. apply H. now right.
Qed.

Section IndexedStore.

Context {consts : Constants} {codecs : Codecs}.

Lemma visit_edgeVisitor_noop (nb n i : bytes) (tx Nb N I : bucket) :
  lookup nb tx = Some (Nested Nb) ->
  sorted tx = true -> lookup n tx = Some (Nested N) ->
  sorted N = true -> lookup i N = Some (Nested I) ->
  sorted I = true ->
  forall es,
    (forall k e, In (k, e) es -> length k = 41%nat ->
       exists p,
         deserializeChanEdgePolicy (reader_bytes (entry_value e)) Nb
           = Ok p /\
         lookup (PutUint64 (uint64 (LastUpdate_Unix p)) ++ skipn 33 k) I
           = Some (Leaf [])) ->
    visit (edgeVisitor [nb] [n; i]) es tx = (Ok tt, tx).
Proof.
  intros Lnb St Ln SN Li SI.
  induction es as [|[k e] es IH]; intros H; [reflexivity|].
  simpl visit. unfold bind.
  assert (V : edgeVisitor [nb] [n; i] k (entry_value e) tx = (Ok tt, tx)).
  { destruct (Nat.eq_dec (length k) 41) as [L|L].
    - destruct (H k e (or_introl eq_refl) L) as (p & Dec & Lk).
      rewrite edgeVisitor_eq by assumption.
      cbn [get_bucket]. rewrite Lnb, Dec.
      eapply Put_index_noop; eauto.
      rewrite length_app, length_skipn, L. simpl. lia.
    - now apply edgeVisitor_skip. }
  rewrite V. apply IH. intros k0 e0 Hin. apply H. now right.
Qed.

(** X11. On a store that holds the four buckets and whose indexes are
    complete, the run succeeds and changes nothing. *)
Theorem index_migration_fixpoint (tx : Tx) :
  len nodeBucket <> 0 -> len nodeUpdateIndexBucket <> 0 ->
  len edgeBucket <> 0 -> len edgeUpdateIndexBucket <> 0 ->
  indexed tx ->
  migrateNodeAndEdgeUpdateIndex tx = (Ok tt, tx).
Proof.
  intros Ln Lni Le Lei
    (N & I & E & EI & St & LN & SN & LI & SI & LE & SE & LEI & SEI & HN & HE).
  apply Z.eqb_neq in Ln, Lni, Le, Lei.
  assert (S1 : CreateBucketIfNotExists [] nodeBucket tx
               = (Ok [nodeBucket], tx)).
  { apply (CreateBucketIfNotExists_run [] nodeBucket).
    simpl. unfold bucket_create. now rewrite Ln, LN. }
  assert (S2 : CreateBucketIfNotExists [nodeBucket] nodeUpdateIndexBucket tx
               = (Ok [nodeBucket; nodeUpdateIndexBucket], tx)).
  { apply (CreateBucketIfNotExists_run [nodeBucket]).
    cbn [update_bucket]. rewrite LN. unfold bucket_create.
    rewrite Lni, LI. now rewrite (insert_same _ _ _ St LN). }
  assert (S3 : ForEach [nodeBucket]
                 (nodeVisitor [nodeBucket; nodeUpdateIndexBucket]) tx
               = (Ok tt, tx)).
  { unfold ForEach, read_bucket, bind at 1. cbn [get_bucket]. rewrite LN.
    eapply visit_nodeVisitor_noop; eauto. }
  assert (S4 : CreateBucketIfNotExists [] edgeBucket tx
               = (Ok [edgeBucket], tx)).
  { apply (CreateBucketIfNotExists_run [] edgeBucket).
    simpl. unfold bucket_create. now rewrite Le, LE. }
  assert (S5 : CreateBucketIfNotExists [edgeBucket] edgeUpdateIndexBucket tx
               = (Ok [edgeBucket; edgeUpdateIndexBucket], tx)).
  { apply (CreateBucketIfNotExists_run [edgeBucket]).
    cbn [update_bucket]. rewrite LE. unfold bucket_create.
    rewrite Lei, LEI. now rewrite (insert_same _ _ _ St LE). }
  assert (S6 : ForEach [edgeBucket]
                 (edgeVisitor [nodeBucket]
                    [edgeBucket; edgeUpdateIndexBucket]) tx
               = (Ok tt, tx)).
  { unfold ForEach, read_bucket, bind at 1. cbn [get_bucket]. rewrite LE.
    eapply visit_edgeVisitor_noop; eauto. }
  unfold migrateNodeAndEdgeUpdateIndex.
  rewrite (bind_Ok _ _ _ _ _ (wrap_Ok _ _ _ _ _ S1)).
  rewrite (bind_Ok _ _ _ _ _ (wrap_Ok _ _ _ _ _ S2)).
  rewrite (bind_Ok _ _ _ _ _ (wrap_Ok _ _ _ _ _ S3)).
  rewrite (bind_Ok _ _ _ _ _ (wrap_Ok _ _ _ _ _ S4)).
  rewrite (bind_Ok _ _ _ _ _ (wrap_Ok _ _ _ _ _ S5)).
  rewrite (bind_Ok _ _ _ _ _ (wrap_Ok _ _ _ _ _ S6)).
  reflexivity.
Qed.

End IndexedStore.

(** ** Sortedness of every bucket is kept *)

Lemma bucket_put_keeps_sorted (key : bytes) (value : option bytes) :
  keeps_sorted (bucket_put key value).
Proof.
  intros c c' F S. pose proof (bucket_put_keeps_nested key value) as K.
  pose proof (bucket_put_ok _ _ _ _ F) as ->. split.
  - now apply sorted_insert.
  - intros n x L. left. destruct (bytes_eq_dec n key) as [->|N].
    + rewrite lookup_insert_eq in L. discriminate.
    + now rewrite lookup_insert_ne in L.
Qed.

Lemma bucket_create_keeps_sorted (name : bytes) :
  keeps_sorted (bucket_create name).
Proof.
  intros c c' F S. unfold bucket_create in F.
  destruct (len name =? 0); [discriminate|].
  destruct (lookup name c) as [[?|?]|] eqn:L; try discriminate;
    injection F as <-.
  - auto.
  - split; [now apply sorted_insert|].
    intros n x L'. destruct (bytes_eq_dec n name) as [->|N].
    + rewrite lookup_insert_eq in L'. injection L' as <-. auto.
    + rewrite lookup_insert_ne in L' by assumption. auto.
Qed.

Lemma all_sorted_nested (n : bytes) (tx c : bucket) :
  all_sorted tx -> lookup n tx = Some (Nested c) -> all_sorted c.
Proof.
  intros A L h d G. apply (A (n :: h)). simpl. now rewrite L.
Qed.

Lemma update_bucket_all_sorted (h : handle) (f : bucket -> result bucket) :
  keeps_sorted f ->
  forall tx tx',
    update_bucket h f tx = Ok tx' -> all_sorted tx -> all_sorted tx'.
Proof.
  intros K. induction h as [|n h IH]; intros tx tx' U A q c G.
  - simpl in U. destruct (K _ _ U (A [] tx eq_refl)) as [S Old].
    destruct q as [|m q]; [now injection G as <-|].
    simpl in G. destruct (lookup m tx') as [[?|x]|] eqn:L; try discriminate.
    destruct (Old _ _ L) as [L0| ->].
    + apply (A (m :: q)). simpl. now rewrite L0.
    + destruct q as [|m' q]; [now injection G as <-|discriminate].
  - destruct (update_bucket_cons _ _ _ _ _ U) as (d & d' & L & U' & ->).
    destruct q as [|m q].
    + injection G as <-. apply sorted_insert. now apply (A []).
    + simpl in G. destruct (bytes_eq_dec m n) as [->|N].
      * rewrite lookup_insert_eq in G.
        exact (IH _ _ U' (all_sorted_nested _ _ _ A L) q c G).
      * rewrite lookup_insert_ne in G by assumption. now apply (A (m :: q)).
Qed.

Lemma bucket_create_name (name : bytes) (c c' : bucket) :
  bucket_create name c = Ok c' -> len name <> 0.
Proof.
  unfold bucket_create. destruct (Z.eqb_spec (len name) 0); [discriminate|].
  auto.
Qed.

Lemma get_bucket_two (n i : bytes) (tx N I : bucket) :
  get_bucket [n] tx = Some N -> get_bucket [n; i] tx = Some I ->
  lookup n tx = Some (Nested N) /\ lookup i N = Some (Nested I).
Proof.
  simpl. destruct (lookup n tx) as [[?|c]|]; try discriminate.
  intros [= ->]. destruct (lookup i N) as [[?|d]|]; try discriminate.
  now intros [= ->].
Qed.

Section Idempotence.

Context {consts : Constants} {codecs : Codecs}.

Lemma index_migration_all_sorted (tx tx' : Tx) (r : result unit) :
  migrateNodeAndEdgeUpdateIndex tx = (r, tx') ->
  all_sorted tx -> all_sorted tx'.
Proof.
  intros H.
  apply (preserves_migrateNodeAndEdgeUpdateIndex all_sorted)
    with (r := r); try assumption.
  - intros name t t' _ U.
    exact (update_bucket_all_sorted [] _
             (bucket_create_keeps_sorted name) t t' U).
  - intros n name t t' _.
    apply update_bucket_all_sorted, bucket_create_keeps_sorted.
  - intros n name key val t t' _.
    apply update_bucket_all_sorted, bucket_put_keeps_sorted.
Qed.

(** A successful run on a sorted store leaves it indexed. *)
Lemma index_migration_indexes (tx tx' : Tx) :
  nodeBucket <> edgeBucket -> all_sorted tx ->
  migrateNodeAndEdgeUpdateIndex tx = (Ok tt, tx') ->
  indexed tx'.
Proof.
  intros D A H.
  pose proof (index_migration_all_sorted _ _ _ H A) as A'.
  destruct (migrateNodeAndEdgeUpdateIndex_ok _ _ H) as
    (tx1 & tx2 & tx3 & tx4 & tx5 & N2 & E5 &
     U1 & U2 & G2 & V3 & U4 & U5 & G5 & V6).
  assert (D' : edgeBucket <> nodeBucket) by congruence.
  (* the node bucket and its index after the node scan *)
  destruct (update_bucket_get _ _ _ _ U2) as (x & N2' & Gx & F2 & G2').
  rewrite G2 in G2'. injection G2' as <-.
  destruct (create_nested_spec _ _ _ _ _ U2 Gx) as
    (c' & I2 & Gc' & GI2 & _ & _).
  rewrite G2 in Gc'. injection Gc' as <-.
  destruct (get_bucket_two _ _ _ _ _ G2 GI2) as [_ LI2].
  destruct (visit_nodeVisitor _ _ _ _ _ V3 GI2) as (I3 & GI3 & _ & _ & C3).
  assert (K3 : records_kept nodeBucket nodeUpdateIndexBucket N2 tx3).
  { eapply (preserves_visit
              (records_kept nodeBucket nodeUpdateIndexBucket N2));
      [|exact V3|exists N2; auto].
    apply preserves_nodeVisitor. intros key val.
    apply preserves_modify. intros t t' U.
    now apply (records_kept_below _ _ _ _ _ _ _ U). }
  destruct K3 as (N3 & G3 & KN).
  destruct (get_bucket_two _ _ _ _ _ G3 GI3) as [L3 LI3].
  pose proof (edge_stages_frame _ _ _ _ _ _ U4 U5 V6 D) as Fn.
  (* the edge bucket and its index after the edge scan *)
  destruct (update_bucket_get _ _ _ _ U5) as (y & E5' & Gy & F5 & G5').
  rewrite G5 in G5'. injection G5' as <-.
  destruct (create_nested_spec _ _ _ _ _ U5 Gy) as
    (d' & I5 & Gd' & GI5 & _ & _).
  rewrite G5 in Gd'. injection Gd' as <-.
  destruct (get_bucket_two _ _ _ _ _ G5 GI5) as [_ LI5].
  destruct (visit_edgeVisitor _ _ [] _ _ D _ _ _ V6 GI5) as
    (FN & I6 & GI6 & _ & C6).
  assert (K6 : records_kept edgeBucket edgeUpdateIndexBucket E5 tx').
  { eapply (preserves_visit
              (records_kept edgeBucket edgeUpdateIndexBucket E5));
      [|exact V6|exists E5; auto].
    apply preserves_edgeVisitor. intros key val.
    apply preserves_modify. intros t t' U.
    now apply (records_kept_below _ _ _ _ _ _ _ U). }
  destruct K6 as (E6 & G6 & KE).
  destruct (get_bucket_two _ _ _ _ _ G6 GI6) as [L6 LI6].
  assert (Ln' : lookup nodeBucket tx' = Some (Nested N3))
    by (now rewrite Fn).
  assert (GN5 : get_bucket [nodeBucket] tx5 = Some N3).
  { rewrite <- FN. simpl. now rewrite Ln'. }
  assert (SN3 : sorted N3 = true).
  { apply (A' [nodeBucket]). simpl. now rewrite Ln'. }
  assert (SE6 : sorted E6 = true) by (now apply (A' [edgeBucket])).
  exists N3, I3, E6, I6.
  split; [now apply (A' [])|].
  split; [assumption|]. split; [assumption|].
  split; [assumption|].
  split.
  { apply (A' [nodeBucket; nodeUpdateIndexBucket]).
    simpl. now rewrite Ln', LI3. }
  split; [assumption|]. split; [assumption|].
  split; [assumption|].
  split; [now apply (A' [edgeBucket; edgeUpdateIndexBucket])|].
  split.
  - intros k e Hin L.
    pose proof (sorted_In_lookup _ _ _ SN3 Hin) as Lk.
    destruct (bytes_eq_dec k nodeUpdateIndexBucket) as [->|Nk].
    + apply lookup_In in LI2.
      destruct (C3 _ _ LI2 L) as (v & Hv & _). discriminate.
    + rewrite (KN _ Nk) in Lk. apply lookup_In in Lk.
      exact (C3 _ _ Lk L).
  - intros k e Hin L.
    pose proof (sorted_In_lookup _ _ _ SE6 Hin) as Lk.
    destruct (bytes_eq_dec k edgeUpdateIndexBucket) as [->|Nk].
    + rewrite LI6 in Lk. injection Lk as <-.
      apply lookup_In in LI5.
      destruct (C6 _ _ LI5 L) as (N & p & GN & Dec & Lp).
      rewrite GN5 in GN. injection GN as <-.
      exists p. auto.
    + rewrite (KE _ Nk) in Lk. apply lookup_In in Lk.
      destruct (C6 _ _ Lk L) as (N & p & GN & Dec & Lp).
      rewrite GN5 in GN. injection GN as <-.
      exists p. auto.
Qed.

(** X12. The index migration is idempotent on a sorted store: a second
    run on the result of a successful run succeeds and changes nothing. *)
Theorem index_migration_idempotent (tx tx' : Tx) :
  nodeBucket <> edgeBucket -> all_sorted tx ->
  migrateNodeAndEdgeUpdateIndex tx = (Ok tt, tx') ->
  migrateNodeAndEdgeUpdateIndex tx' = (Ok tt, tx').
Proof.
  intros D A H.
  destruct (migrateNodeAndEdgeUpdateIndex_ok _ _ H) as
    (tx1 & tx2 & tx3 & tx4 & tx5 & N2 & E5 &
     U1 & U2 & G2 & V3 & U4 & U5 & G5 & V6).
  destruct (update_bucket_get _ _ _ _ U2) as (x & x' & _ & F2 & _).
  destruct (update_bucket_get _ _ _ _ U5) as (y & y' & _ & F5 & _).
  apply index_migration_fixpoint.
  - exact (bucket_create_name _ _ _ U1).
  - exact (bucket_create_name _ _ _ F2).
  - exact (bucket_create_name _ _ _ U4).
  - exact (bucket_create_name _ _ _ F5).
  - now apply index_migration_indexes with (tx := tx).
Qed.

End Idempotence.

Lemma entry_sorted_all_sorted (tx : Tx) :
  entry_sorted (Nested tx) = true -> all_sorted tx.
Proof.
  intros H h. revert tx H.
  induction h as [|n h IH]; intros tx H c G.
  - injection G as <-. simpl in H. apply andb_true_iff in H. tauto.
  - simpl in G. destruct (lookup n tx) as [[?|x]|] eqn:L; try discriminate.
    apply (IH x); [|assumption].
    simpl in H. apply andb_true_iff in H. destruct H as [_ H].
    rewrite forallb_forall in H. apply lookup_In in L.
    exact (H _ L).
Qed.

Section NoBucket.

Context {consts : Constants} {codecs : Codecs}.

(** X13. [migrateAddInvoiceWithChannelPoint] scans the buckets that exist.
    When neither name is a bucket of the root (absent, or held by a leaf
    value) the run returns nil and writes nothing. When one of the two is
    missing, the other is still re-encoded. *)
Theorem invoice_migration_missing_buckets (tx : Tx) :
  (no_bucket paymentBucket tx -> no_bucket invoiceBucket tx ->
   migrateAddInvoiceWithChannelPoint tx = (Ok tt, tx)) /\
  (forall I I',
     no_bucket paymentBucket tx ->
     lookup invoiceBucket tx = Some (Nested I) -> sorted I = true ->
     Forall2
       (reencoded deserializeInvoice serializeInvoice
          nodeAndEdgeUpdateIndexVersion invoiceWithChannelPointVersion)
       I I' ->
     exists tx',
       migrateAddInvoiceWithChannelPoint tx = (Ok tt, tx') /\
       lookup invoiceBucket tx' = Some (Nested I')) /\
  (forall P P',
     paymentBucket <> invoiceBucket ->
     no_bucket invoiceBucket tx ->
     lookup paymentBucket tx = Some (Nested P) -> sorted P = true ->
     Forall2
       (reencoded deserializeOutgoingPayment serializeOutgoingPayment
          nodeAndEdgeUpdateIndexVersion invoiceWithChannelPointVersion)
       P P' ->
     exists tx',
       migrateAddInvoiceWithChannelPoint tx = (Ok tt, tx') /\
       lookup paymentBucket tx' = Some (Nested P')).
Proof.
  destruct (scan_bucket_rewrite true transcode_payment paymentVisitor
              paymentBucket tx paymentVisitor_rewrite) as
    (r1 & tx1 & S1 & F1 & N1 & R1).
  destruct (scan_bucket_rewrite true transcode_invoice invoiceVisitor
              invoiceBucket tx1 invoiceVisitor_rewrite) as
    (r2 & tx2 & S2 & F2 & N2 & R2).
  rewrite migrateAddInvoiceWithChannelPoint_eq.
  split; [|split].
  - intros Np Ni. destruct (N1 Np) as [-> ->].
    destruct (N2 Ni) as [-> ->]. now apply two_scans with (tx1 := tx).
  - intros I I' Np LI SI HI. destruct (N1 Np) as [-> ->].
    destruct (R2 _ LI SI) as [E2 L2].
    eapply Forall2_iff in HI; [|intros a b; symmetry; apply rewritten_invoice].
    apply rewrite_entries_all in HI. rewrite HI in E2, L2.
    simpl in E2, L2. subst r2. exists tx2. split; [|assumption].
    now apply two_scans with (tx1 := tx).
  - intros P P' D Ni LP SP HP.
    assert (D' : invoiceBucket <> paymentBucket) by congruence.
    destruct (R1 _ LP SP) as [E1 L1].
    eapply Forall2_iff in HP; [|intros a b; symmetry; apply rewritten_payment].
    apply rewrite_entries_all in HP. rewrite HP in E1, L1.
    simpl in E1, L1. subst r1.
    assert (Ni1 : no_bucket invoiceBucket tx1).
    { intros b. rewrite (F1 _ D'). apply Ni. }
    destruct (N2 Ni1) as [-> ->]. exists tx1. split; [|assumption].
    now apply two_scans with (tx1 := tx1).
Qed.

End NoBucket.

Section ForwardFailure.

Context {consts : Constants} {codecs : Codecs}.

(** X14. When a forwarding event fails to decode at the prior version, or
    to encode at the new one once its type is set, and the entries before
    it re-encode, [migrateAddTypeToForwardEvent] returns that very error,
    unwrapped; the entries before are rewritten, the failing entry and
    those after it are as they were, and so is the rest of the store. *)
Theorem forward_migration_aborts_on_failure (tx : Tx)
    (pre pre' post : bucket) (k v : bytes) (err : error) :
  lookup forwardingLogBucket tx
    = Some (Nested (pre ++ (k, Leaf v) :: post)) ->
  sorted (pre ++ (k, Leaf v) :: post) = true ->
  Forall2 retyped pre pre' ->
  (decodeForwardingEvent v (forwardEventWithType - 1) = Err err \/
   exists ev,
     decodeForwardingEvent v (forwardEventWithType - 1) = Ok ev /\
     encodeForwardingEvent
       {| EventFields := EventFields ev; EventType := SuccessForward |}
       forwardEventWithType = Err err) ->
  exists tx',
    migrateAddTypeToForwardEvent tx = (Err err, tx') /\
    lookup forwardingLogBucket tx'
      = Some (Nested (pre' ++ (k, Leaf v) :: post)) /\
    (forall m, m <> forwardingLogBucket -> lookup m tx' = lookup m tx).
Proof.
  intros L S HP Hf.
  destruct (scan_bucket_rewrite false transcode_event forwardEventVisitor
              forwardingLogBucket tx forwardEventVisitor_rewrite) as
    (r & tx1 & S1 & F1 & _ & R1).
  destruct (R1 _ L S) as [E1 L1].
  eapply Forall2_iff in HP; [|intros a b; symmetry; apply rewritten_event].
  assert (Fail : rewrite_entry false transcode_event k (Leaf v) = Err err).
  { unfold transcode_event. simpl.
    destruct Hf as [->|(ev & -> & H)]; [reflexivity|]. simpl. now rewrite H. }
  rewrite (rewrite_entries_stop _ _ _ _ post _ _ _ HP Fail) in E1, L1.
  simpl in E1, L1. subst r. exists tx1.
  rewrite migrateAddTypeToForwardEvent_eq. auto.
Qed.

End ForwardFailure.

(** ** A run up to the first edge entry that does not decode *)

Lemma bucket_create_runs (name : bytes) (c : bucket) :
  len name <> 0 -> (forall v, lookup name c <> Some (Leaf v)) ->
  exists c', bucket_create name c = Ok c'.
Proof.
  intros L NL. unfold bucket_create. apply Z.eqb_neq in L. rewrite L.
  destruct (lookup name c) as [[v|x]|]; eauto. now elim (NL v).
Qed.

Lemma bucket_create_existing (name : bytes) (c x : bucket) :
  len name <> 0 -> lookup name c = Some (Nested x) ->
  bucket_create name c = Ok c.
Proof.
  intros L E. unfold bucket_create. apply Z.eqb_neq in L. now rewrite L, E.
Qed.

Lemma update_bucket_runs (h : handle) (f : bucket -> result bucket)
    (b c c' : bucket) :
  get_bucket h b = Some c -> f c = Ok c' ->
  exists b', update_bucket h f b = Ok b'.
Proof.
  revert b. induction h as [|n h IH]; simpl; intros b G F.
  - injection G as ->. eauto.
  - destruct (lookup n b) as [[v|d]|]; try discriminate.
    destruct (IH _ G F) as [d' ->]. eauto.
Qed.

Lemma no_nested_insert (key v : bytes) (b : bucket) :
  no_nested b -> no_nested (insert key (Leaf v) b).
Proof.
  intros H k x. destruct (bytes_eq_dec k key) as [->|N].
  - rewrite lookup_insert_eq. discriminate.
  - rewrite lookup_insert_ne by assumption. apply H.
Qed.

Lemma no_nested_nil : no_nested [].
Proof. intros k x. discriminate. Qed.

(** A [Put] of an empty value under a short key into an index that holds
    no nested bucket succeeds. *)
Lemma Put_index_runs (h : handle) (key : bytes) (tx I : bucket) :
  get_bucket h tx = Some I -> no_nested I ->
  (0 < length key <= 100)%nat ->
  exists tx',
    Put h key None tx = (Ok tt, tx') /\
    update_bucket h (bucket_put key None) tx = Ok tx' /\
    get_bucket h tx' = Some (insert key (Leaf []) I).
Proof.
  intros G NN R.
  assert (F : bucket_put key None I = Ok (insert key (Leaf []) I)).
  { change (bucket_put key None) with (bucket_put key (Some [])).
    rewrite bucket_put_checked, (put_check_small _ R). simpl.
    destruct (lookup key I) as [[?|x]|] eqn:L; try reflexivity.
    now elim (NN key x). }
  destruct (update_bucket_runs _ _ _ _ _ G F) as [tx' U].
  exists tx'. unfold Put, modify. rewrite U.
  destruct (update_bucket_get _ _ _ _ U) as (c & c' & Gc & Fc & G').
  rewrite G in Gc. injection Gc as <-. rewrite F in Fc. injection Fc as <-.
  auto.
Qed.

(** The node scan passes when every entry with a 33-byte key is a leaf of
    at least 8 bytes and the index holds no nested bucket. *)
Lemma visit_nodeVisitor_runs (h : handle) (es : bucket) :
  forall (tx I : bucket),
    get_bucket h tx = Some I -> no_nested I ->
    (forall k e, In (k, e) es -> length k = 33%nat ->
       exists v, e = Leaf v /\ (8 <= length v)%nat) ->
    exists tx', visit (nodeVisitor h) es tx = (Ok tt, tx').
Proof.
  induction es as [|[k e] es IH]; intros tx I G NN H.
  - exists tx. reflexivity.
  - simpl visit. unfold bind.
    assert (H' : forall k0 e0, In (k0, e0) es -> length k0 = 33%nat ->
               exists v, e0 = Leaf v /\ (8 <= length v)%nat).
    { intros k0 e0 Hin. apply H. now right. }
    destruct (Nat.eq_dec (length k) 33) as [L|L].
    + destruct (H k e (or_introl eq_refl) L) as (v & -> & Lv).
      rewrite nodeVisitor_put by assumption. simpl reader_bytes.
      destruct (Put_index_runs h (firstn 8 v ++ k) tx I G NN)
        as (tx1 & P & _ & G1).
      { rewrite length_app, length_firstn, L. lia. }
      rewrite P. eapply IH; eauto. now apply no_nested_insert.
    + rewrite nodeVisitor_skip by assumption. eapply IH; eauto.
Qed.

Lemma insert_split (name k : bytes) (x e : entry) (pre post : bucket) :
  name <> k ->
  exists pre' post',
    insert name x (pre ++ (k, e) :: post) = pre' ++ (k, e) :: post' /\
    forall y, In y pre' -> In y pre \/ fst y = name.
Proof.
  intros N. induction pre as [|[k1 e1] pre IH]; simpl.
  - destruct (bytes_compare name k) eqn:C.
    + apply bytes_compare_eq in C. contradiction.
    + exists [(name, x)], post. split; [reflexivity|].
      intros y [<-|[]]. now right.
    + exists [], (insert name x post). split; [reflexivity|].
      intros y [].
  - destruct (bytes_compare name k1) eqn:C.
    + exists ((name, x) :: pre), post. split; [reflexivity|].
      intros y [<-|Hy]; [now right|left; now right].
    + exists ((name, x) :: (k1, e1) :: pre), post. split; [reflexivity|].
      intros y [<-|Hy]; [now right|now left].
    + destruct IH as (pre' & post' & E & Hin).
      exists ((k1, e1) :: pre'), post'. split; [simpl; now rewrite E|].
      intros y [<-|Hy]; [left; now left|].
      destruct (Hin y Hy); [left; now right|now right].
Qed.

Lemma bucket_create_split (name k : bytes) (e : entry)
    (pre post c' : bucket) :
  name <> k ->
  bucket_create name (pre ++ (k, e) :: post) = Ok c' ->
  exists pre' post',
    c' = pre' ++ (k, e) :: post' /\
    forall y, In y pre' -> In y pre \/ fst y = name.
Proof.
  intros N. unfold bucket_create. destruct (len name =? 0); [discriminate|].
  destruct (lookup name (pre ++ (k, e) :: post)) as [[?|?]|];
    try discriminate; intros [= <-].
  - exists pre, post. auto.
  - destruct (insert_split name k (Nested []) e pre post N)
      as (pre' & post' & E & Hin).
    exists pre', post'. auto.
Qed.

Section EdgeDecodeFailure.

Context {consts : Constants} {codecs : Codecs}.

(** The edge scan stops with the decoder's error at the first entry with a
    41-byte key that does not decode. *)
Lemma visit_edgeVisitor_fails (nb eb : bytes) (q' q : handle)
    (k : bytes) (e : entry) (post N : bucket) (err : error) :
  nb <> eb -> length k = 41%nat ->
  deserializeChanEdgePolicy (reader_bytes (entry_value e)) N = Err err ->
  forall (pre tx I : bucket),
    get_bucket (eb :: q) tx = Some I -> no_nested I ->
    get_bucket (nb :: q') tx = Some N ->
    (forall k0 e0, In (k0, e0) pre -> length k0 = 41%nat ->
       exists p,
         deserializeChanEdgePolicy (reader_bytes (entry_value e0)) N
           = Ok p) ->
    exists tx',
      visit (edgeVisitor (nb :: q') (eb :: q)) (pre ++ (k, e) :: post) tx
        = (Err err, tx').
Proof.
  intros D L Dec. induction pre as [|[k0 e0] pre IH]; intros tx I G NN GN H.
  - exists tx. simpl visit. unfold bind.
    rewrite edgeVisitor_eq by assumption. now rewrite GN, Dec.
  - simpl app. simpl visit. unfold bind.
    assert (H' : forall k1 e1, In (k1, e1) pre -> length k1 = 41%nat ->
               exists p,
                 deserializeChanEdgePolicy
                   (reader_bytes (entry_value e1)) N = Ok p).
    { intros k1 e1 Hin. apply H. now right. }
    destruct (Nat.eq_dec (length k0) 41) as [L0|L0].
    + destruct (H k0 e0 (or_introl eq_refl) L0) as (p & Dp).
      rewrite edgeVisitor_eq by assumption. rewrite GN, Dp.
      destruct (Put_index_runs (eb :: q)
                  (PutUint64 (uint64 (LastUpdate_Unix p)) ++ skipn 33 k0)
                  tx I G NN) as (tx1 & P & U & G1).
      { rewrite length_app, length_skipn, L0. simpl. lia. }
      rewrite P. eapply IH; eauto.
      * now apply no_nested_insert.
      * rewrite <- GN. now apply (get_bucket_frame _ _ _ q' _ _ _ U).
    + rewrite edgeVisitor_skip by assumption. eapply IH; eauto.
Qed.

(** C4. If decoding an edge-policy record fails, the run returns an error.
    The edge visitor returns the decoder's error for an entry with a
    41-byte key, writing nothing; a run over a store with such an entry in
    its edge bucket never returns nil; and when the stages before the edge
    scan pass and the entries before that one decode, so that the scan
    reaches it, the run returns the decoder's error under the message of
    the edge scan: the entry is not skipped, and the scan does not go on
    to the entries after it. *)
Theorem edge_decode_failure_returns_error (k : bytes) (err : error) :
  length k = 41%nat ->
  (forall nodes index v tx0 N0,
     get_bucket nodes tx0 = Some N0 ->
     deserializeChanEdgePolicy (reader_bytes v) N0 = Err err ->
     edgeVisitor nodes index k v tx0 = (Err err, tx0)) /\
  (forall tx tx' E N r e,
     nodeBucket <> edgeBucket ->
     migrateNodeAndEdgeUpdateIndex tx = (r, tx') ->
     get_bucket [edgeBucket] tx = Some E ->
     In (k, e) E ->
     get_bucket [nodeBucket] tx' = Some N ->
     deserializeChanEdgePolicy (reader_bytes (entry_value e)) N = Err err ->
     r <> Ok tt) /\
  (forall tx tx' pre post N r e,
     nodeBucket <> edgeBucket ->
     node_stages_pass tx ->
     edge_scan_starts tx (pre ++ (k, e) :: post) ->
     migrateNodeAndEdgeUpdateIndex tx = (r, tx') ->
     get_bucket [nodeBucket] tx' = Some N ->
     (forall k0 e0, In (k0, e0) pre -> length k0 = 41%nat ->
        exists p,
          deserializeChanEdgePolicy (reader_bytes (entry_value e0)) N
            = Ok p) ->
     deserializeChanEdgePolicy (reader_bytes (entry_value e)) N = Err err ->
     r = Err (Errorf "unable to update edge indexes: %v" err)).
Proof.
  intros L.
  destruct (edge_decode_failure_never_succeeds k err L) as [HV HN].
  split; [exact HV|]. split; [exact HN|].
  intros tx tx' pre post N r e D
    (Ln & Lni & Wn & NLn & HNb & HNi)
    (Le & Lei & We & GE & NLe & HEi) H GN Hpre Dec.
  assert (D' : edgeBucket <> nodeBucket) by congruence.
  (* the node bucket *)
  destruct (bucket_create_runs nodeBucket tx Ln NLn) as [tx1 U1].
  destruct (bucket_create_spec _ _ _ U1) as ((x & Lx & Old1) & _).
  assert (G1 : get_bucket [nodeBucket] tx1 = Some x)
    by (simpl; now rewrite Lx).
  assert (Hx : (forall v, lookup nodeUpdateIndexBucket x <> Some (Leaf v)) /\
               (forall k0 e0, In (k0, e0) x -> length k0 = 33%nat ->
                  exists v, e0 = Leaf v /\ (8 <= length v)%nat)).
  { destruct Old1 as [L0|[_ ->]].
    - apply HNb. simpl. now rewrite L0.
    - split; [discriminate|intros ? ? []]. }
  destruct Hx as [NLx Hx].
  (* the node index *)
  destruct (bucket_create_runs nodeUpdateIndexBucket x Lni NLx) as [N2 F2].
  destruct (update_bucket_runs _ _ _ _ _ G1 F2) as [tx2 U2].
  destruct (create_nested_spec _ _ _ _ _ U2 G1) as
    (N2' & I2 & G2 & GI2 & Old2 & _).
  destruct (update_bucket_get _ _ _ _ U2) as (c & c' & Gc & Fc & Gc').
  rewrite G1 in Gc. injection Gc as <-. rewrite F2 in Fc.
  injection Fc as <-. rewrite G2 in Gc'. injection Gc' as ->.
  assert (NN2 : no_nested I2).
  { destruct Old2 as [GI1|[_ ->]]; [|apply no_nested_nil].
    destruct Old1 as [L0|[_ ->]].
    - apply HNi. rewrite <- GI1. simpl. now rewrite L0, Lx.
    - simpl in GI1. rewrite Lx in GI1. discriminate. }
  (* the node scan *)
  destruct (visit_nodeVisitor_runs
              [nodeBucket; nodeUpdateIndexBucket] N2 tx2 I2 GI2 NN2)
    as [tx3 V3].
  { intros k0 e0 Hin L0.
    destruct (bucket_create_entries _ _ _ _ _ F2 Hin) as [Hin'|[-> _]];
      [eauto|contradiction]. }
  assert (K3 : records_kept nodeBucket nodeUpdateIndexBucket N2 tx3).
  { eapply (preserves_visit
              (records_kept nodeBucket nodeUpdateIndexBucket N2));
      [|exact V3|exists N2; auto].
    apply preserves_nodeVisitor. intros key val.
    apply preserves_modify. intros t t' U.
    now apply (records_kept_below _ _ _ _ _ _ _ U). }
  destruct K3 as (N3 & G3 & _).
  pose proof (node_stages_frame _ _ _ _ _ _ U1 U2 V3 D') as F3.
  (* the edge bucket and its index *)
  assert (LE3 : lookup edgeBucket tx3
                = Some (Nested (pre ++ (k, e) :: post))).
  { rewrite F3. simpl in GE.
    destruct (lookup edgeBucket tx) as [[?|?]|]; congruence. }
  assert (GE3 : get_bucket [edgeBucket] tx3 = Some (pre ++ (k, e) :: post))
    by (simpl; now rewrite LE3).
  pose proof (bucket_create_existing _ _ _ Le LE3) as U4.
  destruct (bucket_create_runs edgeUpdateIndexBucket _ Lei NLe) as [E5 F5].
  destruct (update_bucket_runs _ _ _ _ _ GE3 F5) as [tx5 U5].
  destruct (create_nested_spec _ _ _ _ _ U5 GE3) as
    (E5' & I5 & G5 & GI5 & Old5 & _).
  destruct (update_bucket_get _ _ _ _ U5) as (c & c' & Gc & Fc & Gc').
  rewrite GE3 in Gc. injection Gc as <-. rewrite F5 in Fc.
  injection Fc as <-. rewrite G5 in Gc'. injection Gc' as ->.
  assert (NN5 : no_nested I5).
  { destruct Old5 as [GI3|[_ ->]]; [|apply no_nested_nil].
    apply HEi. rewrite <- GI3. apply get_bucket_lookup. now rewrite F3. }
  assert (Nk : edgeUpdateIndexBucket <> k)
    by (intros Hk; rewrite Hk in We; contradiction).
  destruct (bucket_create_split _ _ _ _ _ _ Nk F5) as
    (pre5 & post5 & -> & Hpre5).
  assert (GN5 : get_bucket [nodeBucket] tx5 = Some N3).
  { rewrite <- G3. apply get_bucket_lookup.
    eapply update_bucket_frame; eauto. }
  (* the run, up to the outcome of the edge scan *)
  destruct (visit (edgeVisitor [nodeBucket]
                     [edgeBucket; edgeUpdateIndexBucket])
              (pre5 ++ (k, e) :: post5) tx5) as [r6 tx6] eqn:V6.
  assert (Run : migrateNodeAndEdgeUpdateIndex tx
                = (match r6 with
                   | Ok _ => Ok tt
                   | Err c =>
                       Err (Errorf "unable to update edge indexes: %v" c)
                   | Panic => Panic
                   end, tx6)).
  { unfold migrateNodeAndEdgeUpdateIndex.
    rewrite (bind_Ok _ _ _ _ _
               (wrap_Ok _ _ _ _ _
                  (CreateBucketIfNotExists_run [] nodeBucket _ _ U1))).
    rewrite (bind_Ok _ _ _ _ _
               (wrap_Ok _ _ _ _ _
                  (CreateBucketIfNotExists_run [nodeBucket] _ _ _ U2))).
    assert (S3 : ForEach [nodeBucket]
                   (nodeVisitor [nodeBucket; nodeUpdateIndexBucket]) tx2
                 = (Ok tt, tx3)).
    { unfold ForEach, read_bucket, bind at 1. now rewrite G2. }
    rewrite (bind_Ok _ _ _ _ _ (wrap_Ok _ _ _ _ _ S3)).
    rewrite (bind_Ok _ _ _ _ _
               (wrap_Ok _ _ _ _ _
                  (CreateBucketIfNotExists_run [] edgeBucket _ _ U4))).
    rewrite (bind_Ok _ _ _ _ _
               (wrap_Ok _ _ _ _ _
                  (CreateBucketIfNotExists_run [edgeBucket] _ _ _ U5))).
    unfold bind at 1, wrap, ForEach, read_bucket, bind at 1.
    cbn [app]. rewrite G5, V6. now destruct r6 as [[]| |]. }
  rewrite Run in H. injection H as <- <-.
  (* the node bucket the scan decodes against is the one returned *)
  assert (E6 : lookup nodeBucket tx6 = lookup nodeBucket tx5).
  { eapply (preserves_visit
              (fun t => lookup nodeBucket t = lookup nodeBucket tx5));
      [|exact V6|reflexivity].
    apply preserves_edgeVisitor. intros key val.
    now apply preserves_Put_frame. }
  assert (N = N3) as ->.
  { rewrite (get_bucket_lookup _ [] _ _ E6), GN5 in GN. congruence. }
  destruct (visit_edgeVisitor_fails nodeBucket edgeBucket []
              [edgeUpdateIndexBucket] k e post5 N3 err D L Dec
              pre5 tx5 I5 GI5 NN5 GN5) as [tx7 V7].
  { intros k0 e0 Hin L0. destruct (Hpre5 _ Hin) as [Hin'|Hk].
    - eauto.
    - simpl in Hk. subst k0. contradiction. }
  rewrite V7 in V6. now injection V6 as <- _.
Qed.

End EdgeDecodeFailure.

(** * The theorems at work on the example store *)

Import Example.

Lemma skip_on_foreign_keys_witness :
  nodeVisitor [nodeBucket; nodeUpdateIndexBucket] (name "source")
    (Some (pub x02)) store = (Ok tt, store) /\
  edgeVisitor [nodeBucket] [edgeBucket; edgeUpdateIndexBucket]
    (name "graph-edge-update-index") None store = (Ok tt, store).
Proof.
  split.
  - apply (proj1 (skip_on_foreign_keys [] _ (name "source") _ store)).
    vm_compute. discriminate.
  - apply (proj2 (skip_on_foreign_keys _ _ (name "graph-edge-update-index")
                    None store)).
    vm_compute. discriminate.
Defined.

Lemma nil_value_handling_witness :
  nodeVisitor [nodeBucket; nodeUpdateIndexBucket] (name "alias") None store
    = (Ok tt, store) /\
  edgeVisitor [nodeBucket] [edgeBucket; edgeUpdateIndexBucket]
    (name "alias") None store = (Ok tt, store) /\
  forwardEventVisitor [forwardingLogBucket] [x01] None store_nested_log
    = (Err (ErrCodec 4), store_nested_log).
Proof.
  pose proof (nil_value_handling [nodeBucket]
                [nodeBucket; nodeUpdateIndexBucket] (name "alias") store)
    as (_ & _ & Hn & _).
  pose proof (nil_value_handling [nodeBucket]
                [edgeBucket; edgeUpdateIndexBucket] (name "alias") store)
    as (_ & _ & _ & He & _).
  pose proof (nil_value_handling [] [forwardingLogBucket] [x01]
                store_nested_log) as (_ & _ & _ & _ & _ & Hf).
  split; [|split].
  - apply Hn. vm_compute. discriminate.
  - apply He. vm_compute. discriminate.
  - apply Hf. reflexivity.
Defined.

(** The claim C1 as stated fails: on a nested bucket under a 33-byte key
    the node visitor slices the nil value and panics, and on a nested
    bucket of the forwarding log the visitor decodes the nil value and
    returns the decoder's error. *)
Lemma nil_value_not_skipped :
  nodeVisitor [nodeBucket; nodeUpdateIndexBucket] (pub x00) None
    store_nested_node = (Panic, store_nested_node) /\
  fst (migrateNodeAndEdgeUpdateIndex store_nested_node) = Panic /\
  forwardEventVisitor [forwardingLogBucket] [x01] None store_nested_log
    = (Err (ErrCodec 4), store_nested_log) /\
  fst (migrateAddTypeToForwardEvent store_nested_log) = Err (ErrCodec 4).
Proof. repeat split. Qed.

Lemma index_key_order_witness :
  bytes_compare (PutUint64 1000) (PutUint64 1001) <> Gt /\
  (bytes_compare (PutUint64 1000 ++ pub x09) (PutUint64 1001 ++ pub x02)
     <> Gt -> 1000 <= 1001).
Proof.
  assert (R0 : 0 <= 1000 < 2 ^ 64) by (split; [lia | reflexivity]).
  assert (R1 : 0 <= 1001 < 2 ^ 64) by (split; [lia | reflexivity]).
  destruct (index_key_order 1000 1001 R0 R1) as [H1 H2].
  split.
  - apply H1. lia.
  - apply H2.
Defined.

Lemma node_update_index_complete_witness :
  exists v I',
    Leaf [x00; x00; x00; x00; x00; x00; x03; xe8; x11] = Leaf v /\
    (8 <= length v)%nat /\
    length (firstn 8 v ++ pub x02) = 41%nat /\
    get_bucket [nodeBucket; nodeUpdateIndexBucket]
      (snd (migrateNodeAndEdgeUpdateIndex store)) = Some I' /\
    entries_with_key (firstn 8 v ++ pub x02) I'
    = [(firstn 8 v ++ pub x02, Leaf [])].
Proof.
  refine (node_update_index_complete store
            (snd (migrateNodeAndEdgeUpdateIndex store)) _ (pub x02)
            (Leaf [x00; x00; x00; x00; x00; x00; x03; xe8; x11])
            _ _ _ _ _ _).
  - vm_compute. discriminate.
  - intros I H. vm_compute in H. discriminate.
  - vm_compute. reflexivity.
  - vm_compute. reflexivity.
  - vm_compute. left. reflexivity.
  - reflexivity.
Defined.

Lemma edge_update_index_complete_witness :
  exists I',
    get_bucket [edgeBucket; edgeUpdateIndexBucket]
      (snd (migrateNodeAndEdgeUpdateIndex store)) = Some I' /\
    lookup ([x00; x00; x00; x00; x00; x00; x00; x05] ++ repeat x07 8) I'
    = Some (Leaf []).
Proof.
  refine (proj2 (proj2 (proj2
    (edge_update_index_complete store
       (snd (migrateNodeAndEdgeUpdateIndex store)) _ _ (edge_key x02 x07)
       (Leaf [x05]) 5 _ _ _ _ _ _ _)))).
  - vm_compute. discriminate.
  - vm_compute. reflexivity.
  - vm_compute. reflexivity.
  - vm_compute. left. reflexivity.
  - reflexivity.
  - vm_compute. reflexivity.
  - reflexivity.
Defined.

Lemma reencode_payments_and_invoices_witness :
  exists tx',
    migrateAddInvoiceWithChannelPoint store = (Ok tt, tx') /\
    lookup paymentBucket tx'
      = Some (Nested [ ([x01], Leaf [x31; x00]); ([x09], Nested []) ]) /\
    lookup invoiceBucket tx' = Some (Nested [ ([x01], Leaf [x21; x00]) ]).
Proof.
  assert (D : paymentBucket <> invoiceBucket)
    by (vm_compute; discriminate).
  destruct (reencode_payments_and_invoices store D) as (_ & _ & H).
  apply (H [ ([x01], Leaf [x31]); ([x09], Nested []) ] _
           [ ([x01], Leaf [x21]) ] _).
  - vm_compute. reflexivity.
  - reflexivity.
  - vm_compute. reflexivity.
  - reflexivity.
  - constructor; [|constructor; [|constructor]].
    + split; [reflexivity|]. exists [x31], [x31; x00]. repeat split.
    + split; reflexivity.
  - constructor; [|constructor].
    split; [reflexivity|]. exists [x21], [x21; x00]. repeat split.
Defined.

Lemma reencode_aborts_on_failure_witness :
  (exists tx',
     migrateAddInvoiceWithChannelPoint store_bad_payment
       = (Err (ErrCodec 2), tx') /\
     lookup paymentBucket tx'
       = Some (Nested [ ([x01], Leaf [x31; x00]); ([x02], Leaf []);
                        ([x03], Leaf [x33]) ]) /\
     (forall m, m <> paymentBucket ->
                lookup m tx' = lookup m store_bad_payment)) /\
  (exists tx',
     migrateAddInvoiceWithChannelPoint store_bad_invoice
       = (Err (ErrCodec 3), tx') /\
     lookup invoiceBucket tx'
       = Some (Nested [ ([x01], Leaf [x21; x00]); ([x02], Leaf []);
                        ([x03], Leaf [x23]) ])).
Proof.
  split.
  - apply (proj1 (reencode_aborts_on_failure store_bad_payment
                    [ ([x01], Leaf [x31]) ] [ ([x01], Leaf [x31; x00]) ]
                    [ ([x03], Leaf [x33]) ] [x02] [] (ErrCodec 2))).
    + vm_compute. reflexivity.
    + reflexivity.
    + constructor; [|constructor].
      split; [reflexivity|]. exists [x31], [x31; x00]. repeat split.
    + left. reflexivity.
  - apply (proj2 (reencode_aborts_on_failure store_bad_invoice
                    [ ([x01], Leaf [x21]) ] [ ([x01], Leaf [x21; x00]) ]
                    [ ([x03], Leaf [x23]) ] [x02] [] (ErrCodec 3))).
    + vm_compute. discriminate.
    + right. exists [ ([x01], Leaf [x31]) ], [ ([x01], Leaf [x31; x00]) ].
      split; [vm_compute; reflexivity|]. split; [reflexivity|].
      constructor; [|constructor].
      split; [reflexivity|]. exists [x31], [x31; x00]. repeat split.
    + vm_compute. reflexivity.
    + reflexivity.
    + constructor; [|constructor].
      split; [reflexivity|]. exists [x21], [x21; x00]. repeat split.
    + left. reflexivity.
Defined.

Lemma forward_events_retyped_witness :
  migrateAddTypeToForwardEvent store_bad_payment
    = (Ok tt, store_bad_payment) /\
  exists tx',
    migrateAddTypeToForwardEvent store = (Ok tt, tx') /\
    lookup forwardingLogBucket tx'
      = Some (Nested [ ([x01], Leaf [x0a; x00]);
                       ([x02], Leaf [x0b; x0c; x00]) ]).
Proof.
  split.
  - apply (proj1 (forward_events_retyped store_bad_payment)).
    intros b H. vm_compute in H. discriminate.
  - apply (proj2 (proj2 (forward_events_retyped store))
             [ ([x01], Leaf [x0a]); ([x02], Leaf [x0b; x0c]) ]).
    + vm_compute. reflexivity.
    + reflexivity.
    + constructor; [|constructor; [|constructor]].
      * split; [reflexivity|].
        exists [x0a], {| EventFields := [x0a]; EventType := xff |},
               [x0a; x00].
        repeat split.
      * split; [reflexivity|].
        exists [x0b; x0c],
               {| EventFields := [x0b; x0c]; EventType := xff |},
               [x0b; x0c; x00].
        repeat split.
Defined.


Lemma index_migration_frame_witness :
  lookup paymentBucket (snd (migrateNodeAndEdgeUpdateIndex store))
  = lookup paymentBucket store.
Proof.
  apply (index_migration_frame store _
           (fst (migrateNodeAndEdgeUpdateIndex store)) paymentBucket).
  - vm_compute. reflexivity.
  - vm_compute. discriminate.
  - vm_compute. discriminate.
Defined.

Lemma index_migration_keeps_records_witness :
  exists N',
    get_bucket [nodeBucket] (snd (migrateNodeAndEdgeUpdateIndex store))
      = Some N' /\
    forall k, k <> nodeUpdateIndexBucket ->
      lookup k N'
      = lookup k
          [ (pub x02, Leaf [x00; x00; x00; x00; x00; x00; x03; xe8; x11]);
            (pub x03, Leaf [x00; x00; x00; x00; x00; x00; x03; xe9]);
            (name "alias", Nested []);
            (name "source", Leaf (pub x02)) ].
Proof.
  refine (proj1 (index_migration_keeps_records (consts := consts) store
                   (snd (migrateNodeAndEdgeUpdateIndex store))
                   (fst (migrateNodeAndEdgeUpdateIndex store)) _ _) _ _).
  - vm_compute. discriminate.
  - vm_compute. reflexivity.
  - vm_compute. reflexivity.
Defined.

Lemma index_migration_errors_wrapped_witness :
  exists msg cause,
    Errorf "unable to update edge indexes: %v" (ErrCodec 1)
      = Errorf msg cause /\
    In msg index_migration_messages.
Proof.
  apply (index_migration_errors_wrapped store_bad_edge
           (snd (migrateNodeAndEdgeUpdateIndex store_bad_edge))).
  vm_compute. reflexivity.
Defined.

Lemma index_migration_create_errors_witness :
  migrateNodeAndEdgeUpdateIndex store_leaf_node
    = (Err (Errorf "unable to create node bucket: %v"
              ErrIncompatibleValue), store_leaf_node) /\
  migrateNodeAndEdgeUpdateIndex store_leaf_index
    = (Err (Errorf "unable to create node update index: %v"
              ErrIncompatibleValue), store_leaf_index).
Proof.
  split.
  - refine (proj1 (index_migration_create_errors (consts := consts)
                     store_leaf_node _) [x01] _).
    + vm_compute. discriminate.
    + vm_compute. reflexivity.
  - refine (proj2 (index_migration_create_errors (consts := consts)
                     store_leaf_index _)
              [ (name "graph-node-update-index", Leaf []) ] [] _ _ _).
    + vm_compute. discriminate.
    + vm_compute. discriminate.
    + vm_compute. reflexivity.
    + vm_compute. reflexivity.
Defined.

Lemma node_update_index_sound_witness :
  (exists I,
     get_bucket [nodeBucket; nodeUpdateIndexBucket] store = Some I /\
     lookup ([x00; x00; x00; x00; x00; x00; x03; xe9] ++ pub x03) I
       = Some (Leaf [])) \/
  (Leaf [] = Leaf [] /\
   exists N k v,
     get_bucket [nodeBucket] store = Some N /\ In (k, Leaf v) N /\
     length k = 33%nat /\ (8 <= length v)%nat /\
     [x00; x00; x00; x00; x00; x00; x03; xe9] ++ pub x03
       = firstn 8 v ++ k).
Proof.
  eapply (node_update_index_sound store
            (snd (migrateNodeAndEdgeUpdateIndex store))).
  - vm_compute. discriminate.
  - vm_compute. reflexivity.
  - vm_compute. reflexivity.
  - vm_compute. reflexivity.
Defined.

Lemma edge_update_index_sound_witness :
  (exists I,
     get_bucket [edgeBucket; edgeUpdateIndexBucket] store = Some I /\
     lookup ([x00; x00; x00; x00; x00; x00; x00; x06] ++ repeat x08 8) I
       = Some (Leaf [])) \/
  (Leaf [] = Leaf [] /\
   exists E N k e0 p,
     get_bucket [edgeBucket] store = Some E /\
     get_bucket [nodeBucket] (snd (migrateNodeAndEdgeUpdateIndex store))
       = Some N /\
     In (k, e0) E /\ length k = 41%nat /\
     deserializeChanEdgePolicy (reader_bytes (entry_value e0)) N = Ok p /\
     [x00; x00; x00; x00; x00; x00; x00; x06] ++ repeat x08 8
       = PutUint64 (uint64 (LastUpdate_Unix p)) ++ skipn 33 k).
Proof.
  eapply (edge_update_index_sound store
            (snd (migrateNodeAndEdgeUpdateIndex store))).
  - vm_compute. discriminate.
  - vm_compute. discriminate.
  - vm_compute. reflexivity.
  - vm_compute. reflexivity.
  - vm_compute. reflexivity.
Defined.

Lemma index_order_of_signed_times_witness :
  bytes_compare (PutUint64 (uint64 (-1))) (PutUint64 (uint64 5)) =
  if Bool.eqb (-1 <? 0) (5 <? 0) then (-1 ?= 5) else (5 ?= -1).
Proof.
  apply index_order_of_signed_times.
  - split; [discriminate|reflexivity].
  - split; [discriminate|reflexivity].
Defined.

Lemma invoice_migration_keeps_shape_witness :
  lookup forwardingLogBucket
    (snd (migrateAddInvoiceWithChannelPoint store))
    = lookup forwardingLogBucket store /\
  exists P',
    lookup paymentBucket
      (snd (migrateAddInvoiceWithChannelPoint store_bad_payment))
      = Some (Nested P') /\
    Forall2 same_shape
      [ ([x01], Leaf [x31]); ([x02], Leaf []); ([x03], Leaf [x33]) ] P'.
Proof.
  split.
  - refine (proj1 (invoice_migration_keeps_shape (consts := consts) store
                     (snd (migrateAddInvoiceWithChannelPoint store))
                     (fst (migrateAddInvoiceWithChannelPoint store)) _)
              forwardingLogBucket _ _).
    + vm_compute. reflexivity.
    + vm_compute. discriminate.
    + vm_compute. discriminate.
  - refine (proj1 (proj2 (invoice_migration_keeps_shape (consts := consts)
                     store_bad_payment
                     (snd (migrateAddInvoiceWithChannelPoint
                             store_bad_payment))
                     (fst (migrateAddInvoiceWithChannelPoint
                             store_bad_payment)) _) _) _ _ _).
    + vm_compute. reflexivity.
    + vm_compute. discriminate.
    + vm_compute. reflexivity.
    + reflexivity.
Defined.

Lemma forward_migration_keeps_shape_witness :
  exists L',
    lookup forwardingLogBucket (snd (migrateAddTypeToForwardEvent store))
      = Some (Nested L') /\
    Forall2 same_shape
      [ ([x01], Leaf [x0a]); ([x02], Leaf [x0b; x0c]) ] L'.
Proof.
  refine (proj2 (forward_migration_keeps_shape (consts := consts) store
                   (snd (migrateAddTypeToForwardEvent store))
                   (fst (migrateAddTypeToForwardEvent store)) _) _ _ _).
  - vm_compute. reflexivity.
  - vm_compute. reflexivity.
  - reflexivity.
Defined.

Lemma forward_migration_rejects_nested_witness :
  fst (migrateAddTypeToForwardEvent store_nested_log) <> Ok tt /\
  exists L',
    lookup forwardingLogBucket
      (snd (migrateAddTypeToForwardEvent store_nested_log))
      = Some (Nested L') /\
    In ([x01], Nested []) L'.
Proof.
  apply (forward_migration_rejects_nested store_nested_log
           (snd (migrateAddTypeToForwardEvent store_nested_log))
           (fst (migrateAddTypeToForwardEvent store_nested_log))
           [ ([x01], Nested []) ]).
  - vm_compute. reflexivity.
  - reflexivity.
  - left. reflexivity.
  - vm_compute. reflexivity.
Defined.

Lemma index_migration_fixpoint_witness :
  migrateNodeAndEdgeUpdateIndex store_indexed = (Ok tt, store_indexed).
Proof.
  apply index_migration_fixpoint;
    [vm_compute; discriminate | vm_compute; discriminate
    |vm_compute; discriminate | vm_compute; discriminate |].
  exists [ (pub x02, Leaf [x00; x00; x00; x00; x00; x00; x03; xe8]);
           (name "graph-node-update-index",
            Nested [ ([x00; x00; x00; x00; x00; x00; x03; xe8]
                        ++ pub x02, Leaf []) ]) ],
         [ ([x00; x00; x00; x00; x00; x00; x03; xe8] ++ pub x02, Leaf []) ],
         [ (edge_key x02 x07, Leaf [x05]);
           (name "graph-edge-update-index",
            Nested [ ([x00; x00; x00; x00; x00; x00; x00; x05]
                        ++ repeat x07 8, Leaf []) ]) ],
         [ ([x00; x00; x00; x00; x00; x00; x00; x05] ++ repeat x07 8,
            Leaf []) ].
  split; [reflexivity|].
  split; [vm_compute; reflexivity|]. split; [reflexivity|].
  split; [vm_compute; reflexivity|]. split; [reflexivity|].
  split; [vm_compute; reflexivity|]. split; [reflexivity|].
  split; [vm_compute; reflexivity|]. split; [reflexivity|].
  split.
  - intros k e [H|[H|[]]] L; injection H as <- <-.
    + eexists. split; [reflexivity|]. split; [simpl; lia|].
      vm_compute. reflexivity.
    + vm_compute in L. discriminate L.
  - intros k e [H|[H|[]]] L; injection H as <- <-.
    + exists 5. split; vm_compute; reflexivity.
    + vm_compute in L. discriminate L.
Defined.

Lemma index_migration_idempotent_witness :
  migrateNodeAndEdgeUpdateIndex (snd (migrateNodeAndEdgeUpdateIndex store))
  = (Ok tt, snd (migrateNodeAndEdgeUpdateIndex store)).
Proof.
  apply (index_migration_idempotent store).
  - vm_compute. discriminate.
  - apply entry_sorted_all_sorted. vm_compute. reflexivity.
  - vm_compute. reflexivity.
Defined.

Lemma invoice_migration_missing_buckets_witness :
  migrateAddInvoiceWithChannelPoint store_bad_edge = (Ok tt, store_bad_edge)
  /\
  exists tx',
    migrateAddInvoiceWithChannelPoint store_payments_only = (Ok tt, tx') /\
    lookup paymentBucket tx' = Some (Nested [ ([x01], Leaf [x31; x00]) ]).
Proof.
  split.
  - apply (proj1 (invoice_migration_missing_buckets store_bad_edge)).
    + intros b H. vm_compute in H. discriminate.
    + intros b H. vm_compute in H. discriminate.
  - apply (proj2 (proj2
             (invoice_migration_missing_buckets store_payments_only))
             [ ([x01], Leaf [x31]) ]).
    + vm_compute. discriminate.
    + intros b H. vm_compute in H. discriminate.
    + vm_compute. reflexivity.
    + reflexivity.
    + constructor; [|constructor].
      split; [reflexivity|]. exists [x31], [x31; x00]. repeat split.
Defined.

Lemma forward_migration_aborts_on_failure_witness :
  exists tx',
    migrateAddTypeToForwardEvent store_bad_event = (Err (ErrCodec 4), tx') /\
    lookup forwardingLogBucket tx'
      = Some (Nested [ ([x01], Leaf [x0a; x00]); ([x02], Leaf []);
                       ([x03], Leaf [x0c]) ]) /\
    (forall m, m <> forwardingLogBucket ->
               lookup m tx' = lookup m store_bad_event).
Proof.
  apply (forward_migration_aborts_on_failure store_bad_event
           [ ([x01], Leaf [x0a]) ] [ ([x01], Leaf [x0a; x00]) ]
           [ ([x03], Leaf [x0c]) ] [x02] [] (ErrCodec 4)).
  - vm_compute. reflexivity.
  - reflexivity.
  - constructor; [|constructor].
    split; [reflexivity|].
    exists [x0a], {| EventFields := [x0a]; EventType := xff |}, [x0a; x00].
    repeat split.
  - left. reflexivity.
Defined.

Lemma edge_decode_failure_returns_error_witness :
  fst (migrateNodeAndEdgeUpdateIndex store_bad_edge)
    = Err (Errorf "unable to update edge indexes: %v" (ErrCodec 1)).
Proof.
  refine (proj2 (proj2 (edge_decode_failure_returns_error
                          (consts := consts) (codecs := codecs)
                          (edge_key x03 x08) (ErrCodec 1) eq_refl))
            store_bad_edge
            (snd (migrateNodeAndEdgeUpdateIndex store_bad_edge))
            [ (edge_key x02 x07, Leaf [x05]) ] [] _
            (fst (migrateNodeAndEdgeUpdateIndex store_bad_edge))
            (Leaf []) _ _ _ _ _ _ _).
  - vm_compute. discriminate.
  - split; [vm_compute; discriminate|].
    split; [vm_compute; discriminate|].
    split; [vm_compute; discriminate|].
    split; [intros v H; vm_compute in H; discriminate|].
    split.
    + intros N H. vm_compute in H. injection H as <-. split.
      * intros v H. vm_compute in H. discriminate.
      * intros k e [H|[]] _. injection H as <- <-.
        eexists. split; [reflexivity|]. simpl. lia.
    + intros I H. vm_compute in H. discriminate.
  - split; [vm_compute; discriminate|].
    split; [vm_compute; discriminate|].
    split; [vm_compute; discriminate|].
    split; [vm_compute; reflexivity|].
    split.
    + intros v H. vm_compute in H. discriminate.
    + intros I H. vm_compute in H. discriminate.
  - apply surjective_pairing.
  - vm_compute. reflexivity.
  - intros k0 e0 [H|[]] _. injection H as <- <-.
    eexists. vm_compute. reflexivity.
  - vm_compute. reflexivity.
Defined.
